(** * Inverse warping (inverse_warp.py): a shallow embedding

    The source manipulates torch tensors of floating-point numbers.  The
    embedding keeps the tensor structure (a size vector and a row-major
    storage), the Python control flow (exceptions, the module-level cache
    [pixel_coords]) and the arithmetic of the source, with real numbers in
    place of finite floats.  A division never raises: as in torch, a zero
    divisor gives an infinity or a nan, carried by the type [fval] from the
    first quotient of [cam2pixel] on.  Rounding is not modelled: every
    arithmetic result stated below is the exact value of the expression the
    source evaluates, which the program approximates to within rounding.
    A comparison with a threshold ([> 1], [< -1], [clamp]) is therefore only
    decided by the model where the exact value is off the threshold. *)

From Stdlib Require Import String Ascii DecimalString.
From Stdlib Require Import List Arith ZArith Lia Bool.
From Stdlib Require Import Reals Lra.
From Stdlib Require RNsatz.
Import ListNotations.

Set Implicit Arguments.

(** ** Python outcomes *)

Inductive exn : Type :=
| AssertionError (msg : string)
| IndexError
| ValueError
| TypeError
| RuntimeError.

Inductive result (A : Type) : Type :=
| Ok (a : A)
| Raise (e : exn).

Arguments Ok {A} a.
Arguments Raise {A} e.

Definition rbind {A B} (r : result A) (k : A -> result B) : result B :=
  match r with
  | Ok a => k a
  | Raise e => Raise e
  end.

Declare Scope res_scope.
Delimit Scope res_scope with res.
Notation "x <- r ;; k" := (rbind r (fun x => k))
  (at level 61, r at next level, right associativity) : res_scope.
Notation "' p <- r ;; k" := (rbind r (fun p => k))
  (at level 61, p pattern, r at next level, right associativity) : res_scope.
Notation "r ;;; k" := (rbind r (fun _ => k))
  (at level 61, right associativity) : res_scope.

(** ** Tensors: a size vector and a row-major storage *)

Record tensor (A : Type) : Type := mkT { size : list nat; data : list A }.

Arguments mkT {A} size data.

Definition numel (s : list nat) : nat := fold_right Nat.mul 1 s.

Definition ndimension {A} (t : tensor A) : nat := length (size t).

(** Offset of a multi-index in the row-major storage. *)
Fixpoint ravel (s idx : list nat) : nat :=
  match s, idx with
  | _ :: s', i :: idx' => i * numel s' + ravel s' idx'
  | _, _ => 0
  end.

(** Multi-index of an offset. *)
Fixpoint unravel (s : list nat) (k : nat) : list nat :=
  match s with
  | [] => []
  | _ :: s' => (k / numel s') :: unravel s' (k mod numel s')
  end.

Definition in_range (s idx : list nat) : Prop := Forall2 lt idx s.

Definition tget {A} (d : A) (t : tensor A) (idx : list nat) : A :=
  nth (ravel (size t) idx) (data t) d.

Definition tabulate {A} (s : list nat) (f : list nat -> A) : tensor A :=
  mkT s (map (fun k => f (unravel s k)) (seq 0 (numel s))).

Definition well_formed {A} (t : tensor A) : Prop :=
  length (data t) = numel (size t).

(** ** check_sizes (lines 18-23) *)

Definition isdigit (c : ascii) : bool :=
  (48 <=? nat_of_ascii c) && (nat_of_ascii c <=? 57).

Definition int_of_digit (c : ascii) : nat := nat_of_ascii c - 48.

Definition str_of_nat (n : nat) : string :=
  NilEmpty.string_of_uint (Nat.to_uint n).

(** ['x'.join(expected)] on a Python string. *)
Fixpoint join_x (expected : list ascii) : string :=
  match expected with
  | [] => EmptyString
  | [c] => String c EmptyString
  | c :: rest => String c (String "x" (join_x rest))
  end.

(** [str(list(input.size()))]. *)
Fixpoint str_of_items (l : list nat) : string :=
  match l with
  | [] => EmptyString
  | [n] => str_of_nat n
  | n :: rest => (str_of_nat n ++ ", " ++ str_of_items rest)%string
  end.

Definition str_of_list (l : list nat) : string :=
  ("[" ++ str_of_items l ++ "]")%string.

Definition wrong_size_msg (input_name : string) (expected : list ascii)
    (sz : list nat) : string :=
  ("wrong size for " ++ input_name ++ ", expected " ++ join_x expected
    ++ ", got  " ++ str_of_list sz)%string.

(** [input.size(i)]: an index past the rank raises IndexError. *)
Definition size_at (sz : list nat) (i : nat) : result nat :=
  match nth_error sz i with
  | Some d => Ok d
  | None => Raise IndexError
  end.

(** The loop of check_sizes: [i] is the position of the head of
    [expected]; the conditions are appended in order. *)
Fixpoint check_loop (sz : list nat) (i : nat) (expected : list ascii)
    (condition : list bool) : result (list bool) :=
  match expected with
  | [] => Ok condition
  | c :: rest =>
      if isdigit c then
        (d <- size_at sz i ;;
         check_loop sz (S i) rest (condition ++ [d =? int_of_digit c]))%res
      else check_loop sz (S i) rest condition
  end.

Definition check_sizes (sz : list nat) (input_name : string)
    (expected : string) : result unit :=
  let pat := list_ascii_of_string expected in
  (condition <- check_loop sz 0 pat [length sz =? length pat] ;;
   if forallb (fun b => b) condition then Ok tt
   else Raise (AssertionError (wrong_size_msg input_name pat sz)))%res.

(** ** The torch primitives the source calls

    Each primitive follows the torch operation of the same name on
    contiguous tensors: the size rules, the exceptions raised on a size
    mismatch, and the value of every entry. *)

Definition rget (t : tensor R) (idx : list nat) : R := tget 0%R t idx.

Definition tmap {A B} (f : A -> B) (t : tensor A) : tensor B :=
  mkT (size t) (map f (data t)).

Definition insert_at {A} (k : nat) (x : A) (l : list A) : list A :=
  firstn k l ++ x :: skipn k l.

Definition remove_at {A} (k : nat) (l : list A) : list A :=
  firstn k l ++ skipn (S k) l.

Fixpoint map2 {A B C} (f : A -> B -> C) (l : list A) (m : list B) : list C :=
  match l, m with
  | a :: l', b :: m' => f a b :: map2 f l' m'
  | _, _ => []
  end.

Fixpoint forallb2 {A B} (f : A -> B -> bool) (l : list A) (m : list B) : bool :=
  match l, m with
  | [], [] => true
  | a :: l', b :: m' => f a b && forallb2 f l' m'
  | _, _ => false
  end.

Definition list_eqb (l m : list nat) : bool := forallb2 Nat.eqb l m.

Definition Req_bool (x y : R) : bool := if Req_dec_T x y then true else false.
Definition Rlt_bool (x y : R) : bool := if Rlt_dec x y then true else false.

(** [torch.arange(0, n)] as reals (the source converts with [type_as]). *)
Definition arange (n : nat) : tensor R := mkT [n] (map INR (seq 0 n)).

Definition ones (s : list nat) : tensor R := tabulate s (fun _ => 1%R).

(** [t.view(s)] with every dimension given. *)
Definition view {A} (t : tensor A) (s : list nat) : result (tensor A) :=
  if numel s =? numel (size t) then Ok (mkT s (data t))
  else Raise RuntimeError.

(** [t.view(pre, -1)]: the last dimension is inferred. *)
Definition view_infer {A} (t : tensor A) (pre : list nat) : result (tensor A) :=
  let n := numel (size t) in
  let p := numel pre in
  if (0 <? p) && (n mod p =? 0) then Ok (mkT (pre ++ [n / p]) (data t))
  else Raise RuntimeError.

(** Index into an operand that is broadcast to a larger size: the
    trailing components are kept, and a dimension of size 1 is read at 0. *)
Definition bidx (s idx : list nat) : list nat :=
  map2 (fun d i => if d =? 1 then 0 else i) s
       (skipn (length idx - length s) idx).

(** [t.expand(s)], for a target of the rank of [t] (the only use in the
    source): every dimension is kept or grown from 1. *)
Definition expand {A} (d : A) (t : tensor A) (s : list nat) : result (tensor A) :=
  if forallb2 (fun dt ds => (dt =? ds) || (dt =? 1)) (size t) s
  then Ok (tabulate s (fun idx => tget d t (bidx (size t) idx)))
  else Raise RuntimeError.

(** [t[..., start:stop, ...]] on dimension [dim], with Python's clipping of
    the bounds; [stop = None] is an open slice [start:]. *)
Definition slice {A} (d : A) (t : tensor A) (dim start : nat) (stop : option nat)
  : result (tensor A) :=
  match nth_error (size t) dim with
  | None => Raise IndexError
  | Some n =>
      let lo := Nat.min start n in
      let hi := match stop with Some e => Nat.max lo (Nat.min e n) | None => n end in
      Ok (tabulate (firstn dim (size t) ++ (hi - lo) :: skipn (S dim) (size t))
            (fun idx => tget d t (firstn dim idx
                                    ++ (nth dim idx 0 + lo)
                                    :: skipn (S dim) idx)))
  end.

(** [t[..., k, ...]] on dimension [dim]. *)
Definition select {A} (d : A) (t : tensor A) (dim k : nat) : result (tensor A) :=
  match nth_error (size t) dim with
  | None => Raise IndexError
  | Some n =>
      if k <? n then
        Ok (tabulate (remove_at dim (size t))
              (fun idx => tget d t (insert_at dim k idx)))
      else Raise IndexError
  end.

(** [t.unsqueeze(dim)]. *)
Definition unsqueeze {A} (t : tensor A) (dim : nat) : result (tensor A) :=
  if dim <=? length (size t) then Ok (mkT (insert_at dim 1 (size t)) (data t))
  else Raise IndexError.

(** [torch.stack(ts, dim)]. *)
Definition stack {A} (d : A) (ts : list (tensor A)) (dim : nat)
  : result (tensor A) :=
  match ts with
  | [] => Raise RuntimeError
  | t0 :: _ =>
      if forallb (fun t => list_eqb (size t) (size t0)) ts then
        if dim <=? length (size t0) then
          Ok (tabulate (insert_at dim (length ts) (size t0))
                (fun idx => tget d (nth (nth dim idx 0) ts t0)
                                 (remove_at dim idx)))
        else Raise IndexError
      else Raise RuntimeError
  end.

(** [torch.cat([a, b], dim)]. *)
Definition cat2 {A} (d : A) (a b : tensor A) (dim : nat) : result (tensor A) :=
  match nth_error (size a) dim, nth_error (size b) dim with
  | Some na, Some nb =>
      if list_eqb (remove_at dim (size a)) (remove_at dim (size b)) then
        Ok (tabulate (firstn dim (size a) ++ (na + nb) :: skipn (S dim) (size a))
              (fun idx =>
                 let i := nth dim idx 0 in
                 if i <? na then tget d a idx
                 else tget d b (firstn dim idx ++ (i - na) :: skipn (S dim) idx)))
      else Raise RuntimeError
  | _, _ => Raise IndexError
  end.

Definition sum_n (m : nat) (f : nat -> R) : R :=
  fold_right Rplus 0%R (map f (seq 0 m)).

(** [a.bmm(b)]: batched matrix product of [B,n,m] by [B,m,p]. *)
Definition bmm (a b : tensor R) : result (tensor R) :=
  match size a, size b with
  | [ba; n; m], [bb; m'; p] =>
      if (ba =? bb) && (m =? m') then
        Ok (tabulate [ba; n; p]
              (fun idx =>
                 match idx with
                 | [i; r; c] => sum_n m (fun k => rget a [i; r; k] * rget b [i; k; c])%R
                 | _ => 0%R
                 end))
      else Raise RuntimeError
  | _, _ => Raise RuntimeError
  end.

(** Size of a broadcast, on reversed size vectors. *)
Fixpoint broadcast_rev (s1 s2 : list nat) : option (list nat) :=
  match s1, s2 with
  | [], _ => Some s2
  | _, [] => Some s1
  | d1 :: r1, d2 :: r2 =>
      match broadcast_rev r1 r2 with
      | None => None
      | Some r =>
          if d1 =? d2 then Some (d1 :: r)
          else if d1 =? 1 then Some (d2 :: r)
          else if d2 =? 1 then Some (d1 :: r)
          else None
      end
  end.

Definition broadcast_shape (s1 s2 : list nat) : option (list nat) :=
  option_map (@rev nat) (broadcast_rev (rev s1) (rev s2)).

(** An elementwise binary operation with broadcasting. *)
Definition binop (f : R -> R -> R) (a b : tensor R) : result (tensor R) :=
  match broadcast_shape (size a) (size b) with
  | Some s =>
      Ok (tabulate s (fun idx => f (rget a (bidx (size a) idx))
                                   (rget b (bidx (size b) idx))))
  | None => Raise RuntimeError
  end.

Definition tadd := binop Rplus.
Definition tmul := binop Rmult.

Definition mul_scalar (c : R) (t : tensor R) : tensor R := tmap (fun v => (c * v)%R) t.
Definition add_scalar (t : tensor R) (c : R) : tensor R := tmap (fun v => (v + c)%R) t.
Definition tneg (t : tensor R) : tensor R := tmap Ropp t.
Definition tcos (t : tensor R) : tensor R := tmap cos t.
Definition tsin (t : tensor R) : tensor R := tmap sin t.

(** [t.clamp(min=m)]. *)
Definition clamp_min (t : tensor R) (m : R) : tensor R := tmap (fun v => Rmax v m) t.

(** [m1 + m2] on two masks of one size: an entry is set when either is. *)
Definition mask_add (m1 m2 : tensor bool) : result (tensor bool) :=
  if list_eqb (size m1) (size m2)
  then Ok (mkT (size m1) (map2 orb (data m1) (data m2)))
  else Raise RuntimeError.

(** [t[mask] = v], in place. *)
Definition masked_assign {A} (t : tensor A) (mask : tensor bool) (v : A)
  : result (tensor A) :=
  if list_eqb (size t) (size mask)
  then Ok (mkT (size t) (map2 (fun x (m : bool) => if m then v else x) (data t) (data mask)))
  else Raise IndexError.

(** ** Values that may leave the reals

    A float is a finite number, an infinity or a nan.  The finite ones are
    read as reals: a finite result below is the exact value of the source's
    expression, which the float result approximates (neither rounding nor
    overflow is modelled).  The divisions of the source (lines 58 and 61)
    are the only operations of the module that can produce an infinity or
    a nan from finite operands, so the values before them stay in [R]. *)

Inductive fval : Type :=
| Fin (r : R)
| PInf
| NInf
| NaN.

Definition fget (t : tensor fval) (idx : list nat) : fval := tget NaN t idx.

(** The value of [r / 0] for a finite [r] (the zero divisors of the source
    are [+0]: the integer [w - 1] or [h - 1] converted to a float). *)
Definition over_zero (r : R) : fval :=
  if Rlt_dec 0 r then PInf else if Rlt_dec r 0 then NInf else NaN.

(** [x / z] on two finite values. *)
Definition fdiv (x z : R) : fval :=
  if Req_dec_T z 0 then over_zero x else Fin (x / z).

(** [c * v] for a finite scalar [c]. *)
Definition fmul (c : R) (v : fval) : fval :=
  match v with
  | Fin r => Fin (c * r)
  | PInf => if Rlt_dec 0 c then PInf else if Rlt_dec c 0 then NInf else NaN
  | NInf => if Rlt_dec 0 c then NInf else if Rlt_dec c 0 then PInf else NaN
  | NaN => NaN
  end.

(** [v / n] for a Python integer [n]. *)
Definition fdiv_int (v : fval) (n : Z) : fval :=
  match v with
  | Fin r => if (n =? 0)%Z then over_zero r else Fin (r / IZR n)
  | PInf => if (n <? 0)%Z then NInf else PInf
  | NInf => if (n <? 0)%Z then PInf else NInf
  | NaN => NaN
  end.

(** [v - c] for a finite scalar [c]. *)
Definition fsub (v : fval) (c : R) : fval :=
  match v with
  | Fin r => Fin (r - c)
  | _ => v
  end.

(** [v > c] and [v < c]: a nan compares false with everything. *)
Definition fgt (v : fval) (c : R) : bool :=
  match v with
  | Fin r => Rlt_bool c r
  | PInf => true
  | NInf | NaN => false
  end.

Definition flt (v : fval) (c : R) : bool :=
  match v with
  | Fin r => Rlt_bool r c
  | NInf => true
  | PInf | NaN => false
  end.

(** [a / b] with broadcasting: never raises, a zero divisor gives an
    infinity or a nan. *)
Definition tdiv (a b : tensor R) : result (tensor fval) :=
  match broadcast_shape (size a) (size b) with
  | Some s =>
      Ok (tabulate s (fun idx => fdiv (rget a (bidx (size a) idx))
                                      (rget b (bidx (size b) idx))))
  | None => Raise RuntimeError
  end.

Definition fmul_scalar (c : R) (t : tensor fval) : tensor fval := tmap (fmul c) t.
Definition div_int (t : tensor fval) (n : Z) : tensor fval :=
  tmap (fun v => fdiv_int v n) t.
Definition fsub_scalar (t : tensor fval) (c : R) : tensor fval :=
  tmap (fun v => fsub v c) t.
Definition gt_scalar (t : tensor fval) (c : R) : tensor bool :=
  tmap (fun v => fgt v c) t.
Definition lt_scalar (t : tensor fval) (c : R) : tensor bool :=
  tmap (fun v => flt v c) t.

(** ** The module state: the global [pixel_coords] (line 5)

    An exception leaves the global as it was when it was raised. *)

Definition cache : Type := option (tensor R).

Definition M (A : Type) : Type := cache -> result A * cache.

Definition mret {A} (a : A) : M A := fun st => (Ok a, st).

Definition mbind {A B} (m : M A) (k : A -> M B) : M B :=
  fun st =>
    match m st with
    | (Ok a, st') => k a st'
    | (Raise e, st') => (Raise e, st')
    end.

Definition lift {A} (r : result A) : M A := fun st => (r, st).
Definition get_cache : M cache := fun st => (Ok st, st).
Definition put_cache (t : tensor R) : M unit := fun _ => (Ok tt, Some t).

Declare Scope m_scope.
Delimit Scope m_scope with M.
Notation "x <- m ;; k" := (mbind m (fun x => k))
  (at level 61, m at next level, right associativity) : m_scope.
Notation "' p <- m ;; k" := (mbind m (fun p => k))
  (at level 61, p pattern, m at next level, right associativity) : m_scope.
Notation "m ;;; k" := (mbind m (fun _ => k))
  (at level 61, right associativity) : m_scope.

(** [b, h, w = t.size()] *)
Definition unpack3 (sz : list nat) : result (nat * nat * nat) :=
  match sz with
  | [b; h; w] => Ok (b, h, w)
  | _ => Raise ValueError
  end.

(** [b, _, h, w = t.size()] *)
Definition unpack4 (sz : list nat) : result (nat * nat * nat) :=
  match sz with
  | [b; _; h; w] => Ok (b, h, w)
  | _ => Raise ValueError
  end.

(** ** set_id_grid (lines 8-15) *)

(** Lines 11-15 for a height and a width: the value stored in the global. *)
Definition id_grid (h w : nat) : result (tensor R) :=
  (iv <- view (arange h) [1; h; 1] ;;
   i_range <- expand 0%R iv [1; h; w] ;;
   jv <- view (arange w) [1; 1; w] ;;
   j_range <- expand 0%R jv [1; h; w] ;;
   stack 0%R [j_range; i_range; ones [1; h; w]] 1)%res.

Definition set_id_grid (depth : tensor R) : M unit :=
  ('(b, h, w) <- lift (unpack3 (size depth)) ;;
   g <- lift (id_grid h w) ;;
   put_cache g)%M.

(** ** pixel2cam (lines 26-40) *)

(** Lines 36-37: regenerate the global when it is None or lower than [h]. *)
Definition refresh_grid (depth : tensor R) (h : nat) : M unit :=
  (pc <- get_cache ;;
   match pc with
   | None => set_id_grid depth
   | Some g =>
       hc <- lift (size_at (size g) 2) ;;
       if hc <? h then set_id_grid depth else mret tt
   end)%M.

(** Line 38 up to [.contiguous()]: the grid the call works with. *)
Definition current_grid (depth : tensor R) : M (tensor R) :=
  ('(b, h, w) <- lift (unpack3 (size depth)) ;;
   refresh_grid depth h ;;;
   pc <- get_cache ;;
   match pc with
   | None => lift (Raise TypeError)
   | Some g =>
       lift (g1 <- slice 0%R g 2 0 (Some h) ;;
             g2 <- slice 0%R g1 3 0 (Some w) ;;
             expand 0%R g2 [b; 3; h; w])%res
   end)%M.

Definition pixel2cam (depth intrinsics_inv : tensor R) : M (tensor R) :=
  ('(b, h, w) <- lift (unpack3 (size depth)) ;;
   grid <- current_grid depth ;;
   lift (current_pixel_coords <- view_infer grid [b; 3] ;;
         prod <- bmm intrinsics_inv current_pixel_coords ;;
         cam_coords <- view prod [b; 3; h; w] ;;
         d1 <- unsqueeze depth 1 ;;
         tmul cam_coords d1)%res)%M.

(** ** cam2pixel (lines 43-66) *)

(** Lines 51-53: the homogeneous source coordinates, [B, 3, H*W]. *)
Definition pcoords_of (cam_coords proj_c2p : tensor R) : result (tensor R) :=
  ('(b, h, w) <- unpack4 (size cam_coords) ;;
   cam_coords_flat <- view_infer cam_coords [b; 3] ;;
   p1 <- slice 0%R proj_c2p 2 0 (Some 3) ;;
   rot <- bmm p1 cam_coords_flat ;;
   tr <- slice 0%R proj_c2p 2 3 None ;;
   tadd rot tr)%res.

(** Line 56: the clamped depth channel. *)
Definition clamped_Z (pcoords : tensor R) : result (tensor R) :=
  (Z0 <- select 0%R pcoords 1 2 ;; Ok (clamp_min Z0 (1 / 1000)))%res.

(** Lines 58 and 61 before the masking: [2*(C / Z)/(n-1) - 1]. *)
Definition normalize (C Z : tensor R) (n : nat) : result (tensor fval) :=
  (q <- tdiv C Z ;;
   Ok (fsub_scalar (div_int (fmul_scalar 2 q) (Z.of_nat n - 1)) 1))%res.

(** Lines 59-60 and 62-63: the mask and the in-place write of 2. *)
Definition mask_out (C_norm : tensor fval) : result (tensor fval) :=
  (C_mask <- mask_add (gt_scalar C_norm 1) (lt_scalar C_norm (-1)) ;;
   masked_assign C_norm C_mask (Fin 2))%res.

Definition cam2pixel (cam_coords proj_c2p : tensor R) : result (tensor fval) :=
  ('(b, h, w) <- unpack4 (size cam_coords) ;;
   pcoords <- pcoords_of cam_coords proj_c2p ;;
   X <- select 0%R pcoords 1 0 ;;
   Y <- select 0%R pcoords 1 1 ;;
   Z <- clamped_Z pcoords ;;
   X_norm0 <- normalize X Z w ;;
   X_norm <- mask_out X_norm0 ;;
   Y_norm0 <- normalize Y Z h ;;
   Y_norm <- mask_out Y_norm0 ;;
   pixel_coords <- stack NaN [X_norm; Y_norm] 2 ;;
   view pixel_coords [b; h; w; 2])%res.

(** ** euler2mat (lines 69-107) *)

Definition euler2mat (z y x : tensor R) : result (tensor R) :=
  (B <- size_at (size z) 0 ;;
   let cosz := tcos z in
   let sinz := tsin z in
   let zeros := mul_scalar 0 z in
   let ones := add_scalar zeros 1 in
   zs <- stack 0%R [cosz; tneg sinz; zeros;
                    sinz; cosz; zeros;
                    zeros; zeros; ones] 1 ;;
   zmat <- view zs [B; 3; 3] ;;
   let cosy := tcos y in
   let siny := tsin y in
   ys <- stack 0%R [cosy; zeros; siny;
                    zeros; ones; zeros;
                    tneg siny; zeros; cosy] 1 ;;
   ymat <- view ys [B; 3; 3] ;;
   let cosx := tcos x in
   let sinx := tsin x in
   xs <- stack 0%R [ones; zeros; zeros;
                    zeros; cosx; tneg sinx;
                    zeros; sinx; cosx] 1 ;;
   xmat <- view xs [B; 3; 3] ;;
   xy <- bmm xmat ymat ;;
   bmm xy zmat)%res.

(** ** pose_vec2mat (lines 110-125) *)

Definition pose_vec2mat (vec : tensor R) : result (tensor R) :=
  (t3 <- slice 0%R vec 1 0 (Some 3) ;;
   translation <- unsqueeze t3 (length (size t3)) ;;
   rx <- select 0%R vec 1 3 ;;
   ry <- select 0%R vec 1 4 ;;
   rz <- select 0%R vec 1 5 ;;
   rot_mat <- euler2mat rz ry rx ;;
   cat2 0%R rot_mat translation 2)%res.

(** ** inverse_warp (lines 128-161) *)

(** Lines 141-147: the validation, on the five size vectors. *)
Definition validate (img depth pose intrinsics intrinsics_inv : list nat)
  : result unit :=
  (check_sizes img "img" "B3HW" ;;;
   check_sizes depth "depth" "BHW" ;;;
   check_sizes pose "pose" "B6" ;;;
   check_sizes intrinsics "intrinsics" "B33" ;;;
   check_sizes intrinsics_inv "intrinsics" "B33" ;;;
   if list_eqb intrinsics_inv intrinsics then Ok tt
   else Raise (AssertionError EmptyString))%res.

(** Lines 149-158: the sampling coordinates handed to [grid_sample]. *)
Definition src_pixel_coords (img depth pose intrinsics intrinsics_inv : tensor R)
  : M (tensor fval) :=
  (lift (validate (size img) (size depth) (size pose)
                  (size intrinsics) (size intrinsics_inv)) ;;;
   lift (unpack4 (size img)) ;;;
   cam_coords <- pixel2cam depth intrinsics_inv ;;
   lift (pose_mat <- pose_vec2mat pose ;;
         proj_cam_to_src_pixel <- bmm intrinsics pose_mat ;;
         cam2pixel cam_coords proj_cam_to_src_pixel)%res)%M.

Section Sampler.

(** [torch.nn.functional.grid_sample] is a primitive of the library. *)
Variable grid_sample : tensor R -> tensor fval -> result (tensor R).

Definition inverse_warp (img depth pose intrinsics intrinsics_inv : tensor R)
  : M (tensor R) :=
  (coords <- src_pixel_coords img depth pose intrinsics intrinsics_inv ;;
   lift (grid_sample img coords))%M.

End Sampler.

(** ** The matrices the specification names

    These follow the specification's text (section 4.2), not the code:
    3x3 matrices as lists of rows, their product and transpose. *)

Definition mat3 : Type := list (list R).

Definition mat_entry (m : mat3) (i j : nat) : R := nth j (nth i m []) 0%R.

Definition mat_tabulate (f : nat -> nat -> R) : mat3 :=
  map (fun i => map (fun j => f i j) (seq 0 3)) (seq 0 3).

Definition mat_mul (a b : mat3) : mat3 :=
  mat_tabulate (fun i j => sum_n 3 (fun k => mat_entry a i k * mat_entry b k j)%R).

Definition mat_transpose (a : mat3) : mat3 :=
  mat_tabulate (fun i j => mat_entry a j i).

Definition mat_identity : mat3 :=
  [[1; 0; 0]; [0; 1; 0]; [0; 0; 1]]%R.

Definition Rz (theta : R) : mat3 :=
  [[cos theta; - sin theta; 0];
   [sin theta; cos theta; 0];
   [0; 0; 1]]%R.

Definition Ry (theta : R) : mat3 :=
  [[cos theta; 0; sin theta];
   [0; 1; 0];
   [- sin theta; 0; cos theta]]%R.

Definition Rx (theta : R) : mat3 :=
  [[1; 0; 0];
   [0; cos theta; - sin theta];
   [0; sin theta; cos theta]]%R.

(** The 3x3 matrix held by batch element [n] of a [B,3,k] tensor. *)
Definition batch_mat (t : tensor R) (n : nat) : mat3 :=
  mat_tabulate (fun i j => rget t [n; i; j]).

(** The all-zero tensor of a given size: the zero pose, the zero angles. *)
Definition tzeros (s : list nat) : tensor R := tabulate s (fun _ => 0%R).

(** Channel [c] of the homogeneous source coordinates of pixel (i,j) of
    batch element [n]: row [c] of the projection applied to the camera
    point, plus the translation entry (line 53, entrywise). *)
Definition proj_coord (cam P : tensor R) (n c i j : nat) : R :=
  (sum_n 3 (fun k => rget P [n; c; k] * rget cam [n; k; i; j])
   + rget P [n; c; 3%nat])%R.

(** The normalisation of lines 58 and 61 on one entry. *)
Definition norm_coord (C Z : R) (m : nat) : R :=
  (2 * (C / Rmax Z (1 / 1000)) / IZR (Z.of_nat m - 1) - 1)%R.

(** The masked write of lines 59-60 and 62-63 on one entry. *)
Definition mask_value (v : R) : R :=
  if Rlt_bool 1 v || Rlt_bool v (-1) then 2%R else v.

(** The same two steps with the values a float division can produce. *)
Definition fnorm_coord (C Z : R) (m : nat) : fval :=
  fsub (fdiv_int (fmul 2 (fdiv C (Rmax Z (1 / 1000)))) (Z.of_nat m - 1)) 1.

Definition fmask (v : fval) : fval :=
  if fgt v 1 || flt v (-1) then Fin 2 else v.

(** Sample inputs: the projection [I | 0] for one batch element, and a
    2x3 camera-coordinate map whose first pixel projects off the right
    edge of the image. *)
Definition proj_id : tensor R :=
  mkT [1; 3; 4] [1; 0; 0; 0;
                 0; 1; 0; 0;
                 0; 0; 1; 0]%R.

Definition cam_sample : tensor R :=
  mkT [1; 3; 2; 3] [5 / 2; 1; 2;   0; 1; 2;
                    0; 0; 0;       1; 1; 1;
                    1; 1; 1;       1; 1; 1]%R.

(** A map whose first pixel lies behind the camera (X = 1/1000 at depth
    -5): divided by its own depth it would land left of the image, divided
    by the clamp bound it lands on the centre column. *)
Definition cam_behind : tensor R :=
  mkT [1; 3; 2; 3] [1 / 1000; 1; 2;   0; 1; 2;
                    0; 0; 0;          1; 1; 1;
                    -5; 1; 1;         1; 1; 1]%R.

(** A camera-coordinate map of three rows and a single column. *)
Definition cam_one_column : tensor R :=
  mkT [1; 3; 3; 1] [1; 0; -1;
                    0; 1; 2;
                    1; 1; 1]%R.

(** A correct pixel grid for a batch of [b] maps of [h] rows and [w]
    columns: cell (i,j) holds (column index, row index, 1). *)
Definition is_pixel_grid (b h w : nat) (t : tensor R) : Prop :=
  size t = [b; 3; h; w]
  /\ forall n i j, n < b -> i < h -> j < w ->
       rget t [n; 0; i; j] = INR j
       /\ rget t [n; 1; i; j] = INR i
       /\ rget t [n; 2; i; j] = 1%R.

(** The cache serves a request of [h] rows and [w] columns correctly when
    it is empty, or holds a grid that is lower than [h] (line 36 replaces
    it) or at least [w] wide. *)
Definition cache_adequate (st : cache) (h w : nat) : Prop :=
  st = None
  \/ exists g hc wc,
       st = Some g /\ is_pixel_grid 1 hc wc g /\ (hc < h \/ w <= wc).

(** Sample inputs of the identity warp: identity intrinsics for one batch
    element, and a 2x3 depth map of constant depth 1/10000. *)
Definition K_id : tensor R :=
  mkT [1; 3; 3] [1; 0; 0;
                 0; 1; 0;
                 0; 0; 1]%R.

Definition depth_small : tensor R := tabulate [1; 2; 3] (fun _ => (1 / 10000)%R).

(** Determinant of a 3x3 matrix, by the first row. *)
Definition mat_det (m : mat3) : R :=
  (mat_entry m 0 0 * (mat_entry m 1 1 * mat_entry m 2 2 - mat_entry m 1 2 * mat_entry m 2 1)
   - mat_entry m 0 1 * (mat_entry m 1 0 * mat_entry m 2 2 - mat_entry m 1 2 * mat_entry m 2 0)
   + mat_entry m 0 2 * (mat_entry m 1 0 * mat_entry m 2 1 - mat_entry m 1 1 * mat_entry m 2 0))%R.

(** * Properties *)

(** ** Storage and indexing *)

Lemma numel_cons (d : nat) (s : list nat) : numel (d :: s) = d * numel s.
Proof. reflexivity. Qed.

Lemma ravel_lt (s idx : list nat) : in_range s idx -> ravel s idx < numel s.
Proof.
  unfold in_range. intros H.
  induction H as [|i d idx' s' Hid _ IH].
  - simpl. lia.
  - rewrite numel_cons. cbn [ravel]. nia.
Qed.

Lemma unravel_ravel (s idx : list nat) :
  in_range s idx -> unravel s (ravel s idx) = idx.
Proof.
  unfold in_range. intros H.
  induction H as [|i d idx' s' Hid Hrest IH].
  - reflexivity.
  - cbn [ravel unravel].
    pose proof (ravel_lt Hrest) as Hlt.
    assert (Hn : numel s' <> 0) by lia.
    rewrite Nat.div_add_l by exact Hn.
    rewrite Nat.div_small by exact Hlt.
    rewrite Nat.add_0_r.
    rewrite (Nat.add_comm (i * numel s')), Nat.Div0.mod_add.
    rewrite Nat.mod_small by exact Hlt.
    rewrite IH. reflexivity.
Qed.

Lemma nth_map_seq {A} (g : nat -> A) (n k : nat) (d : A) :
  k < n -> nth k (map g (seq 0 n)) d = g k.
Proof.
  intros Hk.
  rewrite (nth_indep _ d (g 0)) by (rewrite length_map, length_seq; exact Hk).
  rewrite map_nth, seq_nth by exact Hk. reflexivity.
Qed.

Lemma tget_tabulate {A} (d : A) (s : list nat) (f : list nat -> A) (idx : list nat) :
  in_range s idx -> tget d (tabulate s f) idx = f idx.
Proof.
  intros H. unfold tget, tabulate. cbn [size data].
  rewrite nth_map_seq by (apply ravel_lt; exact H).
  rewrite unravel_ravel by exact H. reflexivity.
Qed.

Lemma well_formed_tabulate {A} (s : list nat) (f : list nat -> A) :
  well_formed (tabulate s f).
Proof.
  unfold well_formed, tabulate. cbn [size data].
  rewrite length_map, length_seq. reflexivity.
Qed.

Lemma tget_tmap {A B} (f : A -> B) (dA : A) (dB : B) (t : tensor A) (idx : list nat) :
  well_formed t -> in_range (size t) idx ->
  tget dB (tmap f t) idx = f (tget dA t idx).
Proof.
  intros Hwf Hr. unfold tget, tmap. cbn [size data].
  pose proof (ravel_lt Hr) as Hlt. rewrite <- Hwf in Hlt.
  rewrite (nth_indep _ dB (f dA)) by (rewrite length_map; exact Hlt).
  apply map_nth.
Qed.

Lemma well_formed_tmap {A B} (f : A -> B) (t : tensor A) :
  well_formed t -> well_formed (tmap f t).
Proof.
  unfold well_formed, tmap. cbn [size data]. rewrite length_map. auto.
Qed.

Lemma list_eqb_refl (l : list nat) : list_eqb l l = true.
Proof.
  induction l as [|a l IH]; [reflexivity|].
  unfold list_eqb in *. cbn [forallb2]. rewrite Nat.eqb_refl, IH. reflexivity.
Qed.

Lemma list_eqb_eq (l m : list nat) : list_eqb l m = true <-> l = m.
Proof.
  split; [|intros ->; apply list_eqb_refl].
  revert m. induction l as [|a l IH]; intros [|b m] H; try discriminate; auto.
  unfold list_eqb in *. cbn [forallb2] in H.
  apply andb_true_iff in H as [H1 H2].
  apply Nat.eqb_eq in H1. f_equal; auto.
Qed.

Ltac in_range_tac :=
  unfold in_range; repeat (apply Forall2_cons || apply Forall2_nil); try lia.

Lemma view_ok {A} (t : tensor A) (s : list nat) :
  numel s = numel (size t) -> view t s = Ok (mkT s (data t)).
Proof. intros H. unfold view. rewrite H, Nat.eqb_refl. reflexivity. Qed.

Lemma stack_ok {A} (d : A) (t0 : tensor A) (ts : list (tensor A)) (dim : nat) :
  Forall (fun t => size t = size t0) ts -> dim <= length (size t0) ->
  stack d (t0 :: ts) dim
  = Ok (tabulate (insert_at dim (S (length ts)) (size t0))
          (fun idx => tget d (nth (nth dim idx 0) (t0 :: ts) t0) (remove_at dim idx))).
Proof.
  intros Hall Hdim. unfold stack.
  replace (forallb _ (t0 :: ts)) with true.
  - apply Nat.leb_le in Hdim. rewrite Hdim. reflexivity.
  - symmetry. apply forallb_forall. intros t [<-|Hin].
    + apply list_eqb_refl.
    + rewrite Forall_forall in Hall. rewrite (Hall _ Hin). apply list_eqb_refl.
Qed.

Lemma bmm_ok (a b : tensor R) (B n m p : nat) :
  size a = [B; n; m] -> size b = [B; m; p] ->
  bmm a b = Ok (tabulate [B; n; p]
                  (fun idx =>
                     match idx with
                     | [i; r; c] => sum_n m (fun k => rget a [i; r; k] * rget b [i; k; c])%R
                     | _ => 0%R
                     end)).
Proof.
  intros Ha Hb. unfold bmm. rewrite Ha, Hb, !Nat.eqb_refl. reflexivity.
Qed.

Lemma bmm_entries (a b : tensor R) (B n m p : nat) :
  size a = [B; n; m] -> size b = [B; m; p] ->
  exists c,
    bmm a b = Ok c
    /\ size c = [B; n; p]
    /\ well_formed c
    /\ forall i r q, i < B -> r < n -> q < p ->
         rget c [i; r; q] = sum_n m (fun k => rget a [i; r; k] * rget b [i; k; q])%R.
Proof.
  intros Ha Hb. rewrite (bmm_ok _ _ Ha Hb).
  eexists. split; [reflexivity|]. split; [reflexivity|].
  split; [apply well_formed_tabulate|].
  intros i r q Hi Hr Hq. unfold rget at 1.
  rewrite tget_tabulate by in_range_tac. reflexivity.
Qed.

Lemma unravel_in_range (s : list nat) (k : nat) :
  k < numel s -> in_range s (unravel s k).
Proof.
  unfold in_range. revert k.
  induction s as [|d s IH]; intros k Hk.
  - constructor.
  - rewrite numel_cons in Hk. cbn [unravel].
    assert (Hn : numel s <> 0) by (intros E; rewrite E in Hk; lia).
    constructor.
    + apply Nat.Div0.div_lt_upper_bound. lia.
    + apply IH. apply Nat.mod_upper_bound. exact Hn.
Qed.

Lemma map2_length {A B C} (f : A -> B -> C) (l : list A) (m : list B) :
  length l = length m -> length (map2 f l m) = length l.
Proof.
  revert m. induction l as [|a l IH]; intros [|b m] H; try discriminate; auto.
  cbn [map2 length]. rewrite IH; auto.
Qed.

Lemma map2_nth {A B C} (f : A -> B -> C) (l : list A) (m : list B)
    (k : nat) (da : A) (db : B) (dc : C) :
  length l = length m -> k < length l ->
  nth k (map2 f l m) dc = f (nth k l da) (nth k m db).
Proof.
  revert m k. induction l as [|a l IH]; intros [|b m] k H Hk; try discriminate.
  - cbn [length] in Hk. lia.
  - destruct k as [|k]; [reflexivity|].
    cbn [map2 nth]. apply IH; cbn [length] in *; lia.
Qed.

Lemma bidx_same (s idx : list nat) : in_range s idx -> bidx s idx = idx.
Proof.
  unfold in_range, bidx. intros H.
  rewrite (Forall2_length H), Nat.sub_diag. cbn [skipn].
  induction H as [|i d idx' s' Hid _ IH]; [reflexivity|].
  cbn [map2]. rewrite IH. f_equal.
  destruct (Nat.eqb_spec d 1); lia.
Qed.

Lemma broadcast_rev_same (l : list nat) : broadcast_rev l l = Some l.
Proof.
  induction l as [|d l IH]; [reflexivity|].
  cbn [broadcast_rev]. rewrite IH, Nat.eqb_refl. reflexivity.
Qed.

Lemma broadcast_shape_same (s : list nat) : broadcast_shape s s = Some s.
Proof.
  unfold broadcast_shape. rewrite broadcast_rev_same. cbn [option_map].
  rewrite rev_involutive. reflexivity.
Qed.

Lemma broadcast_shape_last1 (b c n : nat) :
  broadcast_shape [b; c; n] [b; c; 1] = Some [b; c; n].
Proof.
  unfold broadcast_shape. cbn [rev app broadcast_rev].
  rewrite !Nat.eqb_refl.
  destruct (n =? 1) eqn:E; reflexivity.
Qed.

Lemma bidx_last1 (b c i r q : nat) :
  i < b -> r < c -> bidx [b; c; 1] [i; r; q] = [i; r; 0].
Proof.
  intros Hi Hr. unfold bidx. cbn [length Nat.sub skipn map2 Nat.eqb].
  destruct (Nat.eqb_spec b 1); destruct (Nat.eqb_spec c 1); f_equal; try lia;
    f_equal; lia.
Qed.

(** ** euler2mat *)

Lemma tget_view {A} (d : A) (t : tensor A) (s idx' idx : list nat) :
  ravel s idx' = ravel (size t) idx ->
  tget d (mkT s (data t)) idx' = tget d t idx.
Proof. intros H. unfold tget. cbn [size data]. rewrite H. reflexivity. Qed.

(** Nine [B]-vectors stacked on dimension 1 and viewed as [B,3,3]: entry
    (i,j) of batch element [n] is entry [n] of the vector at place 3i+j. *)
Lemma stack9_view (B : nat) (t0 : tensor R) (ts : list (tensor R)) :
  length ts = 8 ->
  size t0 = [B] ->
  Forall (fun t => size t = [B]) ts ->
  exists s m,
    stack 0%R (t0 :: ts) 1 = Ok s
    /\ view s [B; 3; 3] = Ok m
    /\ size m = [B; 3; 3]
    /\ well_formed m
    /\ forall n i j, n < B -> i < 3 -> j < 3 ->
         rget m [n; i; j] = rget (nth (3 * i + j) (t0 :: ts) t0) [n].
Proof.
  intros Hlen H0 Hall.
  rewrite stack_ok; [|rewrite H0; exact Hall|rewrite H0; simpl; lia].
  rewrite H0, Hlen. cbn [insert_at firstn skipn app].
  eexists. eexists. split; [reflexivity|].
  rewrite view_ok by (cbn [size tabulate numel fold_right]; lia).
  split; [reflexivity|]. split; [reflexivity|]. split.
  - unfold well_formed. cbn [size data tabulate].
    rewrite length_map, length_seq. cbn [numel fold_right]. lia.
  - intros n i j Hn Hi Hj. unfold rget.
    rewrite (@tget_view _ 0%R _ [B; 3; 3] [n; i; j] [n; 3 * i + j])
      by (cbn [size tabulate ravel numel fold_right]; lia).
    rewrite tget_tabulate by in_range_tac.
    reflexivity.
Qed.

Lemma sum_n_3 (f : nat -> R) : sum_n 3 f = (f 0%nat + (f 1%nat + (f 2%nat + 0)))%R.
Proof. reflexivity. Qed.

Lemma lt3_cases (i : nat) : i < 3 -> i = 0 \/ i = 1 \/ i = 2.
Proof. lia. Qed.

Section Euler.

Variables (B : nat) (z y x : tensor R).
Hypothesis Hz : size z = [B].
Hypothesis Hy : size y = [B].
Hypothesis Hx : size x = [B].
Hypothesis Wz : well_formed z.
Hypothesis Wy : well_formed y.
Hypothesis Wx : well_formed x.

Lemma rget_vec (f : R -> R) (t : tensor R) (n : nat) :
  size t = [B] -> well_formed t -> n < B -> rget (tmap f t) [n] = f (rget t [n]).
Proof.
  intros Hs Hw Hn. unfold rget.
  apply tget_tmap; [exact Hw|rewrite Hs; in_range_tac].
Qed.

(** The result of euler2mat: a [B,3,3] tensor whose batch element [n] is
    the product of the three elementary matrices at the angles of [n]. *)
Lemma euler2mat_entries :
  exists Rm,
    euler2mat z y x = Ok Rm
    /\ size Rm = [B; 3; 3]
    /\ forall n i j, n < B -> i < 3 -> j < 3 ->
         rget Rm [n; i; j]
         = mat_entry (mat_mul (mat_mul (Rx (rget x [n])) (Ry (rget y [n])))
                              (Rz (rget z [n]))) i j.
Proof.
  unfold euler2mat. rewrite Hz. cbn [size_at nth_error rbind].
  set (zeros := mul_scalar 0 z).
  set (ones1 := add_scalar zeros 1).
  assert (Hzeros : size zeros = [B]) by exact Hz.
  assert (Hones : size ones1 = [B]) by exact Hz.
  assert (Wzeros : well_formed zeros) by (apply well_formed_tmap; exact Wz).
  assert (Wones : well_formed ones1) by (apply well_formed_tmap; exact Wzeros).
  destruct (@stack9_view B (tcos z)
              [tneg (tsin z); zeros; tsin z; tcos z; zeros; zeros; zeros; ones1])
    as (zs & zmat & Ezs & Ez & Sz & _ & Gz);
    [reflexivity|exact Hz|repeat constructor; assumption|].
  destruct (@stack9_view B (tcos y)
              [zeros; tsin y; zeros; ones1; zeros; tneg (tsin y); zeros; tcos y])
    as (ys & ymat & Eys & Ey & Sy & _ & Gy);
    [reflexivity|exact Hy|repeat constructor; assumption|].
  destruct (@stack9_view B ones1
              [zeros; zeros; zeros; tcos x; tneg (tsin x); zeros; tsin x; tcos x])
    as (xs & xmat & Exs & Ex & Sx & _ & Gx);
    [reflexivity|exact Hones|repeat constructor; assumption|].
  rewrite Ezs. cbn [rbind]. rewrite Ez. cbn [rbind].
  rewrite Eys. cbn [rbind]. rewrite Ey. cbn [rbind].
  rewrite Exs. cbn [rbind]. rewrite Ex. cbn [rbind].
  destruct (@bmm_entries xmat ymat B 3 3 3 Sx Sy) as (xy & Exy & Sxy & _ & Gxy).
  rewrite Exy. cbn [rbind].
  destruct (@bmm_entries xy zmat B 3 3 3 Sxy Sz) as (Rm & ERm & SRm & _ & GRm).
  exists Rm. split; [exact ERm|]. split; [exact SRm|].
  intros n i j Hn Hi Hj.
  rewrite GRm, sum_n_3, !Gxy, !sum_n_3 by lia.
  assert (Ec : forall t, size t = [B] -> well_formed t ->
                         rget (tcos t) [n] = cos (rget t [n]))
    by (intros; apply rget_vec; assumption).
  assert (Es : forall t, size t = [B] -> well_formed t ->
                         rget (tsin t) [n] = sin (rget t [n]))
    by (intros; apply rget_vec; assumption).
  assert (En : forall t, size t = [B] -> well_formed t ->
                         rget (tneg (tsin t)) [n] = (- sin (rget t [n]))%R).
  { intros t Ht Wt. unfold tneg. rewrite rget_vec; try assumption.
    - rewrite Es by assumption. reflexivity.
    - apply well_formed_tmap; assumption. }
  assert (E0 : rget zeros [n] = (0 * rget z [n])%R)
    by (unfold zeros, mul_scalar; rewrite rget_vec by assumption; reflexivity).
  assert (E1 : rget ones1 [n] = (0 * rget z [n] + 1)%R)
    by (unfold ones1, add_scalar; rewrite rget_vec by assumption;
        rewrite E0; reflexivity).
  destruct (lt3_cases Hi) as [ -> | [ -> | -> ] ];
    destruct (lt3_cases Hj) as [ -> | [ -> | -> ] ];
    rewrite !Gx, !Gy, !Gz by lia;
    cbn [nth Nat.mul Nat.add];
    rewrite ?Ec, ?Es, ?En, ?E0, ?E1 by assumption;
    unfold mat_entry, mat_mul, mat_tabulate, Rx, Ry, Rz;
    cbn [map seq nth]; rewrite !sum_n_3; unfold mat_entry; cbn [nth].
    all: ring.
Qed.

End Euler.

Lemma mat_tabulate_ext (f g : nat -> nat -> R) :
  (forall i j, i < 3 -> j < 3 -> f i j = g i j) -> mat_tabulate f = mat_tabulate g.
Proof.
  intros H. unfold mat_tabulate. cbn [map seq].
  rewrite !H by lia. reflexivity.
Qed.

Lemma mat_mul_tabulate (a b : mat3) :
  mat_tabulate (mat_entry (mat_mul a b)) = mat_mul a b.
Proof. reflexivity. Qed.

Section Orthonormal.

Import NsatzTactic RNsatz.

(** Orthonormality of the composed rotation, as polynomial identities in
  the three cosines and sines. *)
Lemma rotation_orthonormal (tx ty tz : R) :
let M := mat_mul (mat_mul (Rx tx) (Ry ty)) (Rz tz) in
mat_mul M (mat_transpose M) = mat_identity.
Proof.
intros M. subst M.
pose proof (sin2_cos2 tx) as Hx.
pose proof (sin2_cos2 ty) as Hy.
pose proof (sin2_cos2 tz) as Hz.
unfold Rsqr in Hx, Hy, Hz.
unfold mat_mul, mat_transpose, mat_tabulate, mat_identity, Rx, Ry, Rz.
cbn [map seq]. unfold mat_entry, sum_n. cbn [map seq nth fold_right].
set (cx := cos tx) in *. set (sx := sin tx) in *.
set (cy := cos ty) in *. set (sy := sin ty) in *.
set (cz := cos tz) in *. set (sz := sin tz) in *.
repeat (f_equal; try nsatz).
Qed.

End Orthonormal.

(** C5: euler2mat returns, for every batch element, the matrix product
    Rx(x) . Ry(y) . Rz(z) of the three elementary rotation matrices of the
    specification, for angle vectors z, y, x of one length B. *)
Theorem euler2mat_is_Rx_Ry_Rz (B : nat) (z y x : tensor R) :
  size z = [B] -> size y = [B] -> size x = [B] ->
  well_formed z -> well_formed y -> well_formed x ->
  exists Rm,
    euler2mat z y x = Ok Rm
    /\ size Rm = [B; 3; 3]
    /\ forall n, n < B ->
         batch_mat Rm n
         = mat_mul (mat_mul (Rx (rget x [n])) (Ry (rget y [n]))) (Rz (rget z [n])).
Proof.
  intros Hz Hy Hx Wz Wy Wx.
  destruct (euler2mat_entries Hz Hy Hx Wz Wy Wx) as (Rm & E & S & G).
  exists Rm. split; [exact E|]. split; [exact S|].
  intros n Hn. rewrite <- mat_mul_tabulate. unfold batch_mat.
  apply mat_tabulate_ext. intros i j Hi Hj. apply G; assumption.
Qed.

Lemma euler2mat_is_Rx_Ry_Rz_witness :
  exists Rm,
    euler2mat (mkT [1] [PI]) (mkT [1] [0%R]) (mkT [1] [1%R]) = Ok Rm
    /\ size Rm = [1; 3; 3]
    /\ forall n, n < 1 ->
         batch_mat Rm n
         = mat_mul (mat_mul (Rx (rget (mkT [1] [1%R]) [n]))
                            (Ry (rget (mkT [1] [0%R]) [n])))
                   (Rz (rget (mkT [1] [PI]) [n])).
Proof.
  apply (@euler2mat_is_Rx_Ry_Rz 1 (mkT [1] [PI]) (mkT [1] [0%R]) (mkT [1] [1%R]));
    reflexivity.
Defined.

Lemma rget_tzeros (s idx : list nat) : in_range s idx -> rget (tzeros s) idx = 0%R.
Proof. intros H. unfold rget, tzeros. rewrite tget_tabulate by exact H. reflexivity. Qed.

(** C9: on all-zero angles euler2mat returns the identity matrix for every
    batch element, and for arbitrary real angles the returned matrix R of
    every batch element satisfies R . R^T = I, exactly over the reals. *)
Theorem euler2mat_identity_and_orthonormal :
  (forall B, exists Rm,
      euler2mat (tzeros [B]) (tzeros [B]) (tzeros [B]) = Ok Rm
      /\ size Rm = [B; 3; 3]
      /\ forall n, n < B -> batch_mat Rm n = mat_identity)
  /\
  (forall B z y x,
      size z = [B] -> size y = [B] -> size x = [B] ->
      well_formed z -> well_formed y -> well_formed x ->
      exists Rm,
        euler2mat z y x = Ok Rm
        /\ size Rm = [B; 3; 3]
        /\ forall n, n < B ->
             mat_mul (batch_mat Rm n) (mat_transpose (batch_mat Rm n)) = mat_identity).
Proof.
  split.
  - intros B.
    destruct (@euler2mat_entries B (tzeros [B]) (tzeros [B]) (tzeros [B]))
      as (Rm & E & S & G);
      try reflexivity; try apply well_formed_tabulate.
    exists Rm. split; [exact E|]. split; [exact S|].
    intros n Hn.
    assert (Hb : batch_mat Rm n
                 = mat_mul (mat_mul (Rx 0) (Ry 0)) (Rz 0)).
    { rewrite <- mat_mul_tabulate. unfold batch_mat.
      apply mat_tabulate_ext. intros i j Hi Hj.
      rewrite G by assumption.
      rewrite rget_tzeros by in_range_tac. reflexivity. }
    rewrite Hb.
    unfold mat_mul, mat_tabulate, mat_identity, Rx, Ry, Rz.
    cbn [map seq]. unfold mat_entry, sum_n. cbn [map seq nth fold_right].
    rewrite cos_0, sin_0.
    repeat (f_equal; try ring).
  - intros B z y x Hz Hy Hx Wz Wy Wx.
    destruct (euler2mat_entries Hz Hy Hx Wz Wy Wx) as (Rm & E & S & G).
    exists Rm. split; [exact E|]. split; [exact S|].
    intros n Hn.
    assert (Hb : batch_mat Rm n
                 = mat_mul (mat_mul (Rx (rget x [n])) (Ry (rget y [n])))
                           (Rz (rget z [n]))).
    { rewrite <- mat_mul_tabulate. unfold batch_mat.
      apply mat_tabulate_ext. intros i j Hi Hj. apply G; assumption. }
    rewrite Hb. apply rotation_orthonormal.
Qed.

Lemma euler2mat_identity_and_orthonormal_witness :
  exists Rm,
    euler2mat (mkT [1] [PI]) (mkT [1] [2%R]) (mkT [1] [1%R]) = Ok Rm
    /\ size Rm = [1; 3; 3]
    /\ forall n, n < 1 ->
         mat_mul (batch_mat Rm n) (mat_transpose (batch_mat Rm n)) = mat_identity.
Proof.
  apply (proj2 euler2mat_identity_and_orthonormal
           1 (mkT [1] [PI]) (mkT [1] [2%R]) (mkT [1] [1%R]));
    reflexivity.
Defined.

(** ** pose_vec2mat *)

Section Pose.

Variables (B : nat) (vec : tensor R).
Hypothesis Hvec : size vec = [B; 6].
Hypothesis Wvec : well_formed vec.

(** [vec[:, k]] for a column k of the pose vector. *)
Lemma select_column (k : nat) :
  k < 6 ->
  exists c,
    select 0%R vec 1 k = Ok c
    /\ size c = [B]
    /\ well_formed c
    /\ forall n, n < B -> rget c [n] = rget vec [n; k].
Proof.
  intros Hk. unfold select. rewrite Hvec. cbn [nth_error].
  apply Nat.ltb_lt in Hk. rewrite Hk.
  eexists. split; [reflexivity|]. split; [reflexivity|].
  split; [apply well_formed_tabulate|].
  intros n Hn. unfold rget at 1.
  cbn [remove_at firstn skipn app].
  rewrite tget_tabulate by in_range_tac. reflexivity.
Qed.

(** [vec[:, :3].unsqueeze(-1)]: the translation column, [B,3,1]. *)
Lemma translation_column :
  exists t3 tr,
    slice 0%R vec 1 0 (Some 3) = Ok t3
    /\ unsqueeze t3 (length (size t3)) = Ok tr
    /\ size tr = [B; 3; 1]
    /\ forall n i, n < B -> i < 3 -> rget tr [n; i; 0] = rget vec [n; i].
Proof.
  unfold slice. rewrite Hvec.
  cbn [nth_error firstn skipn app Nat.min Nat.max Nat.sub].
  eexists. eexists. split; [reflexivity|].
  unfold unsqueeze. cbn [size tabulate length Nat.leb insert_at firstn skipn app].
  split; [reflexivity|]. split; [reflexivity|].
  intros n i Hn Hi. unfold rget at 1.
  rewrite (@tget_view _ 0%R (tabulate [B; 3] _) [B; 3; 1] [n; i; 0] [n; i])
    by (cbn [size tabulate ravel numel fold_right]; lia).
  rewrite tget_tabulate by in_range_tac.
  cbn [firstn skipn app nth]. rewrite Nat.add_0_r. reflexivity.
Qed.

(** [torch.cat([rot_mat, translation], dim=2)]. *)
Lemma cat_rot_translation (a b : tensor R) :
  size a = [B; 3; 3] -> size b = [B; 3; 1] ->
  exists T,
    cat2 0%R a b 2 = Ok T
    /\ size T = [B; 3; 4]
    /\ well_formed T
    /\ forall n i, n < B -> i < 3 ->
         (forall j, j < 3 -> rget T [n; i; j] = rget a [n; i; j])
         /\ rget T [n; i; 3] = rget b [n; i; 0].
Proof.
  intros Ha Hb. unfold cat2. rewrite Ha, Hb.
  cbn [nth_error remove_at firstn skipn app].
  rewrite list_eqb_refl.
  eexists. split; [reflexivity|]. split; [reflexivity|].
  split; [apply well_formed_tabulate|].
  intros n i Hn Hi. split.
  - intros j Hj. unfold rget at 1.
    rewrite tget_tabulate by (cbn [Nat.add]; in_range_tac).
    cbn [nth]. apply Nat.ltb_lt in Hj. rewrite Hj. reflexivity.
  - unfold rget at 1.
    rewrite tget_tabulate by (cbn [Nat.add]; in_range_tac).
    reflexivity.
Qed.

End Pose.

(** C6: pose_vec2mat takes the translation from columns 0..2 and the angles
    rx, ry, rz from columns 3, 4, 5 of a [B,6] pose vector, calls euler2mat
    with (rz, ry, rx) in this order, and returns the [B,3,4] tensor [R | t]:
    columns 0..2 hold the rotation matrix, column 3 the translation. *)
Theorem pose_vec2mat_is_R_t (B : nat) (vec : tensor R) :
  size vec = [B; 6] -> well_formed vec ->
  exists rx ry rz Rm T,
    select 0%R vec 1 3 = Ok rx
    /\ select 0%R vec 1 4 = Ok ry
    /\ select 0%R vec 1 5 = Ok rz
    /\ (forall n, n < B ->
          rget rx [n] = rget vec [n; 3]
          /\ rget ry [n] = rget vec [n; 4]
          /\ rget rz [n] = rget vec [n; 5])
    /\ euler2mat rz ry rx = Ok Rm
    /\ pose_vec2mat vec = Ok T
    /\ size T = [B; 3; 4]
    /\ forall n i, n < B -> i < 3 ->
         (forall j, j < 3 -> rget T [n; i; j] = rget Rm [n; i; j])
         /\ rget T [n; i; 3] = rget vec [n; i].
Proof.
  intros Hvec Wvec.
  destruct (@select_column B vec Hvec 3) as (rx & Erx & Srx & Wrx & Grx); [lia|].
  destruct (@select_column B vec Hvec 4) as (ry & Ery & Sry & Wry & Gry); [lia|].
  destruct (@select_column B vec Hvec 5) as (rz & Erz & Srz & Wrz & Grz); [lia|].
  destruct (@translation_column B vec Hvec) as (t3 & tr & Et3 & Etr & Str & Gtr).
  destruct (euler2mat_entries Srz Sry Srx Wrz Wry Wrx) as (Rm & ERm & SRm & _).
  destruct (@cat_rot_translation B Rm tr SRm Str) as (T & ET & ST & _ & GT).
  exists rx, ry, rz, Rm, T.
  split; [exact Erx|]. split; [exact Ery|]. split; [exact Erz|].
  split; [intros n Hn; auto|].
  split; [exact ERm|].
  split.
  { unfold pose_vec2mat. rewrite Et3. cbn [rbind]. rewrite Etr. cbn [rbind].
    rewrite Erx. cbn [rbind]. rewrite Ery. cbn [rbind]. rewrite Erz. cbn [rbind].
    rewrite ERm. cbn [rbind]. exact ET. }
  split; [exact ST|].
  intros n i Hn Hi. destruct (GT n i Hn Hi) as [G1 G2]. split.
  - exact G1.
  - rewrite G2. apply Gtr; assumption.
Qed.

Lemma pose_vec2mat_is_R_t_witness :
  exists rx ry rz Rm T,
    select 0%R (tzeros [1; 6]) 1 3 = Ok rx
    /\ select 0%R (tzeros [1; 6]) 1 4 = Ok ry
    /\ select 0%R (tzeros [1; 6]) 1 5 = Ok rz
    /\ (forall n, n < 1 ->
          rget rx [n] = rget (tzeros [1; 6]) [n; 3]
          /\ rget ry [n] = rget (tzeros [1; 6]) [n; 4]
          /\ rget rz [n] = rget (tzeros [1; 6]) [n; 5])
    /\ euler2mat rz ry rx = Ok Rm
    /\ pose_vec2mat (tzeros [1; 6]) = Ok T
    /\ size T = [1; 3; 4]
    /\ forall n i, n < 1 -> i < 3 ->
         (forall j, j < 3 -> rget T [n; i; j] = rget Rm [n; i; j])
         /\ rget T [n; i; 3] = rget (tzeros [1; 6]) [n; i].
Proof.
  apply (@pose_vec2mat_is_R_t 1 (tzeros [1; 6])); reflexivity.
Defined.

(** ** cam2pixel *)

Lemma view_infer_ok {A} (t : tensor A) (pre : list nat) (q : nat) :
  0 < numel pre -> numel (size t) = numel pre * q ->
  view_infer t pre = Ok (mkT (pre ++ [q]) (data t)).
Proof.
  intros Hp Hn. unfold view_infer. rewrite Hn.
  rewrite Nat.mul_comm, Nat.Div0.mod_mul, Nat.div_mul by lia.
  apply Nat.ltb_lt in Hp. rewrite Hp. reflexivity.
Qed.

Lemma ravel_flat (b c h w n k i j : nat) :
  ravel [b; c; h * w] [n; k; i * w + j] = ravel [b; c; h; w] [n; k; i; j].
Proof. cbn [ravel numel fold_right]. ring. Qed.

(** The clamped depth is never a zero divisor: the quotient of lines 58
    and 61 is finite, and so is the normalised coordinate unless the integer
    divisor [m - 1] is zero. *)
Lemma fdiv_clamped (C Z : R) :
  fdiv C (Rmax Z (1 / 1000)) = Fin (C / Rmax Z (1 / 1000)).
Proof.
  unfold fdiv. pose proof (Rmax_r Z (1 / 1000)) as Hge.
  destruct (Req_dec_T (Rmax Z (1 / 1000)) 0) as [E|_]; [lra|reflexivity].
Qed.

Lemma fnorm_coord_finite (C Z : R) (m : nat) :
  m <> 1 -> fnorm_coord C Z m = Fin (norm_coord C Z m).
Proof.
  intros Hm. unfold fnorm_coord, norm_coord, fdiv.
  pose proof (Rmax_r Z (1 / 1000)) as Hge.
  destruct (Req_dec_T (Rmax Z (1 / 1000)) 0) as [E|_]; [lra|].
  cbn [fmul fdiv_int].
  destruct (Z.eqb_spec (Z.of_nat m - 1) 0) as [E|_]; [lia|].
  reflexivity.
Qed.

(** With [m = 1] the integer divisor is zero: the result is an infinity of
    the sign of the numerator [2 * (C / Z)], or a nan when it is zero. *)
Lemma fnorm_coord_one (C Z : R) :
  fnorm_coord C Z 1 = over_zero (2 * (C / Rmax Z (1 / 1000))).
Proof.
  unfold fnorm_coord, fdiv.
  pose proof (Rmax_r Z (1 / 1000)) as Hge.
  destruct (Req_dec_T (Rmax Z (1 / 1000)) 0) as [E|_]; [lra|].
  cbn [fmul fdiv_int]. change (Z.of_nat 1 - 1)%Z with 0%Z. cbn [Z.eqb].
  unfold over_zero.
  destruct (Rlt_dec 0 (2 * (C / Rmax Z (1 / 1000)))); [reflexivity|].
  destruct (Rlt_dec (2 * (C / Rmax Z (1 / 1000))) 0); reflexivity.
Qed.

Lemma fmask_fin (r : R) : fmask (Fin r) = Fin (mask_value r).
Proof.
  unfold fmask, mask_value. cbn [fgt flt].
  destruct (Rlt_bool 1 r || Rlt_bool r (-1)); reflexivity.
Qed.

(** An infinity is masked to 2; a nan passes the two comparisons. *)
Lemma fmask_over_zero (C : R) :
  fmask (over_zero C) = if Req_dec_T C 0 then NaN else Fin 2.
Proof.
  unfold over_zero, fmask.
  destruct (Rlt_dec 0 C) as [H1|H1]; [|destruct (Rlt_dec C 0) as [H2|H2]];
    destruct (Req_dec_T C 0) as [E|E]; try reflexivity; exfalso; lra.
Qed.

(** Lines 58 and 61 before the masking, entry by entry. *)
Lemma normalize_entries (s : list nat) (C Zc : tensor R) (m : nat) :
  size C = s -> size Zc = s ->
  exists r,
    normalize C Zc m = Ok r
    /\ size r = s
    /\ well_formed r
    /\ forall idx, in_range s idx ->
         fget r idx
         = fsub (fdiv_int (fmul 2 (fdiv (rget C idx) (rget Zc idx)))
                          (Z.of_nat m - 1)) 1.
Proof.
  intros HC HZ. unfold normalize, tdiv.
  rewrite HC, HZ, broadcast_shape_same. cbn [rbind].
  eexists. split; [reflexivity|]. split; [reflexivity|].
  split; [repeat apply well_formed_tmap; apply well_formed_tabulate|].
  intros idx Hidx. unfold fget, fsub_scalar, div_int, fmul_scalar.
  rewrite (@tget_tmap _ _ _ NaN NaN)
    by (repeat apply well_formed_tmap; try apply well_formed_tabulate; exact Hidx).
  rewrite (@tget_tmap _ _ _ NaN NaN)
    by (repeat apply well_formed_tmap; try apply well_formed_tabulate; exact Hidx).
  rewrite (@tget_tmap _ _ _ NaN NaN)
    by (try apply well_formed_tabulate; exact Hidx).
  rewrite tget_tabulate by exact Hidx.
  rewrite !bidx_same by exact Hidx. reflexivity.
Qed.

(** [C / Z] returns for every pair of tensors of one size, and is finite
    wherever the divisor is not zero. *)
Lemma tdiv_ok (s : list nat) (C Zc : tensor R) :
  size C = s -> size Zc = s ->
  exists q,
    tdiv C Zc = Ok q /\ size q = s /\ well_formed q
    /\ forall idx, in_range s idx -> rget Zc idx <> 0%R ->
         fget q idx = Fin (rget C idx / rget Zc idx).
Proof.
  intros HC HZ. unfold tdiv.
  rewrite HC, HZ, broadcast_shape_same.
  eexists. split; [reflexivity|]. split; [reflexivity|].
  split; [apply well_formed_tabulate|].
  intros idx Hidx Hnz. unfold fget. rewrite tget_tabulate by exact Hidx.
  rewrite !bidx_same by exact Hidx. unfold fdiv.
  destruct (Req_dec_T (rget Zc idx) 0); [contradiction|reflexivity].
Qed.

(** Lines 59-60 and 62-63, entry by entry. *)
Lemma mask_out_entries (t : tensor fval) :
  well_formed t ->
  exists r,
    mask_out t = Ok r
    /\ size r = size t
    /\ well_formed r
    /\ forall idx, in_range (size t) idx -> fget r idx = fmask (fget t idx).
Proof.
  intros Wt. unfold mask_out, mask_add, gt_scalar, lt_scalar.
  cbn [size data tmap]. rewrite list_eqb_refl. cbn [rbind].
  unfold masked_assign. cbn [size data]. rewrite list_eqb_refl.
  assert (Hl : length (map2 orb (map (fun v => fgt v 1) (data t))
                                (map (fun v => flt v (-1)) (data t)))
               = length (data t))
    by (rewrite map2_length; rewrite !length_map; reflexivity).
  eexists. split; [reflexivity|]. split; [reflexivity|]. split.
  - unfold well_formed. cbn [size data]. rewrite map2_length; auto.
  - intros idx Hidx. unfold fget, tget. cbn [size data].
    pose proof (ravel_lt Hidx) as Hk. rewrite <- Wt in Hk.
    rewrite (@map2_nth _ _ _ _ _ _ _ NaN false NaN) by (auto; lia).
    rewrite (@map2_nth _ _ _ _ _ _ _ (fgt NaN 1) (flt NaN (-1)) false);
      [|rewrite !length_map; reflexivity|rewrite length_map; exact Hk].
    rewrite (map_nth (fun v => fgt v 1)), (map_nth (fun v => flt v (-1))).
    reflexivity.
Qed.

(** Lines 65-66: the two coordinate planes stacked and viewed as [B,H,W,2]. *)
Lemma stack_xy_entries (b h w : nat) (X Y : tensor fval) :
  size X = [b; h * w] -> size Y = [b; h * w] ->
  exists pix out,
    stack NaN [X; Y] 2 = Ok pix
    /\ view pix [b; h; w; 2] = Ok out
    /\ size out = [b; h; w; 2]
    /\ forall n i j, n < b -> i < h -> j < w ->
         fget out [n; i; j; 0] = fget X [n; i * w + j]
         /\ fget out [n; i; j; 1] = fget Y [n; i * w + j].
Proof.
  intros HX HY.
  rewrite stack_ok;
    [|repeat constructor; rewrite HY, HX; reflexivity|rewrite HX; cbn [length]; lia].
  rewrite HX. cbn [insert_at firstn skipn app length].
  eexists. eexists. split; [reflexivity|].
  rewrite view_ok by (cbn [size tabulate numel fold_right]; ring).
  split; [reflexivity|]. split; [reflexivity|].
  intros n i j Hn Hi Hj.
  assert (Hp : i * w + j < h * w) by nia.
  split; unfold fget.
  - rewrite (@tget_view _ NaN (tabulate [b; h * w; 2] _) [b; h; w; 2]
               [n; i; j; 0] [n; i * w + j; 0])
      by (cbn [size tabulate ravel numel fold_right]; ring).
    rewrite tget_tabulate by in_range_tac. reflexivity.
  - rewrite (@tget_view _ NaN (tabulate [b; h * w; 2] _) [b; h; w; 2]
               [n; i; j; 1] [n; i * w + j; 1])
      by (cbn [size tabulate ravel numel fold_right]; ring).
    rewrite tget_tabulate by in_range_tac. reflexivity.
Qed.

Section Cam2Pixel.

Variables (b h w : nat) (cam P : tensor R).
Hypothesis Hb : 0 < b.
Hypothesis Hcam : size cam = [b; 3; h; w].
Hypothesis HP : size P = [b; 3; 4].

Lemma pcoords_entries :
  exists pc,
    pcoords_of cam P = Ok pc
    /\ size pc = [b; 3; h * w]
    /\ well_formed pc
    /\ forall n c i j, n < b -> c < 3 -> i < h -> j < w ->
         rget pc [n; c; i * w + j] = proj_coord cam P n c i j.
Proof.
  unfold pcoords_of. rewrite Hcam. cbn [unpack4 rbind].
  rewrite (@view_infer_ok _ cam [b; 3] (h * w))
    by (rewrite ?Hcam; cbn [numel fold_right]; lia).
  cbn [rbind app].
  unfold slice at 1. rewrite HP.
  cbn [nth_error firstn skipn app Nat.min Nat.max Nat.sub rbind].
  set (p1 := tabulate [b; 3; 3] _).
  set (flat := mkT [b; 3; h * w] (data cam)).
  destruct (@bmm_entries p1 flat b 3 3 (h * w) eq_refl eq_refl)
    as (rot & Erot & Srot & Wrot & Grot).
  rewrite Erot. cbn [rbind].
  unfold slice. rewrite HP.
  cbn [nth_error firstn skipn app Nat.min Nat.max Nat.sub rbind].
  set (tr := tabulate [b; 3; 1] _).
  unfold tadd, binop. rewrite Srot.
  change (size tr) with [b; 3; 1].
  rewrite broadcast_shape_last1.
  eexists. split; [reflexivity|]. split; [reflexivity|].
  split; [apply well_formed_tabulate|].
  intros n c i j Hn Hc Hi Hj.
  assert (Hp : i * w + j < h * w) by nia.
  unfold rget at 1. rewrite tget_tabulate by in_range_tac.
  rewrite bidx_same by in_range_tac.
  rewrite bidx_last1 by lia.
  rewrite Grot by lia.
  unfold proj_coord. f_equal.
  - unfold sum_n. cbn [seq map fold_right].
    unfold p1, flat, rget.
    rewrite !tget_tabulate by in_range_tac.
    cbn [firstn skipn app nth]. rewrite !Nat.add_0_r.
    rewrite !(@tget_view _ 0%R cam [b; 3; h * w] [n; _; i * w + j] [n; _; i; j])
      by (rewrite Hcam; apply ravel_flat).
    reflexivity.
  - unfold tr, rget. rewrite tget_tabulate by in_range_tac.
    reflexivity.
Qed.

Lemma in_range_2 (a c : nat) (idx : list nat) :
  in_range [a; c] idx -> exists n p, idx = [n; p] /\ n < a /\ p < c.
Proof.
  unfold in_range. intros H.
  inversion H as [|n a' idx1 s1 Hn H1]; subst.
  inversion H1 as [|p c' idx2 s2 Hp H2]; subst.
  inversion H2; subst. eauto.
Qed.

(** [pcoords[:, k]] *)
Lemma select_channel (pc : tensor R) (N k : nat) :
  size pc = [b; 3; N] -> k < 3 ->
  exists c,
    select 0%R pc 1 k = Ok c
    /\ size c = [b; N]
    /\ well_formed c
    /\ forall n p, n < b -> p < N -> rget c [n; p] = rget pc [n; k; p].
Proof.
  intros Hpc Hk. unfold select. rewrite Hpc. cbn [nth_error].
  apply Nat.ltb_lt in Hk. rewrite Hk.
  cbn [remove_at firstn skipn app].
  eexists. split; [reflexivity|]. split; [reflexivity|].
  split; [apply well_formed_tabulate|].
  intros n p Hn Hp. unfold rget at 1.
  rewrite tget_tabulate by in_range_tac. reflexivity.
Qed.

(** Lines 51-56: the three channels and the clamped depth. *)
Lemma cam2pixel_front :
  exists pc X Y Zc,
    pcoords_of cam P = Ok pc
    /\ select 0%R pc 1 0 = Ok X
    /\ select 0%R pc 1 1 = Ok Y
    /\ clamped_Z pc = Ok Zc
    /\ (size X = [b; h * w] /\ size Y = [b; h * w] /\ size Zc = [b; h * w])
    /\ (well_formed X /\ well_formed Y /\ well_formed Zc)
    /\ (forall idx, in_range [b; h * w] idx -> (1 / 1000 <= rget Zc idx)%R)
    /\ forall n i j, n < b -> i < h -> j < w ->
         rget X [n; i * w + j] = proj_coord cam P n 0 i j
         /\ rget Y [n; i * w + j] = proj_coord cam P n 1 i j
         /\ rget Zc [n; i * w + j] = Rmax (proj_coord cam P n 2 i j) (1 / 1000).
Proof.
  destruct pcoords_entries as (pc & Epc & Spc & Wpc & Gpc).
  destruct (@select_channel pc (h * w) 0 Spc) as (X & EX & SX & WX & GX); [lia|].
  destruct (@select_channel pc (h * w) 1 Spc) as (Y & EY & SY & WY & GY); [lia|].
  destruct (@select_channel pc (h * w) 2 Spc) as (Z0 & EZ0 & SZ0 & WZ0 & GZ0); [lia|].
  set (Zc := clamp_min Z0 (1 / 1000)).
  assert (EZc : clamped_Z pc = Ok Zc)
    by (unfold clamped_Z; rewrite EZ0; reflexivity).
  assert (SZc : size Zc = [b; h * w]) by exact SZ0.
  assert (WZc : well_formed Zc) by (apply well_formed_tmap; exact WZ0).
  assert (GZc : forall n p, n < b -> p < h * w ->
                  rget Zc [n; p] = Rmax (rget pc [n; 2; p]) (1 / 1000)).
  { intros n p Hn Hp. unfold Zc, clamp_min, rget.
    rewrite (@tget_tmap _ _ _ 0%R 0%R) by (auto; rewrite SZ0; in_range_tac).
    fold (rget Z0 [n; p]). rewrite GZ0 by assumption. reflexivity. }
  exists pc, X, Y, Zc.
  split; [exact Epc|]. split; [exact EX|]. split; [exact EY|].
  split; [exact EZc|]. split; [auto|]. split; [auto|]. split.
  - intros idx Hidx. apply in_range_2 in Hidx as (n & p & -> & Hn & Hp).
    rewrite GZc by assumption. apply Rmax_r.
  - intros n i j Hn Hi Hj.
    assert (Hp : i * w + j < h * w) by nia.
    rewrite GX, GY, GZc, !Gpc by (assumption || lia).
    repeat split; reflexivity.
Qed.

(** Every step of cam2pixel on a [B,3,H,W] input, entry by entry: the call
    returns for every height and width. *)
Lemma cam2pixel_steps :
  exists pc X Y Zc Xn Yn out,
    pcoords_of cam P = Ok pc
    /\ select 0%R pc 1 0 = Ok X
    /\ select 0%R pc 1 1 = Ok Y
    /\ clamped_Z pc = Ok Zc
    /\ normalize X Zc w = Ok Xn
    /\ normalize Y Zc h = Ok Yn
    /\ cam2pixel cam P = Ok out
    /\ size out = [b; h; w; 2]
    /\ (size X = [b; h * w] /\ size Y = [b; h * w] /\ size Zc = [b; h * w])
    /\ forall n i j, n < b -> i < h -> j < w ->
         rget X [n; i * w + j] = proj_coord cam P n 0 i j
         /\ rget Y [n; i * w + j] = proj_coord cam P n 1 i j
         /\ rget Zc [n; i * w + j] = Rmax (proj_coord cam P n 2 i j) (1 / 1000)
         /\ fget Xn [n; i * w + j]
            = fnorm_coord (proj_coord cam P n 0 i j) (proj_coord cam P n 2 i j) w
         /\ fget Yn [n; i * w + j]
            = fnorm_coord (proj_coord cam P n 1 i j) (proj_coord cam P n 2 i j) h
         /\ fget out [n; i; j; 0] = fmask (fget Xn [n; i * w + j])
         /\ fget out [n; i; j; 1] = fmask (fget Yn [n; i * w + j]).
Proof.
  destruct cam2pixel_front
    as (pc & X & Y & Zc & Epc & EX & EY & EZc & (SX & SY & SZc)
        & (WX & WY & WZc) & Hge & Gf).
  destruct (@normalize_entries [b; h * w] X Zc w SX SZc)
    as (Xn & EXn & SXn & WXn & GXn).
  destruct (@normalize_entries [b; h * w] Y Zc h SY SZc)
    as (Yn & EYn & SYn & WYn & GYn).
  destruct (mask_out_entries WXn) as (Xm & EXm & SXm & WXm & GXm).
  destruct (mask_out_entries WYn) as (Ym & EYm & SYm & WYm & GYm).
  rewrite SXn in SXm, GXm. rewrite SYn in SYm, GYm.
  destruct (@stack_xy_entries b h w Xm Ym SXm SYm)
    as (pix & out & Epix & Eout & Sout & Gout).
  exists pc, X, Y, Zc, Xn, Yn, out.
  split; [exact Epc|]. split; [exact EX|]. split; [exact EY|].
  split; [exact EZc|]. split; [exact EXn|]. split; [exact EYn|].
  split.
  { unfold cam2pixel. rewrite Hcam. cbn [unpack4 rbind].
    rewrite Epc. cbn [rbind]. rewrite EX. cbn [rbind]. rewrite EY. cbn [rbind].
    rewrite EZc. cbn [rbind]. rewrite EXn. cbn [rbind]. rewrite EXm. cbn [rbind].
    rewrite EYn. cbn [rbind]. rewrite EYm. cbn [rbind].
    rewrite Epix. cbn [rbind]. exact Eout. }
  split; [exact Sout|]. split; [auto|].
  intros n i j Hn Hi Hj.
  assert (Hp : i * w + j < h * w) by nia.
  assert (Hidx : in_range [b; h * w] [n; i * w + j]) by in_range_tac.
  destruct (Gout n i j Hn Hi Hj) as [Go0 Go1].
  destruct (Gf n i j Hn Hi Hj) as (GX & GY & GZ).
  rewrite Go0, Go1, GXm, GYm, GXn, GYn, GX, GY, GZ by assumption.
  unfold fnorm_coord. repeat split; reflexivity.
Qed.

Hypothesis Hw : w <> 1.
Hypothesis Hh : h <> 1.

(** With more than one row and one column every value is finite. *)
Lemma cam2pixel_entries :
  exists pc X Y Zc Xn Yn out,
    pcoords_of cam P = Ok pc
    /\ select 0%R pc 1 0 = Ok X
    /\ select 0%R pc 1 1 = Ok Y
    /\ clamped_Z pc = Ok Zc
    /\ normalize X Zc w = Ok Xn
    /\ normalize Y Zc h = Ok Yn
    /\ cam2pixel cam P = Ok out
    /\ size out = [b; h; w; 2]
    /\ forall n i j, n < b -> i < h -> j < w ->
         rget X [n; i * w + j] = proj_coord cam P n 0 i j
         /\ rget Y [n; i * w + j] = proj_coord cam P n 1 i j
         /\ rget Zc [n; i * w + j] = Rmax (proj_coord cam P n 2 i j) (1 / 1000)
         /\ fget Xn [n; i * w + j]
            = Fin (norm_coord (proj_coord cam P n 0 i j) (proj_coord cam P n 2 i j) w)
         /\ fget Yn [n; i * w + j]
            = Fin (norm_coord (proj_coord cam P n 1 i j) (proj_coord cam P n 2 i j) h)
         /\ fget out [n; i; j; 0]
            = Fin (mask_value (norm_coord (proj_coord cam P n 0 i j)
                                          (proj_coord cam P n 2 i j) w))
         /\ fget out [n; i; j; 1]
            = Fin (mask_value (norm_coord (proj_coord cam P n 1 i j)
                                          (proj_coord cam P n 2 i j) h)).
Proof.
  destruct cam2pixel_steps
    as (pc & X & Y & Zc & Xn & Yn & out & Epc & EX & EY & EZc & EXn & EYn
        & Eout & Sout & _ & G).
  exists pc, X, Y, Zc, Xn, Yn, out.
  repeat (split; [assumption|]).
  intros n i j Hn Hi Hj.
  destruct (G n i j Hn Hi Hj) as (GX & GY & GZ & GXn & GYn & Go0 & Go1).
  rewrite Go0, Go1, GXn, GYn, !fnorm_coord_finite, !fmask_fin by assumption.
  repeat split; assumption.
Qed.

End Cam2Pixel.

Lemma mask_value_outside (v : R) : (1 < v \/ v < -1)%R -> mask_value v = 2%R.
Proof.
  intros H. unfold mask_value, Rlt_bool.
  destruct (Rlt_dec 1 v); [reflexivity|].
  destruct (Rlt_dec v (-1)); [reflexivity|]. lra.
Qed.

Lemma mask_value_inside (v : R) : (-1 <= v <= 1)%R -> mask_value v = v.
Proof.
  intros H. unfold mask_value, Rlt_bool.
  destruct (Rlt_dec 1 v); [lra|].
  destruct (Rlt_dec v (-1)); [lra|]. reflexivity.
Qed.

(** C3: in cam2pixel, every normalised X coordinate strictly outside
    [-1, 1] is overwritten with 2, and independently every normalised Y
    coordinate strictly outside [-1, 1] is overwritten with 2; an entry
    whose normalised value lies in [-1, 1] keeps it, whatever happens to the
    other entries.  Stated for a [B,3,H,W] input with B > 0 and W, H other
    than 1, where the normalised coordinates are finite. *)
Theorem cam2pixel_masks_out_of_range (b h w : nat) (cam P : tensor R) :
  0 < b -> size cam = [b; 3; h; w] -> size P = [b; 3; 4] ->
  w <> 1 -> h <> 1 ->
  exists pc X Y Zc Xn Yn out,
    pcoords_of cam P = Ok pc
    /\ select 0%R pc 1 0 = Ok X
    /\ select 0%R pc 1 1 = Ok Y
    /\ clamped_Z pc = Ok Zc
    /\ normalize X Zc w = Ok Xn
    /\ normalize Y Zc h = Ok Yn
    /\ cam2pixel cam P = Ok out
    /\ size out = [b; h; w; 2]
    /\ forall n i j, n < b -> i < h -> j < w ->
         let xn := norm_coord (proj_coord cam P n 0 i j) (proj_coord cam P n 2 i j) w in
         let yn := norm_coord (proj_coord cam P n 1 i j) (proj_coord cam P n 2 i j) h in
         fget Xn [n; i * w + j] = Fin xn
         /\ fget Yn [n; i * w + j] = Fin yn
         /\ ((1 < xn \/ xn < -1)%R -> fget out [n; i; j; 0] = Fin 2)
         /\ ((-1 <= xn <= 1)%R -> fget out [n; i; j; 0] = Fin xn)
         /\ ((1 < yn \/ yn < -1)%R -> fget out [n; i; j; 1] = Fin 2)
         /\ ((-1 <= yn <= 1)%R -> fget out [n; i; j; 1] = Fin yn).
Proof.
  intros Hb Hcam HP Hw Hh.
  destruct (@cam2pixel_entries b h w cam P Hb Hcam HP Hw Hh)
    as (pc & X & Y & Zc & Xn & Yn & out & Epc & EX & EY & EZc & EXn & EYn
        & Eout & Sout & G).
  exists pc, X, Y, Zc, Xn, Yn, out.
  repeat (split; [assumption|]).
  intros n i j Hn Hi Hj xn yn.
  destruct (G n i j Hn Hi Hj) as (_ & _ & _ & GXn & GYn & Go0 & Go1).
  fold xn in GXn, Go0. fold yn in GYn, Go1.
  split; [exact GXn|]. split; [exact GYn|].
  rewrite Go0, Go1.
  split; [intros H; f_equal; apply mask_value_outside, H|].
  split; [intros H; f_equal; apply mask_value_inside, H|].
  split; [intros H; f_equal; apply mask_value_outside, H
         |intros H; f_equal; apply mask_value_inside, H].
Qed.

Ltac eval_entries :=
  unfold norm_coord, proj_coord, sum_n, rget, tget;
  cbn [cam_sample cam_behind cam_one_column proj_id size data
       ravel numel fold_right map seq nth Nat.mul Nat.add Z.of_nat Z.sub
       Pos.of_succ_nat Pos.succ Z.add Z.opp Z.pos_sub Pos.pred_double].

Lemma cam2pixel_masks_out_of_range_witness :
  exists out,
    cam2pixel cam_sample proj_id = Ok out
    /\ fget out [0; 0; 0; 0] = Fin 2
    /\ fget out [0; 0; 0; 1] = Fin (-1)
    /\ fget out [0; 0; 1; 0] = Fin 0.
Proof.
  destruct (@cam2pixel_masks_out_of_range 1 2 3 cam_sample proj_id)
    as (pc & X & Y & Zc & Xn & Yn & out & _ & _ & _ & _ & _ & _ & Eout & _ & G);
    [lia|reflexivity|reflexivity|lia|lia|].
  exists out. split; [exact Eout|].
  destruct (G 0 0 0) as (_ & _ & Hxo & _ & _ & Hyi); [lia|lia|lia|].
  destruct (G 0 0 1) as (_ & _ & _ & Hxi & _ & _); [lia|lia|lia|].
  assert (Ex0 : norm_coord (proj_coord cam_sample proj_id 0 0 0 0)
                           (proj_coord cam_sample proj_id 0 2 0 0) 3 = (3 / 2)%R).
  { eval_entries.
    replace (0 * (5 / 2) + (0 * 0 + (1 * 1 + 0)) + 0)%R with 1%R by lra.
    rewrite Rmax_left by lra. lra. }
  assert (Ey0 : norm_coord (proj_coord cam_sample proj_id 0 1 0 0)
                           (proj_coord cam_sample proj_id 0 2 0 0) 2 = (-1)%R).
  { eval_entries.
    replace (0 * (5 / 2) + (0 * 0 + (1 * 1 + 0)) + 0)%R with 1%R by lra.
    rewrite Rmax_left by lra. lra. }
  assert (Ex1 : norm_coord (proj_coord cam_sample proj_id 0 0 0 1)
                           (proj_coord cam_sample proj_id 0 2 0 1) 3 = 0%R).
  { eval_entries.
    replace (0 * 1 + (0 * 0 + (1 * 1 + 0)) + 0)%R with 1%R by lra.
    rewrite Rmax_left by lra. lra. }
  rewrite Ex0 in Hxo. rewrite Ey0 in Hyi. rewrite Ex1 in Hxi.
  split; [apply Hxo; lra|].
  split; [apply Hyi; lra|apply Hxi; lra].
Defined.

(** C4: cam2pixel clamps the depth channel Z to at least 1e-3 before it
    divides by it.  For every [B,3,H,W] input with B > 0 (any H and W)
    cam2pixel returns; the divisor of X / Z and Y / Z at a pixel is
    max(Z, 1/1000), which is at least 1/1000, so both quotients are the
    finite numbers X / max(Z, 1/1000) and Y / max(Z, 1/1000); the output of
    cam2pixel is the masked normalisation of these quotients (a finite
    number when W, resp. H, is not 1); and a pixel
    whose Z is at most 1/1000 (for instance -5) gets exactly the output
    computed with the divisor 1/1000, which is also the output of any input
    that has the same X and Y and Z = 1/1000 at that pixel.  The values are
    those of the source's expressions over the reals. *)
Theorem cam2pixel_depth_clamp (b h w : nat) (cam P : tensor R) :
  0 < b ->
  size cam = [b; 3; h; w] -> size P = [b; 3; 4] ->
  exists pc X Y Zc qx qy out,
    pcoords_of cam P = Ok pc
    /\ select 0%R pc 1 0 = Ok X
    /\ select 0%R pc 1 1 = Ok Y
    /\ clamped_Z pc = Ok Zc
    /\ tdiv X Zc = Ok qx
    /\ tdiv Y Zc = Ok qy
    /\ cam2pixel cam P = Ok out
    /\ (forall n i j, n < b -> i < h -> j < w ->
          let x := proj_coord cam P n 0 i j in
          let y := proj_coord cam P n 1 i j in
          let z := proj_coord cam P n 2 i j in
          rget Zc [n; i * w + j] = Rmax z (1 / 1000)
          /\ (1 / 1000 <= rget Zc [n; (i * w + j)%nat])%R
          /\ fget qx [n; i * w + j] = Fin (x / Rmax z (1 / 1000))
          /\ fget qy [n; i * w + j] = Fin (y / Rmax z (1 / 1000))
          /\ fget out [n; i; j; 0]
             = fmask (fsub (fdiv_int (fmul 2 (Fin (x / Rmax z (1 / 1000))))
                                     (Z.of_nat w - 1)) 1)
          /\ fget out [n; i; j; 1]
             = fmask (fsub (fdiv_int (fmul 2 (Fin (y / Rmax z (1 / 1000))))
                                     (Z.of_nat h - 1)) 1)
          /\ (w <> 1 ->
              fget out [n; i; j; 0]
              = Fin (mask_value (2 * (x / Rmax z (1 / 1000))
                                 / IZR (Z.of_nat w - 1) - 1)))
          /\ (h <> 1 ->
              fget out [n; i; j; 1]
              = Fin (mask_value (2 * (y / Rmax z (1 / 1000))
                                 / IZR (Z.of_nat h - 1) - 1)))
          /\ ((z <= 1 / 1000)%R ->
              (w <> 1 ->
               fget out [n; i; j; 0]
               = Fin (mask_value (2 * (x / (1 / 1000))
                                  / IZR (Z.of_nat w - 1) - 1)))
              /\ (h <> 1 ->
                  fget out [n; i; j; 1]
                  = Fin (mask_value (2 * (y / (1 / 1000))
                                     / IZR (Z.of_nat h - 1) - 1)))))
    /\ (forall cam' P',
          size cam' = [b; 3; h; w] -> size P' = [b; 3; 4] ->
          exists out',
            cam2pixel cam' P' = Ok out'
            /\ forall n i j, n < b -> i < h -> j < w ->
                 (proj_coord cam P n 2 i j <= 1 / 1000)%R ->
                 proj_coord cam' P' n 2 i j = (1 / 1000)%R ->
                 proj_coord cam' P' n 0 i j = proj_coord cam P n 0 i j ->
                 proj_coord cam' P' n 1 i j = proj_coord cam P n 1 i j ->
                 fget out [n; i; j; 0] = fget out' [n; i; j; 0]
                 /\ fget out [n; i; j; 1] = fget out' [n; i; j; 1]).
Proof.
  intros Hb Hcam HP.
  destruct (@cam2pixel_steps b h w cam P Hb Hcam HP)
    as (pc & X & Y & Zc & Xn & Yn & out & Epc & EX & EY & EZc & EXn & EYn
        & Eout & Sout & (SX & SY & SZc) & G).
  destruct (@tdiv_ok _ X Zc SX SZc) as (qx & Eqx & _ & _ & Gqx).
  destruct (@tdiv_ok _ Y Zc SY SZc) as (qy & Eqy & _ & _ & Gqy).
  exists pc, X, Y, Zc, qx, qy, out.
  repeat (split; [assumption|]).
  split.
  - intros n i j Hn Hi Hj x y z.
    destruct (G n i j Hn Hi Hj) as (GX & GY & GZ & GXn & GYn & Go0 & Go1).
    fold x in GX, GXn. fold y in GY, GYn. fold z in GZ, GXn, GYn.
    assert (Hp : i * w + j < h * w) by nia.
    assert (Hidx : in_range [b; h * w] [n; i * w + j]) by in_range_tac.
    pose proof (Rmax_r z (1 / 1000)) as Hge.
    assert (Ex : w <> 1 ->
                 fget out [n; i; j; 0]
                 = Fin (mask_value (2 * (x / Rmax z (1 / 1000))
                                    / IZR (Z.of_nat w - 1) - 1)))
      by (intros Hw; rewrite Go0, GXn, fnorm_coord_finite, fmask_fin by exact Hw;
          reflexivity).
    assert (Ey : h <> 1 ->
                 fget out [n; i; j; 1]
                 = Fin (mask_value (2 * (y / Rmax z (1 / 1000))
                                    / IZR (Z.of_nat h - 1) - 1)))
      by (intros Hh; rewrite Go1, GYn, fnorm_coord_finite, fmask_fin by exact Hh;
          reflexivity).
    split; [exact GZ|]. split; [rewrite GZ; exact Hge|].
    split; [rewrite Gqx, GX, GZ by (assumption || (rewrite GZ; lra)); reflexivity|].
    split; [rewrite Gqy, GY, GZ by (assumption || (rewrite GZ; lra)); reflexivity|].
    split; [rewrite Go0, GXn; unfold fnorm_coord; rewrite fdiv_clamped;
            reflexivity|].
    split; [rewrite Go1, GYn; unfold fnorm_coord; rewrite fdiv_clamped;
            reflexivity|].
    split; [exact Ex|]. split; [exact Ey|].
    intros Hz. rewrite (Rmax_right z (1 / 1000) Hz) in Ex, Ey.
    split; assumption.
  - intros cam' P' Hcam' HP'.
    destruct (@cam2pixel_steps b h w cam' P' Hb Hcam' HP')
      as (pc' & X' & Y' & Zc' & Xn' & Yn' & out' & _ & _ & _ & _ & _ & _
          & Eout' & _ & _ & G').
    exists out'. split; [exact Eout'|].
    intros n i j Hn Hi Hj HZ HZ' HX' HY'.
    destruct (G n i j Hn Hi Hj) as (_ & _ & _ & GXn & GYn & Go0 & Go1).
    destruct (G' n i j Hn Hi Hj) as (_ & _ & _ & GXn' & GYn' & Go0' & Go1').
    rewrite Go0, Go1, Go0', Go1', GXn, GYn, GXn', GYn', HX', HY', HZ'.
    unfold fnorm_coord.
    rewrite (Rmax_right _ _ HZ), (Rmax_right (1 / 1000) (1 / 1000)) by lra.
    split; reflexivity.
Qed.

(** At the first pixel of [cam_behind] (X = 1/1000, Z = -5) the quotient is
    X / (1/1000) = 1 and the output is the centre column 0; a division by
    the depth -5 itself would have given -1.0002, masked to 2. *)
Lemma cam2pixel_depth_clamp_witness :
  proj_coord cam_behind proj_id 0 0 0 0 = (1 / 1000)%R
  /\ proj_coord cam_behind proj_id 0 2 0 0 = (-5)%R
  /\ exists out,
       cam2pixel cam_behind proj_id = Ok out
       /\ fget out [0; 0; 0; 0] = Fin 0.
Proof.
  assert (HX : proj_coord cam_behind proj_id 0 0 0 0 = (1 / 1000)%R)
    by (eval_entries; lra).
  assert (HZ : proj_coord cam_behind proj_id 0 2 0 0 = (-5)%R)
    by (eval_entries; lra).
  split; [exact HX|]. split; [exact HZ|].
  destruct (@cam2pixel_depth_clamp 1 2 3 cam_behind proj_id)
    as (pc & X & Y & Zc & qx & qy & out & _ & _ & _ & _ & _ & _ & Eout & G & _);
    [lia|reflexivity|reflexivity|].
  exists out. split; [exact Eout|].
  destruct (G 0 0 0) as (_ & _ & _ & _ & _ & _ & _ & _ & Hc); [lia|lia|lia|].
  destruct Hc as [Hx _]; [rewrite HZ; lra|].
  rewrite Hx by lia. rewrite HX. f_equal.
  cbn [Z.of_nat Z.sub Pos.of_succ_nat Pos.succ Z.add Z.opp Z.pos_sub
       Pos.pred_double].
  rewrite mask_value_inside; lra.
Defined.

(** The validation of inverse_warp accepts every size vector of the
    documented forms, whatever B, H and W. *)
Lemma validate_conforming (B H W : nat) :
  validate [B; 3; H; W] [B; H; W] [B; 6] [B; 3; 3] [B; 3; 3] = Ok tt.
Proof.
  unfold validate, check_sizes.
  cbn [list_ascii_of_string check_loop isdigit nat_of_ascii size_at nth_error
       length Nat.eqb forallb rbind app andb int_of_digit Nat.sub Nat.leb
       Ascii.N_of_ascii Ascii.N_of_digits N.to_nat N.add N.mul Pos.to_nat
       Pos.iter_op Nat.add Pos.add Pos.succ Pos.mul].
  unfold list_eqb. cbn [forallb2 andb Nat.eqb]. rewrite !Nat.eqb_refl.
  reflexivity.
Qed.

Lemma over_zero_not_finite (r q : R) : over_zero r <> Fin q.
Proof.
  unfold over_zero. destruct (Rlt_dec 0 r); [discriminate|].
  destruct (Rlt_dec r 0); discriminate.
Qed.

Lemma fmask_over_zero_cases (r : R) :
  fmask (over_zero r) = Fin 2 \/ fmask (over_zero r) = NaN.
Proof.
  rewrite fmask_over_zero. destruct (Req_dec_T r 0); auto.
Qed.

(** C10: the validation accepts images with W = 1 or H = 1; cam2pixel
    divides by the integers W-1 and H-1, which the clamp of Z does not
    guard.  On every [B,3,H,W] input with B > 0 the clamped depth is at least
    1/1000 and cam2pixel returns, whatever H and W (a float division by zero
    does not raise).  At every pixel the normalised X coordinate of line 58
    is a finite number exactly when W >= 2, and the normalised Y coordinate
    of line 61 is finite exactly when H >= 2.  For W = 1 the division
    (2*(X/Z)) / 0 is reached: the normalised X is an infinity of the sign of
    2*(X/Z), or a nan when that quotient is zero, and the X output is 2 (an
    infinity is masked) or nan; likewise for H = 1 and Y. *)
Theorem normalisation_requires_two_rows_and_columns :
  (forall B H W,
      validate [B; 3; H; W] [B; H; W] [B; 6] [B; 3; 3] [B; 3; 3] = Ok tt)
  /\
  (forall b h w cam P,
      0 < b ->
      size cam = [b; 3; h; w] -> size P = [b; 3; 4] ->
      exists pc X Y Zc Xn Yn out,
        pcoords_of cam P = Ok pc
        /\ select 0%R pc 1 0 = Ok X
        /\ select 0%R pc 1 1 = Ok Y
        /\ clamped_Z pc = Ok Zc
        /\ normalize X Zc w = Ok Xn
        /\ normalize Y Zc h = Ok Yn
        /\ cam2pixel cam P = Ok out
        /\ size out = [b; h; w; 2]
        /\ forall n i j, n < b -> i < h -> j < w ->
             let x := proj_coord cam P n 0 i j in
             let y := proj_coord cam P n 1 i j in
             let z := proj_coord cam P n 2 i j in
             let qx := (x / Rmax z (1 / 1000))%R in
             let qy := (y / Rmax z (1 / 1000))%R in
             (rget X [n; i * w + j] = x
              /\ rget Y [n; i * w + j] = y
              /\ rget Zc [n; i * w + j] = Rmax z (1 / 1000))
             /\ (1 / 1000 <= rget Zc [n; (i * w + j)%nat])%R
             /\ ((exists r, fget Xn [n; i * w + j] = Fin r) <-> 2 <= w)
             /\ ((exists r, fget Yn [n; i * w + j] = Fin r) <-> 2 <= h)
             /\ (2 <= w ->
                 fget Xn [n; i * w + j] = Fin (2 * qx / IZR (Z.of_nat w - 1) - 1))
             /\ (2 <= h ->
                 fget Yn [n; i * w + j] = Fin (2 * qy / IZR (Z.of_nat h - 1) - 1))
             /\ (w = 1 ->
                 fget Xn [n; i * w + j] = over_zero (2 * qx)
                 /\ fget out [n; i; j; 0] = fmask (over_zero (2 * qx))
                 /\ (fget out [n; i; j; 0] = Fin 2 \/ fget out [n; i; j; 0] = NaN))
             /\ (h = 1 ->
                 fget Yn [n; i * w + j] = over_zero (2 * qy)
                 /\ fget out [n; i; j; 1] = fmask (over_zero (2 * qy))
                 /\ (fget out [n; i; j; 1] = Fin 2 \/ fget out [n; i; j; 1] = NaN))).
Proof.
  split; [exact validate_conforming|].
  intros b h w cam P Hb Hcam HP.
  destruct (@cam2pixel_steps b h w cam P Hb Hcam HP)
    as (pc & X & Y & Zc & Xn & Yn & out & Epc & EX & EY & EZc & EXn & EYn
        & Eout & Sout & _ & G).
  exists pc, X, Y, Zc, Xn, Yn, out.
  repeat (split; [assumption|]).
  intros n i j Hn Hi Hj x y z qx qy.
  destruct (G n i j Hn Hi Hj) as (GX & GY & GZ & GXn & GYn & Go0 & Go1).
  rewrite Go0, Go1, GXn, GYn, GZ. fold x y z.
  split; [auto|].
  split; [apply Rmax_r|].
  assert (Fw : 2 <= w ->
               fnorm_coord x z w = Fin (2 * qx / IZR (Z.of_nat w - 1) - 1))
    by (intros H; rewrite fnorm_coord_finite by lia; reflexivity).
  assert (Fh : 2 <= h ->
               fnorm_coord y z h = Fin (2 * qy / IZR (Z.of_nat h - 1) - 1))
    by (intros H; rewrite fnorm_coord_finite by lia; reflexivity).
  split; [|split]; [| |split; [exact Fw|split; [exact Fh|split]]].
  - split; [|intros H; rewrite Fw by exact H; eauto].
    intros [r Hr]. destruct (Nat.eq_dec w 1) as [E|E]; [|lia].
    rewrite E, fnorm_coord_one in Hr. exfalso. exact (@over_zero_not_finite _ _ Hr).
  - split; [|intros H; rewrite Fh by exact H; eauto].
    intros [r Hr]. destruct (Nat.eq_dec h 1) as [E|E]; [|lia].
    rewrite E, fnorm_coord_one in Hr. exfalso. exact (@over_zero_not_finite _ _ Hr).
  - intros E. rewrite E, fnorm_coord_one. fold qx.
    split; [reflexivity|]. split; [reflexivity|apply fmask_over_zero_cases].
  - intros E. rewrite E, fnorm_coord_one. fold qy.
    split; [reflexivity|]. split; [reflexivity|apply fmask_over_zero_cases].
Qed.

Lemma over_zero_pos (r : R) : (0 < r)%R -> over_zero r = PInf.
Proof. intros H. unfold over_zero. destruct (Rlt_dec 0 r); [reflexivity|contradiction]. Qed.

Lemma over_zero_neg (r : R) : (r < 0)%R -> over_zero r = NInf.
Proof.
  intros H. unfold over_zero. destruct (Rlt_dec 0 r); [lra|].
  destruct (Rlt_dec r 0); [reflexivity|contradiction].
Qed.

Lemma over_zero_zero (r : R) : r = 0%R -> over_zero r = NaN.
Proof.
  intros H. unfold over_zero. destruct (Rlt_dec 0 r); [lra|].
  destruct (Rlt_dec r 0); [lra|reflexivity].
Qed.

Ltac clamp_at_one :=
  match goal with
  | |- context [Rmax ?a (1 / 1000)] => replace a with 1%R by lra
  end;
  rewrite Rmax_left by lra.

(** A 3x1 map (one column) with X = 1, 0, -1 and Z = 1: the call returns,
    the normalised X coordinates are +inf, nan, -inf and the X outputs are
    2, nan, 2, while the Y coordinates are finite. *)
Lemma normalisation_requires_two_rows_and_columns_witness :
  validate [1; 3; 3; 1] [1; 3; 1] [1; 6] [1; 3; 3] [1; 3; 3] = Ok tt
  /\ exists pc X Y Zc Xn Yn out,
       pcoords_of cam_one_column proj_id = Ok pc
       /\ select 0%R pc 1 0 = Ok X
       /\ select 0%R pc 1 1 = Ok Y
       /\ clamped_Z pc = Ok Zc
       /\ normalize X Zc 1 = Ok Xn
       /\ normalize Y Zc 3 = Ok Yn
       /\ cam2pixel cam_one_column proj_id = Ok out
       /\ (fget Xn [0; 0] = PInf /\ fget Xn [0; 1] = NaN /\ fget Xn [0; 2] = NInf)
       /\ (fget out [0; 0; 0; 0] = Fin 2
           /\ fget out [0; 1; 0; 0] = NaN
           /\ fget out [0; 2; 0; 0] = Fin 2)
       /\ fget Yn [0; 1] = Fin 0.
Proof.
  split; [apply (proj1 normalisation_requires_two_rows_and_columns)|].
  destruct (proj2 normalisation_requires_two_rows_and_columns
              1 3 1 cam_one_column proj_id)
    as (pc & X & Y & Zc & Xn & Yn & out & Epc & EX & EY & EZc & EXn & EYn & Eout
        & _ & G); [lia|reflexivity|reflexivity|].
  exists pc, X, Y, Zc, Xn, Yn, out.
  repeat (split; [assumption|]).
  destruct (G 0 0 0) as (_ & _ & _ & _ & _ & _ & H0 & _); [lia|lia|lia|].
  destruct (G 0 1 0) as (_ & _ & _ & _ & _ & Hy1 & H1 & _); [lia|lia|lia|].
  destruct (G 0 2 0) as (_ & _ & _ & _ & _ & _ & H2 & _); [lia|lia|lia|].
  destruct (H0 eq_refl) as (A0 & B0 & _).
  destruct (H1 eq_refl) as (A1 & B1 & _).
  destruct (H2 eq_refl) as (A2 & B2 & _).
  specialize (Hy1 ltac:(lia)).
  assert (Q0 : (0 < 2 * (proj_coord cam_one_column proj_id 0 0 0 0
                         / Rmax (proj_coord cam_one_column proj_id 0 2 0 0)
                                (1 / 1000)))%R)
    by (eval_entries; clamp_at_one; lra).
  assert (Q1 : (2 * (proj_coord cam_one_column proj_id 0 0 1 0
                     / Rmax (proj_coord cam_one_column proj_id 0 2 1 0)
                            (1 / 1000)) = 0)%R)
    by (eval_entries; clamp_at_one; lra).
  assert (Q2 : (2 * (proj_coord cam_one_column proj_id 0 0 2 0
                     / Rmax (proj_coord cam_one_column proj_id 0 2 2 0)
                            (1 / 1000)) < 0)%R)
    by (eval_entries; clamp_at_one; lra).
  rewrite (over_zero_pos Q0) in A0, B0.
  rewrite (over_zero_zero Q1) in A1, B1.
  rewrite (over_zero_neg Q2) in A2, B2.
  split; [split; [exact A0|split; [exact A1|exact A2]]|].
  split; [split; [exact B0|split; [exact B1|exact B2]]|].
  etransitivity; [exact Hy1|]. f_equal.
  eval_entries; clamp_at_one; lra.
Defined.

(** ** The pixel grid and its cache *)

Lemma expand_ok {A} (d : A) (t : tensor A) (s : list nat) :
  forallb2 (fun dt ds => (dt =? ds) || (dt =? 1)) (size t) s = true ->
  expand d t s = Ok (tabulate s (fun idx => tget d t (bidx (size t) idx))).
Proof. intros H. unfold expand. rewrite H. reflexivity. Qed.

Lemma rget_arange (n k : nat) : k < n -> rget (arange n) [k] = INR k.
Proof.
  intros Hk. unfold rget, tget, arange. cbn [size data ravel numel fold_right].
  rewrite Nat.mul_1_r, Nat.add_0_r. apply nth_map_seq. exact Hk.
Qed.

(** set_id_grid stores a correct grid of the size of its argument. *)
Lemma id_grid_entries (h w : nat) :
  exists g,
    id_grid h w = Ok g /\ well_formed g /\ is_pixel_grid 1 h w g.
Proof.
  unfold id_grid.
  rewrite view_ok by (cbn [size arange numel fold_right]; lia). cbn [rbind].
  rewrite expand_ok
    by (cbn [size forallb2]; rewrite !Nat.eqb_refl, ?orb_true_r; reflexivity).
  cbn [rbind].
  rewrite view_ok by (cbn [size arange numel fold_right]; lia). cbn [rbind].
  rewrite expand_ok
    by (cbn [size forallb2]; rewrite !Nat.eqb_refl, ?orb_true_r; reflexivity).
  cbn [rbind size].
  rewrite stack_ok by (repeat constructor; cbn [length size tabulate]; lia).
  cbn [size tabulate insert_at firstn skipn app length].
  eexists. split; [reflexivity|]. split; [apply well_formed_tabulate|].
  split; [reflexivity|].
  intros n i j Hn Hi Hj. assert (n = 0) by lia. subst n.
  unfold rget. rewrite !tget_tabulate by in_range_tac.
  cbn [nth remove_at firstn skipn app].
  rewrite !tget_tabulate by in_range_tac.
  unfold bidx. cbn [length Nat.sub skipn map2 Nat.eqb].
  split; [|split].
  - rewrite (@tget_view _ 0%R (arange w) [1; 1; w] _ [if w =? 1 then 0 else j])
      by (cbn [size arange ravel numel fold_right]; lia).
    fold (rget (arange w) [if w =? 1 then 0 else j]).
    destruct (Nat.eqb_spec w 1).
    + rewrite rget_arange by lia. f_equal. lia.
    + apply rget_arange. exact Hj.
  - rewrite (@tget_view _ 0%R (arange h) [1; h; 1] _ [if h =? 1 then 0 else i])
      by (cbn [size arange ravel numel fold_right]; lia).
    fold (rget (arange h) [if h =? 1 then 0 else i]).
    destruct (Nat.eqb_spec h 1).
    + rewrite rget_arange by lia. f_equal. lia.
    + apply rget_arange. exact Hi.
  - unfold ones. rewrite tget_tabulate by in_range_tac. reflexivity.
Qed.

Section Crop.

Variables (b h w hc wc : nat) (g : tensor R).
Hypothesis Hg : size g = [1; 3; hc; wc].

(** [pixel_coords[:, :, :h, :w]] *)
Lemma crop_entries :
  exists g1 g2,
    slice 0%R g 2 0 (Some h) = Ok g1
    /\ slice 0%R g1 3 0 (Some w) = Ok g2
    /\ size g2 = [1; 3; Nat.min h hc; Nat.min w wc]
    /\ forall c i j, c < 3 -> i < Nat.min h hc -> j < Nat.min w wc ->
         rget g2 [0; c; i; j] = rget g [0; c; i; j].
Proof.
  unfold slice at 1. rewrite Hg.
  cbn [nth_error firstn skipn app Nat.min Nat.max]. rewrite Nat.sub_0_r.
  eexists. eexists. split; [reflexivity|].
  unfold slice. cbn [size tabulate nth_error firstn skipn app Nat.min Nat.max].
  rewrite Nat.sub_0_r.
  split; [reflexivity|]. split; [reflexivity|].
  intros c i j Hc Hi Hj. unfold rget.
  rewrite tget_tabulate by in_range_tac.
  cbn [firstn skipn app nth]. rewrite Nat.add_0_r.
  rewrite tget_tabulate by in_range_tac.
  cbn [firstn skipn app nth]. rewrite Nat.add_0_r. reflexivity.
Qed.

Hypothesis Hh : h <= hc.

(** The cached grid is at least as wide as the request: the crop is
    expanded to the batch and every entry is read at its own place. *)
Lemma crop_expand_wide (g2 : tensor R) :
  w <= wc ->
  size g2 = [1; 3; Nat.min h hc; Nat.min w wc] ->
  exists r,
    expand 0%R g2 [b; 3; h; w] = Ok r
    /\ size r = [b; 3; h; w]
    /\ forall n c i j, n < b -> c < 3 -> i < h -> j < w ->
         rget r [n; c; i; j] = rget g2 [0; c; i; j].
Proof.
  intros Hw S2. rewrite Nat.min_l in S2 by exact Hh.
  rewrite Nat.min_l in S2 by exact Hw.
  rewrite expand_ok
    by (rewrite S2; cbn [forallb2]; rewrite !Nat.eqb_refl, ?orb_true_r; reflexivity).
  eexists. split; [reflexivity|]. split; [reflexivity|].
  intros n c i j Hn Hc Hi Hj. unfold rget.
  rewrite tget_tabulate by in_range_tac.
  rewrite S2. unfold bidx. cbn [length Nat.sub skipn map2 Nat.eqb].
  repeat f_equal.
  - destruct (Nat.eqb_spec h 1); lia.
  - destruct (Nat.eqb_spec w 1); lia.
Qed.

(** The cached grid has a single column and the request is wider: the
    expansion repeats that column, without any error. *)
Lemma crop_expand_one_column (g2 : tensor R) :
  wc = 1 -> 1 < w ->
  size g2 = [1; 3; Nat.min h hc; Nat.min w wc] ->
  exists r,
    expand 0%R g2 [b; 3; h; w] = Ok r
    /\ size r = [b; 3; h; w]
    /\ forall n c i j, n < b -> c < 3 -> i < h -> j < w ->
         rget r [n; c; i; j] = rget g2 [0; c; i; 0].
Proof.
  intros Hwc Hw S2. rewrite Nat.min_l in S2 by exact Hh.
  rewrite Nat.min_r in S2 by lia. rewrite Hwc in S2.
  rewrite expand_ok
    by (rewrite S2; cbn [forallb2]; rewrite !Nat.eqb_refl, ?orb_true_r; reflexivity).
  eexists. split; [reflexivity|]. split; [reflexivity|].
  intros n c i j Hn Hc Hi Hj. unfold rget.
  rewrite tget_tabulate by in_range_tac.
  rewrite S2. unfold bidx. cbn [length Nat.sub skipn map2 Nat.eqb].
  repeat f_equal.
  destruct (Nat.eqb_spec h 1); lia.
Qed.

(** The cached grid is narrower than the request and has not exactly
    one column: the expansion raises. *)
Lemma crop_expand_narrow (g2 : tensor R) :
  wc < w -> wc <> 1 ->
  size g2 = [1; 3; Nat.min h hc; Nat.min w wc] ->
  expand 0%R g2 [b; 3; h; w] = Raise RuntimeError.
Proof.
  intros Hw Hwc S2. rewrite Nat.min_l in S2 by exact Hh.
  rewrite Nat.min_r in S2 by lia.
  unfold expand. rewrite S2. cbn [forallb2].
  rewrite !Nat.eqb_refl.
  destruct (Nat.eqb_spec wc w); [lia|].
  destruct (Nat.eqb_spec wc 1); [lia|].
  cbn [orb andb]. rewrite ?orb_true_r. reflexivity.
Qed.

End Crop.

Section CurrentGrid.

Variables (b h w : nat) (depth : tensor R).
Hypothesis Hdepth : size depth = [b; h; w].

Lemma set_id_grid_run (st : cache) :
  exists g,
    id_grid h w = Ok g
    /\ well_formed g
    /\ is_pixel_grid 1 h w g
    /\ set_id_grid depth st = (Ok tt, Some g).
Proof.
  destruct (id_grid_entries h w) as (g & Eg & Wg & Gg).
  exists g. split; [exact Eg|]. split; [exact Wg|]. split; [exact Gg|].
  unfold set_id_grid, mbind, lift, put_cache. rewrite Hdepth.
  cbn [unpack3]. rewrite Eg. reflexivity.
Qed.

(** Lines 36-37 on an empty cache or on a cache lower than the request. *)
Lemma refresh_grid_regenerates (st : cache) :
  st = None
  \/ (exists g0 hc wc, st = Some g0 /\ size g0 = [1; 3; hc; wc] /\ hc < h) ->
  exists g,
    id_grid h w = Ok g
    /\ is_pixel_grid 1 h w g
    /\ refresh_grid depth h st = (Ok tt, Some g).
Proof.
  intros Hst.
  destruct (set_id_grid_run st) as (g & Eg & _ & Gg & Es).
  exists g. split; [exact Eg|]. split; [exact Gg|].
  unfold refresh_grid, mbind, get_cache.
  destruct Hst as [->|(g0 & hc & wc & -> & S0 & Hlt)].
  - exact Es.
  - unfold lift. rewrite S0. cbn [size_at nth_error].
    apply Nat.ltb_lt in Hlt. rewrite Hlt. exact Es.
Qed.

(** Lines 36-37 on a cache at least as high as the request. *)
Lemma refresh_grid_keeps (g0 : tensor R) (hc wc : nat) :
  size g0 = [1; 3; hc; wc] -> h <= hc ->
  refresh_grid depth h (Some g0) = (Ok tt, Some g0).
Proof.
  intros S0 Hle. unfold refresh_grid, mbind, get_cache, lift.
  rewrite S0. cbn [size_at nth_error].
  destruct (Nat.ltb_spec hc h); [lia|]. reflexivity.
Qed.

Lemma current_grid_unfold (st : cache) (g : tensor R) :
  refresh_grid depth h st = (Ok tt, Some g) ->
  current_grid depth st
  = ((g1 <- slice 0%R g 2 0 (Some h) ;;
      g2 <- slice 0%R g1 3 0 (Some w) ;;
      expand 0%R g2 [b; 3; h; w])%res, Some g).
Proof.
  intros E. unfold current_grid, mbind at 1, lift at 1. rewrite Hdepth.
  cbn [unpack3]. unfold mbind at 1. rewrite E.
  reflexivity.
Qed.

(** A call on an empty cache, or on a cache lower than the request,
    stores a fresh grid of the requested size and works with it. *)
Lemma current_grid_regenerated (st : cache) :
  st = None
  \/ (exists g0 hc wc, st = Some g0 /\ size g0 = [1; 3; hc; wc] /\ hc < h) ->
  exists g r,
    current_grid depth st = (Ok r, Some g)
    /\ is_pixel_grid 1 h w g
    /\ is_pixel_grid b h w r.
Proof.
  intros Hst.
  destruct (refresh_grid_regenerates Hst) as (g & _ & Gg & Er).
  destruct Gg as [Sg Gg].
  destruct (@crop_entries h w h w g Sg) as (g1 & g2 & E1 & E2 & S2 & G2).
  destruct (@crop_expand_wide b h w h w (le_n h) g2 (le_n w) S2)
    as (r & Er2 & Sr & Gr).
  exists g, r. split.
  - rewrite (@current_grid_unfold st g Er). rewrite E1. cbn [rbind].
    rewrite E2. cbn [rbind]. rewrite Er2. reflexivity.
  - split; [split; [exact Sg|exact Gg]|].
    split; [exact Sr|].
    intros n i j Hn Hi Hj.
    rewrite !Gr by lia. rewrite !G2 by lia.
    apply Gg; lia.
Qed.

Variables (g0 : tensor R) (hc wc : nat).
Hypothesis Hg0 : is_pixel_grid 1 hc wc g0.
Hypothesis Hle : h <= hc.

(** The cache is high enough and at least as wide as the request: it
    is kept and its crop is a correct grid. *)
Lemma current_grid_cached_wide :
  w <= wc ->
  exists r,
    current_grid depth (Some g0) = (Ok r, Some g0)
    /\ is_pixel_grid b h w r.
Proof.
  intros Hw. destruct Hg0 as [S0 G0].
  destruct (@crop_entries h w hc wc g0 S0) as (g1 & g2 & E1 & E2 & S2 & G2).
  destruct (@crop_expand_wide b h w hc wc Hle g2 Hw S2) as (r & Er2 & Sr & Gr).
  exists r. split.
  - rewrite (@current_grid_unfold (Some g0) g0 (@refresh_grid_keeps g0 hc wc S0 Hle)).
    rewrite E1. cbn [rbind]. rewrite E2. cbn [rbind]. rewrite Er2. reflexivity.
  - split; [exact Sr|].
    intros n i j Hn Hi Hj.
    rewrite !Gr by lia. rewrite !G2 by lia.
    apply G0; lia.
Qed.

(** The cache is high enough but has one column, and the request is
    wider: the call keeps the cache and returns, without an error, a grid
    whose column index is 0 in every cell. *)
Lemma current_grid_cached_one_column :
  wc = 1 -> 1 < w ->
  exists r,
    current_grid depth (Some g0) = (Ok r, Some g0)
    /\ size r = [b; 3; h; w]
    /\ forall n i j, n < b -> i < h -> j < w ->
         rget r [n; 0; i; j] = 0%R
         /\ rget r [n; 1; i; j] = INR i
         /\ rget r [n; 2; i; j] = 1%R.
Proof.
  intros Hwc Hw. destruct Hg0 as [S0 G0].
  destruct (@crop_entries h w hc wc g0 S0) as (g1 & g2 & E1 & E2 & S2 & G2).
  destruct (@crop_expand_one_column b h w hc wc Hle g2 Hwc Hw S2)
    as (r & Er2 & Sr & Gr).
  exists r. split.
  - rewrite (@current_grid_unfold (Some g0) g0 (@refresh_grid_keeps g0 hc wc S0 Hle)).
    rewrite E1. cbn [rbind]. rewrite E2. cbn [rbind]. rewrite Er2. reflexivity.
  - split; [exact Sr|].
    intros n i j Hn Hi Hj.
    rewrite !Gr by lia. rewrite !G2 by lia.
    destruct (G0 0 i 0) as (Gj & Gi & G1); try lia.
    rewrite Gj, Gi, G1. repeat split; reflexivity.
Qed.

(** The cache is high enough, narrower than the request, and has not
    exactly one column: the call raises and keeps the cache. *)
Lemma current_grid_cached_narrow :
  wc < w -> wc <> 1 ->
  current_grid depth (Some g0) = (Raise RuntimeError, Some g0).
Proof.
  intros Hw Hwc. destruct Hg0 as [S0 G0].
  destruct (@crop_entries h w hc wc g0 S0) as (g1 & g2 & E1 & E2 & S2 & G2).
  rewrite (@current_grid_unfold (Some g0) g0 (@refresh_grid_keeps g0 hc wc S0 Hle)).
  rewrite E1. cbn [rbind]. rewrite E2. cbn [rbind].
  rewrite (@crop_expand_narrow b h w hc wc Hle g2 Hw Hwc S2). reflexivity.
Qed.

End CurrentGrid.

(** ** pixel2cam *)

Lemma broadcast_shape_chan1 (b c h w : nat) :
  broadcast_shape [b; c; h; w] [b; 1; h; w] = Some [b; c; h; w].
Proof.
  unfold broadcast_shape. cbn [rev app broadcast_rev].
  rewrite !Nat.eqb_refl. cbn [Nat.eqb].
  destruct (c =? 1) eqn:E; reflexivity.
Qed.

Lemma bidx_chan1 (b h w n k i j : nat) :
  n < b -> i < h -> j < w -> bidx [b; 1; h; w] [n; k; i; j] = [n; 0; i; j].
Proof.
  intros Hn Hi Hj. unfold bidx. cbn [length Nat.sub skipn map2 Nat.eqb].
  destruct (Nat.eqb_spec b 1); destruct (Nat.eqb_spec h 1);
    destruct (Nat.eqb_spec w 1); repeat f_equal; lia.
Qed.

Section Pixel2Cam.

Variables (b h w : nat) (depth Kinv : tensor R).
Hypothesis Hb : 0 < b.
Hypothesis Hdepth : size depth = [b; h; w].
Hypothesis HKinv : size Kinv = [b; 3; 3].

(** pixel2cam on a call whose grid is [r]: the point of pixel (i,j) is
    the inverse intrinsics applied to the grid cell, scaled by the depth. *)
Lemma pixel2cam_entries (st st' : cache) (r : tensor R) :
  current_grid depth st = (Ok r, st') ->
  size r = [b; 3; h; w] ->
  exists cam,
    pixel2cam depth Kinv st = (Ok cam, st')
    /\ size cam = [b; 3; h; w]
    /\ forall n k i j, n < b -> k < 3 -> i < h -> j < w ->
         rget cam [n; k; i; j]
         = (sum_n 3 (fun c => rget Kinv [n; k; c] * rget r [n; c; i; j])
            * rget depth [n; i; j])%R.
Proof.
  intros Eg Sr.
  unfold pixel2cam, mbind at 1, lift at 1. rewrite Hdepth. cbn [unpack3].
  unfold mbind. rewrite Eg. unfold lift.
  rewrite (@view_infer_ok _ r [b; 3] (h * w))
    by (rewrite ?Sr; cbn [numel fold_right]; lia).
  cbn [rbind app].
  set (flat := mkT [b; 3; h * w] (data r)).
  destruct (@bmm_entries Kinv flat b 3 3 (h * w) HKinv eq_refl)
    as (prod & Eprod & Sprod & Wprod & Gprod).
  rewrite Eprod. cbn [rbind].
  rewrite view_ok by (rewrite Sprod; cbn [numel fold_right]; ring).
  cbn [rbind].
  unfold unsqueeze. rewrite Hdepth. cbn [length Nat.leb insert_at firstn skipn app rbind].
  unfold tmul, binop. cbn [size]. rewrite broadcast_shape_chan1.
  eexists. split; [reflexivity|]. split; [reflexivity|].
  intros n k i j Hn Hk Hi Hj.
  assert (Hp : i * w + j < h * w) by nia.
  unfold rget at 1. rewrite tget_tabulate by in_range_tac.
  rewrite bidx_same by in_range_tac.
  rewrite bidx_chan1 by assumption.
  f_equal.
  - unfold rget.
    rewrite (@tget_view _ 0%R prod [b; 3; h; w] [n; k; i; j] [n; k; i * w + j])
      by (rewrite Sprod; symmetry; apply ravel_flat).
    fold (rget prod [n; k; i * w + j]).
    rewrite Gprod by lia.
    unfold sum_n. cbn [seq map fold_right]. unfold flat, rget.
    rewrite !(@tget_view _ 0%R r [b; 3; h * w] [n; _; i * w + j] [n; _; i; j])
      by (rewrite Sr; apply ravel_flat).
    reflexivity.
  - unfold rget.
    apply (@tget_view _ 0%R depth [b; 1; h; w] [n; 0; i; j] [n; i; j]).
    rewrite Hdepth. cbn [ravel numel fold_right]. ring.
Qed.

End Pixel2Cam.

(** pixel2cam on a call that works with a correct grid. *)
Lemma pixel2cam_on_pixel_grid (b h w : nat) (depth Kinv : tensor R)
    (st st' : cache) (r : tensor R) :
  0 < b -> size depth = [b; h; w] -> size Kinv = [b; 3; 3] ->
  current_grid depth st = (Ok r, st') -> is_pixel_grid b h w r ->
  exists cam,
    pixel2cam depth Kinv st = (Ok cam, st')
    /\ size cam = [b; 3; h; w]
    /\ forall n k i j, n < b -> k < 3 -> i < h -> j < w ->
         rget cam [n; k; i; j]
         = ((rget Kinv [n; k; 0%nat] * INR j + rget Kinv [n; k; 1%nat] * INR i
             + rget Kinv [n; k; 2%nat]) * rget depth [n; i; j])%R.
Proof.
  intros Hb Hd HK Eg [Sr Gr].
  destruct (@pixel2cam_entries b h w depth Kinv Hb Hd HK st st' r Eg Sr)
    as (cam & Ecam & Scam & Gcam).
  exists cam. split; [exact Ecam|]. split; [exact Scam|].
  intros n k i j Hn Hk Hi Hj.
  rewrite Gcam, sum_n_3 by assumption.
  destruct (Gr n i j Hn Hi Hj) as (Gj & Gi & G1).
  rewrite Gj, Gi, G1. ring.
Qed.

(** pixel2cam on a cache that is high enough but has a single column,
    for a wider request: the call succeeds and every point is computed from
    column 0. *)
Lemma pixel2cam_on_one_column_cache (b h w hc : nat) (depth Kinv g0 : tensor R) :
  0 < b -> size depth = [b; h; w] -> size Kinv = [b; 3; 3] ->
  is_pixel_grid 1 hc 1 g0 -> h <= hc -> 1 < w ->
  exists cam,
    pixel2cam depth Kinv (Some g0) = (Ok cam, Some g0)
    /\ size cam = [b; 3; h; w]
    /\ forall n k i j, n < b -> k < 3 -> i < h -> j < w ->
         rget cam [n; k; i; j]
         = ((rget Kinv [n; k; 1%nat] * INR i + rget Kinv [n; k; 2%nat])
            * rget depth [n; i; j])%R.
Proof.
  intros Hb Hd HK Hg Hle Hw.
  destruct (@current_grid_cached_one_column b h w depth Hd g0 hc 1 Hg Hle eq_refl Hw)
    as (r & Er & Sr & Gr).
  destruct (@pixel2cam_entries b h w depth Kinv Hb Hd HK (Some g0) (Some g0) r Er Sr)
    as (cam & Ecam & Scam & Gcam).
  exists cam. split; [exact Ecam|]. split; [exact Scam|].
  intros n k i j Hn Hk Hi Hj.
  rewrite Gcam, sum_n_3 by assumption.
  destruct (Gr n i j Hn Hi Hj) as (Gj & Gi & G1).
  rewrite Gj, Gi, G1. ring.
Qed.

(** From an empty cache, a call followed by a call of a larger height:
    both work with a correct grid of their own size, and the second call
    replaces the cached grid. *)
Lemma cache_growth_in_height (b1 h1 w1 b2 h2 w2 : nat) (d1 d2 : tensor R) :
  size d1 = [b1; h1; w1] -> size d2 = [b2; h2; w2] ->
  h1 < h2 ->
  exists c1 r1 c2 r2,
    current_grid d1 None = (Ok r1, Some c1)
    /\ is_pixel_grid b1 h1 w1 r1
    /\ current_grid d2 (Some c1) = (Ok r2, Some c2)
    /\ is_pixel_grid b2 h2 w2 r2
    /\ is_pixel_grid 1 h2 w2 c2.
Proof.
  intros S1 S2 Hlt.
  destruct (@current_grid_regenerated b1 h1 w1 d1 S1 None (or_introl eq_refl))
    as (c1 & r1 & E1 & G1 & Gr1).
  destruct (@current_grid_regenerated b2 h2 w2 d2 S2 (Some c1))
    as (c2 & r2 & E2 & G2 & Gr2).
  { right. exists c1, h1, w1. split; [reflexivity|]. split; [apply G1|exact Hlt]. }
  exists c1, r1, c2, r2. auto.
Qed.

Lemma not_pixel_grid_of_zero_column (b h w : nat) (r : tensor R) :
  0 < b -> 0 < h -> 1 < w ->
  rget r [0; 0; 0; 1] = 0%R -> ~ is_pixel_grid b h w r.
Proof.
  intros Hb Hh Hw E [_ G].
  destruct (G 0 0 1 Hb Hh Hw) as [Gj _].
  rewrite E in Gj. cbn [INR] in Gj. lra.
Qed.

Lemma rget_ones (s idx : list nat) : in_range s idx -> rget (ones s) idx = 1%R.
Proof. intros H. unfold rget, ones. rewrite tget_tabulate by exact H. reflexivity. Qed.

Ltac eval_K_id :=
  repeat match goal with
         | |- context [rget K_id ?idx] =>
             let v := eval cbv [rget tget K_id size data ravel numel fold_right
                                nth Nat.mul Nat.add] in (rget K_id idx) in
             change (rget K_id idx) with v
         end.

(** C8: there is a sequence of calls in which the cached grid is as high
    as the request but was built for another width, and the call returns,
    without any error, a grid with wrong column indices: after a first call
    on a 2x1 depth map, a call on a 2x3 depth map keeps the cached 2x1 grid
    and works with a grid whose column index is 0 in every cell.  With
    identity intrinsics and unit depth, pixel2cam then returns X = 0 for
    pixel (0,2), where the same call on an empty cache returns X = 2. *)
Theorem cache_width_gap :
  exists cached r1 r2,
    current_grid (ones [1; 2; 1]) None = (Ok r1, Some cached)
    /\ is_pixel_grid 1 2 1 r1
    /\ size cached = [1; 3; 2; 1]
    /\ current_grid (ones [1; 2; 3]) (Some cached) = (Ok r2, Some cached)
    /\ size r2 = [1; 3; 2; 3]
    /\ (forall i j, i < 2 -> j < 3 ->
          rget r2 [0; 0; i; j] = 0%R
          /\ rget r2 [0; 1; i; j] = INR i
          /\ rget r2 [0; 2; i; j] = 1%R)
    /\ rget r2 [0; 0; 0; 2] <> INR 2
    /\ ~ is_pixel_grid 1 2 3 r2
    /\ (exists cam,
          pixel2cam (ones [1; 2; 3]) K_id (Some cached) = (Ok cam, Some cached)
          /\ rget cam [0; 0; 0; 2] = 0%R)
    /\ (exists cam st',
          pixel2cam (ones [1; 2; 3]) K_id None = (Ok cam, st')
          /\ rget cam [0; 0; 0; 2] = 2%R).
Proof.
  destruct (@current_grid_regenerated 1 2 1 (ones [1; 2; 1]) eq_refl None
              (or_introl eq_refl))
    as (cached & r1 & E1 & Gc & Gr1).
  destruct (@current_grid_cached_one_column 1 2 3 (ones [1; 2; 3]) eq_refl
              cached 2 1 Gc (le_n 2) eq_refl)
    as (r2 & E2 & S2 & G2); [lia|].
  exists cached, r1, r2.
  split; [exact E1|]. split; [exact Gr1|]. split; [apply Gc|].
  split; [exact E2|]. split; [exact S2|].
  split; [intros i j Hi Hj; apply G2; lia|].
  split; [|split; [|split]].
  - destruct (G2 0 0 2) as [E _]; try lia. rewrite E. cbn [INR]. lra.
  - apply not_pixel_grid_of_zero_column; try lia.
    destruct (G2 0 0 1) as [E _]; try lia. exact E.
  - destruct (@pixel2cam_on_one_column_cache 1 2 3 2 (ones [1; 2; 3]) K_id cached)
      as (cam & Ecam & _ & Gcam); try lia; try reflexivity; [exact Gc|].
    exists cam. split; [exact Ecam|].
    rewrite Gcam by lia. rewrite rget_ones by in_range_tac.
    eval_K_id. cbn [INR]. ring.
  - destruct (@current_grid_regenerated 1 2 3 (ones [1; 2; 3]) eq_refl None
                (or_introl eq_refl))
      as (c & r & E & _ & Gr).
    destruct (@pixel2cam_on_pixel_grid 1 2 3 (ones [1; 2; 3]) K_id None (Some c) r)
      as (cam & Ecam & _ & Gcam); try lia; try reflexivity; try assumption.
    exists cam, (Some c). split; [exact Ecam|].
    rewrite Gcam by lia. rewrite rget_ones by in_range_tac.
    eval_K_id. cbn [INR]. ring.
Qed.

(** C7 at its failing inputs.  (1) From an empty cache, a call on a 2x1
    depth map followed by a call on a 2x3 depth map: the second call reuses
    the undersized 2x1 grid without an error and its grid is not correct.
    (2) After a call on a 4x1 depth map, the successive calls on 2x2 and
    3x3 depth maps both reuse the cached 4x1 grid without an error, and
    neither grid is correct.  (3) From an empty cache, a call on a 2x2 depth
    map followed by a call on a 2x3 depth map: the second call raises. *)
Theorem cache_growth_reuses_undersized_grid :
  (exists c1 r1 r2,
      current_grid (ones [1; 2; 1]) None = (Ok r1, Some c1)
      /\ current_grid (ones [1; 2; 3]) (Some c1) = (Ok r2, Some c1)
      /\ size c1 = [1; 3; 2; 1]
      /\ ~ is_pixel_grid 1 2 3 r2)
  /\
  (exists c0 r0 r1 r2,
      current_grid (ones [1; 4; 1]) None = (Ok r0, Some c0)
      /\ current_grid (ones [1; 2; 2]) (Some c0) = (Ok r1, Some c0)
      /\ current_grid (ones [1; 3; 3]) (Some c0) = (Ok r2, Some c0)
      /\ size c0 = [1; 3; 4; 1]
      /\ ~ is_pixel_grid 1 2 2 r1
      /\ ~ is_pixel_grid 1 3 3 r2)
  /\
  (exists c1 r1,
      current_grid (ones [1; 2; 2]) None = (Ok r1, Some c1)
      /\ is_pixel_grid 1 2 2 r1
      /\ current_grid (ones [1; 2; 3]) (Some c1) = (Raise RuntimeError, Some c1)).
Proof.
  split; [|split].
  - destruct (@current_grid_regenerated 1 2 1 (ones [1; 2; 1]) eq_refl None
                (or_introl eq_refl))
      as (c1 & r1 & E1 & Gc & _).
    destruct (@current_grid_cached_one_column 1 2 3 (ones [1; 2; 3]) eq_refl
                c1 2 1 Gc (le_n 2) eq_refl)
      as (r2 & E2 & _ & G2); [lia|].
    exists c1, r1, r2.
    split; [exact E1|]. split; [exact E2|]. split; [apply Gc|].
    apply not_pixel_grid_of_zero_column; try lia.
    destruct (G2 0 0 1) as [E _]; try lia. exact E.
  - destruct (@current_grid_regenerated 1 4 1 (ones [1; 4; 1]) eq_refl None
                (or_introl eq_refl))
      as (c0 & r0 & E0 & Gc & _).
    destruct (@current_grid_cached_one_column 1 2 2 (ones [1; 2; 2]) eq_refl
                c0 4 1 Gc)
      as (r1 & E1 & _ & G1); [lia|reflexivity|lia|].
    destruct (@current_grid_cached_one_column 1 3 3 (ones [1; 3; 3]) eq_refl
                c0 4 1 Gc)
      as (r2 & E2 & _ & G2); [lia|reflexivity|lia|].
    exists c0, r0, r1, r2.
    split; [exact E0|]. split; [exact E1|]. split; [exact E2|].
    split; [apply Gc|].
    split; apply not_pixel_grid_of_zero_column; try lia.
    + destruct (G1 0 0 1) as [E _]; try lia. exact E.
    + destruct (G2 0 0 1) as [E _]; try lia. exact E.
  - destruct (@current_grid_regenerated 1 2 2 (ones [1; 2; 2]) eq_refl None
                (or_introl eq_refl))
      as (c1 & r1 & E1 & Gc & Gr1).
    exists c1, r1. split; [exact E1|]. split; [exact Gr1|].
    apply (@current_grid_cached_narrow 1 2 3 (ones [1; 2; 3]) eq_refl c1 2 2 Gc);
      lia.
Qed.

(** ** The identity warp *)

Lemma current_grid_adequate (b h w : nat) (depth : tensor R) (st : cache) :
  size depth = [b; h; w] -> cache_adequate st h w ->
  exists r st',
    current_grid depth st = (Ok r, st') /\ is_pixel_grid b h w r.
Proof.
  intros Hd [->|(g & hc & wc & -> & Gg & Hcase)].
  - destruct (@current_grid_regenerated b h w depth Hd None (or_introl eq_refl))
      as (g & r & E & _ & Gr).
    exists r, (Some g). auto.
  - destruct (Nat.lt_ge_cases hc h) as [Hlt|Hge].
    + destruct (@current_grid_regenerated b h w depth Hd (Some g))
        as (g' & r & E & _ & Gr).
      { right. exists g, hc, wc. split; [reflexivity|]. split; [apply Gg|exact Hlt]. }
      exists r, (Some g'). auto.
    + destruct Hcase as [Hlt|Hw]; [lia|].
      destruct (@current_grid_cached_wide b h w depth Hd g hc wc Gg Hge Hw)
        as (r & E & Gr).
      exists r, (Some g). auto.
Qed.

(** pose_vec2mat, entry by entry. *)
Lemma pose_vec2mat_entries (B : nat) (vec : tensor R) :
  size vec = [B; 6] -> well_formed vec ->
  exists T,
    pose_vec2mat vec = Ok T
    /\ size T = [B; 3; 4]
    /\ forall n i, n < B -> i < 3 ->
         (forall j, j < 3 ->
            rget T [n; i; j]
            = mat_entry (mat_mul (mat_mul (Rx (rget vec [n; 3])) (Ry (rget vec [n; 4])))
                                 (Rz (rget vec [n; 5]))) i j)
         /\ rget T [n; i; 3] = rget vec [n; i].
Proof.
  intros Hvec Wvec.
  destruct (@select_column B vec Hvec 3) as (rx & Erx & Srx & Wrx & Grx); [lia|].
  destruct (@select_column B vec Hvec 4) as (ry & Ery & Sry & Wry & Gry); [lia|].
  destruct (@select_column B vec Hvec 5) as (rz & Erz & Srz & Wrz & Grz); [lia|].
  destruct (@translation_column B vec Hvec) as (t3 & tr & Et3 & Etr & Str & Gtr).
  destruct (euler2mat_entries Srz Sry Srx Wrz Wry Wrx) as (Rm & ERm & SRm & GRm).
  destruct (@cat_rot_translation B Rm tr SRm Str) as (T & ET & ST & _ & GT).
  exists T. split.
  { unfold pose_vec2mat. rewrite Et3. cbn [rbind]. rewrite Etr. cbn [rbind].
    rewrite Erx. cbn [rbind]. rewrite Ery. cbn [rbind]. rewrite Erz. cbn [rbind].
    rewrite ERm. cbn [rbind]. exact ET. }
  split; [exact ST|].
  intros n i Hn Hi. destruct (GT n i Hn Hi) as [G1 G2]. split.
  - intros j Hj. rewrite G1, GRm by assumption.
    rewrite Grx, Gry, Grz by assumption. reflexivity.
  - rewrite G2. apply Gtr; assumption.
Qed.

Lemma rotation_zero : mat_mul (mat_mul (Rx 0) (Ry 0)) (Rz 0) = mat_identity.
Proof.
  unfold mat_mul, mat_tabulate, mat_identity, Rx, Ry, Rz.
  cbn [map seq]. unfold mat_entry, sum_n. cbn [map seq nth fold_right].
  rewrite cos_0, sin_0.
  repeat (f_equal; try ring).
Qed.

(** The projection of a zero pose is [K | 0]. *)
Lemma proj_of_zero_pose (b : nat) (K : tensor R) :
  size K = [b; 3; 3] ->
  exists T P,
    pose_vec2mat (tzeros [b; 6]) = Ok T
    /\ bmm K T = Ok P
    /\ size P = [b; 3; 4]
    /\ forall n c, n < b -> c < 3 ->
         (forall k, k < 3 -> rget P [n; c; k] = rget K [n; c; k])
         /\ rget P [n; c; 3] = 0%R.
Proof.
  intros HK.
  destruct (@pose_vec2mat_entries b (tzeros [b; 6]) eq_refl
              (well_formed_tabulate _ _)) as (T & ET & ST & GT).
  destruct (@bmm_entries K T b 3 3 4 HK ST) as (P & EP & SP & _ & GP).
  exists T, P. split; [exact ET|]. split; [exact EP|]. split; [exact SP|].
  intros n c Hn Hc.
  assert (HT : forall m, m < 3 ->
             (forall k, k < 3 -> rget T [n; m; k] = mat_entry mat_identity m k)
             /\ rget T [n; m; 3] = 0%R).
  { intros m Hm. destruct (GT n m Hn Hm) as [G1 G2]. split.
    - intros k Hk. rewrite G1 by exact Hk.
      rewrite !rget_tzeros by in_range_tac. rewrite rotation_zero. reflexivity.
    - rewrite G2. apply rget_tzeros. in_range_tac. }
  destruct (HT 0) as [T0 T03]; [lia|].
  destruct (HT 1) as [T1 T13]; [lia|].
  destruct (HT 2) as [T2 T23]; [lia|].
  split.
  - intros k Hk. rewrite GP, sum_n_3 by lia.
    rewrite T0, T1, T2 by exact Hk.
    destruct (lt3_cases Hk) as [ -> | [ -> | -> ] ];
      unfold mat_entry, mat_identity; cbn [nth]; ring.
  - rewrite GP, sum_n_3 by lia. rewrite T03, T13, T23. ring.
Qed.

Lemma inverse_entries (K Kinv : tensor R) (n c c' : nat) :
  mat_mul (batch_mat K n) (batch_mat Kinv n) = mat_identity ->
  c < 3 -> c' < 3 ->
  (rget K [n; c; 0%nat] * rget Kinv [n; 0%nat; c']
   + (rget K [n; c; 1%nat] * rget Kinv [n; 1%nat; c']
      + (rget K [n; c; 2%nat] * rget Kinv [n; 2%nat; c'] + 0)))%R
  = mat_entry mat_identity c c'.
Proof.
  intros H Hc Hc'. rewrite <- H.
  destruct (lt3_cases Hc) as [ -> | [ -> | -> ] ];
    destruct (lt3_cases Hc') as [ -> | [ -> | -> ] ]; reflexivity.
Qed.

Lemma identity_row_algebra (a0 a1 a2 v00 v01 v02 v10 v11 v12 v20 v21 v22
                            gj gi d e0 e1 e2 : R) :
  (a0 * v00 + (a1 * v10 + (a2 * v20 + 0)) = e0)%R ->
  (a0 * v01 + (a1 * v11 + (a2 * v21 + 0)) = e1)%R ->
  (a0 * v02 + (a1 * v12 + (a2 * v22 + 0)) = e2)%R ->
  (a0 * ((v00 * gj + (v01 * gi + (v02 * 1 + 0))) * d)
   + (a1 * ((v10 * gj + (v11 * gi + (v12 * 1 + 0))) * d)
      + (a2 * ((v20 * gj + (v21 * gi + (v22 * 1 + 0))) * d) + 0)) + 0)%R
  = (d * (e0 * gj + e1 * gi + e2))%R.
Proof. intros <- <- <-. ring. Qed.

Section IdentityWarp.

Variables (b h w : nat) (img depth K Kinv : tensor R) (st : cache).
Hypothesis Hb : 0 < b.
Hypothesis Hh : h <> 1.
Hypothesis Hw : w <> 1.
Hypothesis Himg : size img = [b; 3; h; w].
Hypothesis Hdepth : size depth = [b; h; w].
Hypothesis HK : size K = [b; 3; 3].
Hypothesis HKinv : size Kinv = [b; 3; 3].
Hypothesis Hinv : forall n, n < b ->
    mat_mul (batch_mat K n) (batch_mat Kinv n) = mat_identity.
Hypothesis Hst : cache_adequate st h w.

(** Every stage of a call with a zero pose, for any depth: the projected
    point of pixel (i,j) is the grid cell scaled by the depth, which is
    divided by the clamped depth, normalised and masked. *)
Lemma identity_warp_entries :
  exists cam T P pc X Y Zc Xn Yn out st',
    pixel2cam depth Kinv st = (Ok cam, st')
    /\ pose_vec2mat (tzeros [b; 6]) = Ok T
    /\ bmm K T = Ok P
    /\ pcoords_of cam P = Ok pc
    /\ select 0%R pc 1 0 = Ok X
    /\ select 0%R pc 1 1 = Ok Y
    /\ clamped_Z pc = Ok Zc
    /\ normalize X Zc w = Ok Xn
    /\ normalize Y Zc h = Ok Yn
    /\ src_pixel_coords img depth (tzeros [b; 6]) K Kinv st = (Ok out, st')
    /\ size out = [b; h; w; 2]
    /\ forall n i j, n < b -> i < h -> j < w ->
         let d := rget depth [n; i; j] in
         rget Zc [n; i * w + j] = Rmax d (1 / 1000)
         /\ fget Xn [n; i * w + j] = Fin (norm_coord (d * INR j) d w)
         /\ fget Yn [n; i * w + j] = Fin (norm_coord (d * INR i) d h)
         /\ fget out [n; i; j; 0] = Fin (mask_value (norm_coord (d * INR j) d w))
         /\ fget out [n; i; j; 1] = Fin (mask_value (norm_coord (d * INR i) d h)).
Proof.
  destruct (@current_grid_adequate b h w depth st Hdepth Hst)
    as (r & st' & Eg & Sr & Gr).
  destruct (@pixel2cam_entries b h w depth Kinv Hb Hdepth HKinv st st' r Eg Sr)
    as (cam & Ecam & Scam & Gcam).
  destruct (@proj_of_zero_pose b K HK) as (T & P & ET & EP & SP & GP).
  destruct (@cam2pixel_entries b h w cam P Hb Scam SP Hw Hh)
    as (pc & X & Y & Zc & Xn & Yn & out & Epc & EX & EY & EZc & EXn & EYn
        & Eout & Sout & G).
  exists cam, T, P, pc, X, Y, Zc, Xn, Yn, out, st'.
  repeat (split; [assumption|]).
  split.
  { unfold src_pixel_coords, mbind at 1, lift at 1.
    rewrite Himg, Hdepth, HK, HKinv.
    change (size (tzeros [b; 6])) with [b; 6].
    rewrite validate_conforming.
    unfold mbind at 1, lift at 1. cbn [unpack4].
    unfold mbind. rewrite Ecam. unfold lift.
    rewrite ET. cbn [rbind]. rewrite EP. cbn [rbind]. rewrite Eout.
    reflexivity. }
  split; [exact Sout|].
  intros n i j Hn Hi Hj d.
  destruct (G n i j Hn Hi Hj) as (_ & _ & GZ & GXn & GYn & Go0 & Go1).
  assert (Hproj : forall c, c < 3 ->
             proj_coord cam P n c i j
             = (d * (mat_entry mat_identity c 0%nat * INR j
                     + mat_entry mat_identity c 1%nat * INR i
                     + mat_entry mat_identity c 2%nat))%R).
  { intros c Hc. unfold proj_coord. rewrite sum_n_3.
    destruct (GP n c Hn Hc) as [GPk GP3].
    rewrite !GPk, GP3 by lia.
    rewrite !Gcam, !sum_n_3 by lia.
    destruct (Gr n i j Hn Hi Hj) as (Gj & Gi & G1).
    rewrite Gj, Gi, G1. fold d.
    apply identity_row_algebra; apply inverse_entries; auto. }
  rewrite GZ, Go0, Go1, GXn, GYn, !Hproj by lia.
  unfold mat_entry, mat_identity. cbn [nth].
  split; [f_equal; ring|].
  split; [do 2 f_equal; ring|]. split; [do 2 f_equal; ring|].
  split; do 3 f_equal; ring.
Qed.

End IdentityWarp.

Lemma normalised_in_range (x m : R) :
  (0 <= x <= m)%R -> (0 < m)%R -> (-1 <= 2 * x / m - 1 <= 1)%R.
Proof.
  intros Hx Hm.
  assert (Hq : x = (x / m * m)%R) by (field; lra).
  set (q := (x / m)%R) in *.
  assert (H0 : (0 <= q)%R).
  { destruct (Rle_dec 0 q) as [|Hn]; [assumption|]. exfalso. nra. }
  assert (H1 : (q <= 1)%R).
  { destruct (Rle_dec q 1) as [|Hn]; [assumption|]. exfalso. nra. }
  replace (2 * x / m)%R with (2 * q)%R by (unfold q; field; lra).
  lra.
Qed.

Lemma IZR_pred_nat (m : nat) : IZR (Z.of_nat m - 1) = (INR m - 1)%R.
Proof. rewrite minus_IZR, <- INR_IZR_INZ. reflexivity. Qed.

Lemma grid_coordinate_in_range (k m : nat) :
  k < m -> 2 <= m ->
  (-1 <= 2 * INR k / IZR (Z.of_nat m - 1) - 1 <= 1)%R.
Proof.
  intros Hk Hm. rewrite IZR_pred_nat.
  pose proof (le_INR _ _ Hm) as H2. cbn [INR] in H2.
  pose proof (pos_INR k) as H0.
  assert (Hle : (INR k <= INR m - 1)%R).
  { replace (INR m - 1)%R with (INR (m - 1)).
    - apply le_INR. lia.
    - rewrite minus_INR by lia. reflexivity. }
  apply normalised_in_range; lra.
Qed.

Lemma K_id_inverse (n : nat) :
  n < 1 -> mat_mul (batch_mat K_id n) (batch_mat K_id n) = mat_identity.
Proof.
  intros Hn. assert (n = 0) by lia. subst n.
  unfold mat_mul, batch_mat, mat_tabulate, mat_identity.
  cbn [map seq]. unfold mat_entry, sum_n. cbn [map seq nth fold_right].
  unfold rget, tget.
  cbn [K_id size data ravel numel fold_right nth Nat.mul Nat.add].
  repeat (f_equal; try ring).
Qed.

Lemma grid_coordinate_interior (k m : nat) :
  0 < k < m - 1 ->
  (-1 < 2 * INR k / IZR (Z.of_nat m - 1) - 1 < 1)%R.
Proof.
  intros Hk. rewrite IZR_pred_nat.
  assert (H0 : (0 < INR k)%R) by (apply lt_0_INR; lia).
  assert (Hlt : (INR k < INR m - 1)%R).
  { replace (INR m - 1)%R with (INR (m - 1)).
    - apply lt_INR. lia.
    - rewrite minus_INR by lia. reflexivity. }
  set (M := (INR m - 1)%R) in *.
  assert (Hq : INR k = (INR k / M * M)%R) by (field; lra).
  replace (2 * INR k / M)%R with (2 * (INR k / M))%R by (field; lra).
  set (q := (INR k / M)%R) in *.
  assert (Hq0 : (0 < q)%R).
  { destruct (Rlt_dec 0 q) as [|Hn]; [assumption|]. exfalso. nra. }
  assert (Hq1 : (q < 1)%R).
  { destruct (Rlt_dec q 1) as [|Hn]; [assumption|]. exfalso. nra. }
  lra.
Qed.

(** C1 as amended: for a call with a zero pose, K_inv the inverse of K,
    every depth value at least 1/1000, H and W at least 2 and a cache that
    is empty or serves the request, the clamp of Z changes nothing and the
    normalised coordinates computed by lines 58 and 61 for pixel (i,j) are
    (2*j/(W-1) - 1, 2*i/(H-1) - 1); these are the values of the source's
    expressions over the reals, which the program matches up to rounding.
    For a pixel off the first and last column the X coordinate lies strictly
    inside (-1, 1), is not masked and is the X output; likewise for the rows
    and Y.  On the first and last column (row) the exact value is -1 or 1,
    which sits on the threshold of the mask of lines 59 and 62: nothing is
    stated about the output there. *)
Theorem identity_warp_round_trip (b h w : nat) (img depth K Kinv : tensor R)
    (st : cache) :
  0 < b -> 2 <= h -> 2 <= w ->
  size img = [b; 3; h; w] -> size depth = [b; h; w] ->
  size K = [b; 3; 3] -> size Kinv = [b; 3; 3] ->
  (forall n, n < b -> mat_mul (batch_mat K n) (batch_mat Kinv n) = mat_identity) ->
  (forall n i j, n < b -> i < h -> j < w -> (1 / 1000 <= rget depth [n; i; j])%R) ->
  cache_adequate st h w ->
  exists cam T P pc X Y Zc Xn Yn out st',
    pixel2cam depth Kinv st = (Ok cam, st')
    /\ pose_vec2mat (tzeros [b; 6]) = Ok T
    /\ bmm K T = Ok P
    /\ pcoords_of cam P = Ok pc
    /\ select 0%R pc 1 0 = Ok X
    /\ select 0%R pc 1 1 = Ok Y
    /\ clamped_Z pc = Ok Zc
    /\ normalize X Zc w = Ok Xn
    /\ normalize Y Zc h = Ok Yn
    /\ src_pixel_coords img depth (tzeros [b; 6]) K Kinv st = (Ok out, st')
    /\ size out = [b; h; w; 2]
    /\ forall n i j, n < b -> i < h -> j < w ->
         let gx := (2 * INR j / IZR (Z.of_nat w - 1) - 1)%R in
         let gy := (2 * INR i / IZR (Z.of_nat h - 1) - 1)%R in
         rget Zc [n; i * w + j] = rget depth [n; i; j]
         /\ fget Xn [n; i * w + j] = Fin gx
         /\ fget Yn [n; i * w + j] = Fin gy
         /\ (0 < j < w - 1 -> (-1 < gx < 1)%R /\ fget out [n; i; j; 0] = Fin gx)
         /\ (0 < i < h - 1 -> (-1 < gy < 1)%R /\ fget out [n; i; j; 1] = Fin gy).
Proof.
  intros Hb Hh Hw Himg Hdepth HK HKinv Hinv Hd Hst.
  destruct (@identity_warp_entries b h w img depth K Kinv st)
    as (cam & T & P & pc & X & Y & Zc & Xn & Yn & out & st' & Ecam & ET & EP
        & Epc & EX & EY & EZc & EXn & EYn & E & S & G); try assumption; try lia.
  exists cam, T, P, pc, X, Y, Zc, Xn, Yn, out, st'.
  repeat (split; [assumption|]).
  intros n i j Hn Hi Hj gx gy.
  destruct (G n i j Hn Hi Hj) as (GZ & GXn & GYn & G0 & G1).
  cbn zeta in GZ, GXn, GYn, G0, G1.
  specialize (Hd n i j Hn Hi Hj).
  set (d := rget depth [n; i; j]) in *.
  assert (EXg : norm_coord (d * INR j) d w = gx).
  { unfold norm_coord, gx. rewrite Rmax_left by exact Hd.
    replace (d * INR j / d)%R with (INR j) by (field; lra).
    reflexivity. }
  assert (EYg : norm_coord (d * INR i) d h = gy).
  { unfold norm_coord, gy. rewrite Rmax_left by exact Hd.
    replace (d * INR i / d)%R with (INR i) by (field; lra).
    reflexivity. }
  rewrite EXg in GXn, G0. rewrite EYg in GYn, G1.
  split; [rewrite GZ; apply Rmax_left; exact Hd|].
  split; [exact GXn|]. split; [exact GYn|].
  split.
  - intros Hj'. pose proof (@grid_coordinate_interior j w Hj') as Hr.
    fold gx in Hr. split; [exact Hr|].
    rewrite G0, mask_value_inside by lra. reflexivity.
  - intros Hi'. pose proof (@grid_coordinate_interior i h Hi') as Hr.
    fold gy in Hr. split; [exact Hr|].
    rewrite G1, mask_value_inside by lra. reflexivity.
Qed.

Lemma identity_warp_round_trip_witness :
  exists cam T P pc X Y Zc Xn Yn out st',
    pixel2cam (ones [1; 3; 3]) K_id None = (Ok cam, st')
    /\ pose_vec2mat (tzeros [1; 6]) = Ok T
    /\ bmm K_id T = Ok P
    /\ pcoords_of cam P = Ok pc
    /\ select 0%R pc 1 0 = Ok X
    /\ select 0%R pc 1 1 = Ok Y
    /\ clamped_Z pc = Ok Zc
    /\ normalize X Zc 3 = Ok Xn
    /\ normalize Y Zc 3 = Ok Yn
    /\ src_pixel_coords (tzeros [1; 3; 3; 3]) (ones [1; 3; 3]) (tzeros [1; 6])
                        K_id K_id None = (Ok out, st')
    /\ size out = [1; 3; 3; 2]
    /\ fget Xn [0; 1 * 3 + 2] = Fin 1
    /\ fget out [0; 1; 1; 0] = Fin 0
    /\ fget out [0; 1; 1; 1] = Fin 0.
Proof.
  destruct (@identity_warp_round_trip 1 3 3 (tzeros [1; 3; 3; 3]) (ones [1; 3; 3])
              K_id K_id None)
    as (cam & T & P & pc & X & Y & Zc & Xn & Yn & out & st' & Ecam & ET & EP
        & Epc & EX & EY & EZc & EXn & EYn & E & S & G);
    try lia; try reflexivity.
  - exact K_id_inverse.
  - intros n i j Hn Hi Hj. unfold rget, ones.
    rewrite tget_tabulate by in_range_tac. lra.
  - left. reflexivity.
  - exists cam, T, P, pc, X, Y, Zc, Xn, Yn, out, st'.
    repeat (split; [assumption|]).
    destruct (G 0 1 2) as (_ & GX2 & _); [lia|lia|lia|].
    destruct (G 0 1 1) as (_ & _ & _ & G0 & G1); [lia|lia|lia|].
    destruct G0 as [_ G0]; [lia|]. destruct G1 as [_ G1]; [lia|].
    split; [rewrite GX2; f_equal; cbn [INR]; change (Z.of_nat 3 - 1)%Z with 2%Z; lra|].
    split; [rewrite G0|rewrite G1]; f_equal; cbn [INR];
      change (Z.of_nat 3 - 1)%Z with 2%Z; lra.
Defined.

(** C1 as stated fails on a positive depth below the clamp bound: with
    identity intrinsics, a zero pose and the constant depth 1/10000 on a 2x3
    map, the X coordinate of pixel (0,1) is -9/10, not 2*1/(3-1) - 1 = 0. *)
Lemma identity_warp_fails_below_clamp :
  (forall n i j, n < 1 -> i < 2 -> j < 3 -> (0 < rget depth_small [n; i; j])%R)
  /\ (forall n, n < 1 ->
        mat_mul (batch_mat K_id n) (batch_mat K_id n) = mat_identity)
  /\ exists out st',
       src_pixel_coords (tzeros [1; 3; 2; 3]) depth_small (tzeros [1; 6])
                        K_id K_id None = (Ok out, st')
       /\ fget out [0; 0; 1; 0] = Fin (- 9 / 10)
       /\ fget out [0; 0; 1; 0] <> Fin (2 * INR 1 / IZR (Z.of_nat 3 - 1) - 1).
Proof.
  assert (Hd : forall n i j, n < 1 -> i < 2 -> j < 3 ->
                 rget depth_small [n; i; j] = (1 / 10000)%R).
  { intros n i j Hn Hi Hj. unfold rget, depth_small.
    rewrite tget_tabulate by in_range_tac. reflexivity. }
  split; [intros n i j Hn Hi Hj; rewrite Hd by assumption; lra|].
  split; [exact K_id_inverse|].
  destruct (@identity_warp_entries 1 2 3 (tzeros [1; 3; 2; 3]) depth_small
              K_id K_id None)
    as (cam & T & P & pc & X & Y & Zc & Xn & Yn & out & st' & _ & _ & _ & _
        & _ & _ & _ & _ & _ & E & _ & G);
    try lia; try reflexivity; [exact K_id_inverse|left; reflexivity|].
  exists out, st'. split; [exact E|].
  destruct (G 0 0 1) as (_ & _ & _ & G0 & _); try lia. cbn zeta in G0.
  rewrite Hd in G0 by lia.
  assert (EX : norm_coord (1 / 10000 * INR 1) (1 / 10000) 3 = (- 9 / 10)%R).
  { unfold norm_coord. cbn [INR].
    rewrite Rmax_right by lra.
    change (Z.of_nat 3 - 1)%Z with 2%Z. field. }
  rewrite EX in G0. rewrite mask_value_inside in G0 by lra.
  split; [exact G0|].
  rewrite G0. intros H. injection H as H. cbn [INR] in H.
  change (Z.of_nat 3 - 1)%Z with 2%Z in H. lra.
Qed.

(** ** The validation of inverse_warp *)

Lemma check_loop_no_index_error (sz : list nat) (expected : list ascii) :
  forall i condition,
    i + length expected <= length sz ->
    exists c, check_loop sz i expected condition = Ok c.
Proof.
  induction expected as [|ch rest IH]; intros i condition Hlen.
  - exists condition. reflexivity.
  - cbn [check_loop]. cbn [length] in Hlen.
    destruct (isdigit ch).
    + unfold size_at.
      destruct (nth_error sz i) as [d|] eqn:E.
      * cbn [rbind]. apply IH. lia.
      * apply nth_error_None in E. lia.
    + apply IH. lia.
Qed.

(** With the rank of the pattern, check_sizes passes or raises the
    assertion whose message holds the name it was given, the pattern joined
    by x, and the size of the input. *)
Lemma check_sizes_right_rank (sz : list nat) (input_name expected : string) :
  length sz = length (list_ascii_of_string expected) ->
  check_sizes sz input_name expected = Ok tt
  \/ check_sizes sz input_name expected
     = Raise (AssertionError
                (wrong_size_msg input_name (list_ascii_of_string expected) sz)).
Proof.
  intros Hlen. unfold check_sizes.
  destruct (@check_loop_no_index_error sz (list_ascii_of_string expected) 0
              [length sz =? length (list_ascii_of_string expected)])
    as (c & Ec); [cbn [Nat.add]; lia|].
  rewrite Ec. cbn [rbind].
  destruct (forallb (fun b => b) c); [left|right]; reflexivity.
Qed.

Ltac split_size sz :=
  destruct sz as [|? [|? [|? [|? [|? ?]]]]].

Ltac check_cases :=
  unfold check_sizes;
  cbn [list_ascii_of_string check_loop];
  repeat match goal with
         | |- context [isdigit ?c] =>
             let v := eval vm_compute in (isdigit c) in
             change (isdigit c) with v
         | |- context [int_of_digit ?c] =>
             let v := eval vm_compute in (int_of_digit c) in
             change (int_of_digit c) with v
         end;
  cbn [size_at nth_error length Nat.eqb forallb rbind app andb].

(** What each of the four patterns accepts. *)
Ltac check_accepts sz :=
  split_size sz; check_cases; intros E; try discriminate;
  repeat match type of E with
         | context [?d =? ?k] =>
             destruct (Nat.eqb_spec d k); [subst|cbn [andb] in E; discriminate]
         end;
  eauto.

Lemma check_sizes_B3HW (sz : list nat) (name : string) :
  check_sizes sz name "B3HW" = Ok tt <-> exists B H W, sz = [B; 3; H; W].
Proof.
  split; [check_accepts sz|].
  intros (B & H & W & ->). reflexivity.
Qed.

Lemma check_sizes_BHW (sz : list nat) (name : string) :
  check_sizes sz name "BHW" = Ok tt <-> exists B H W, sz = [B; H; W].
Proof.
  split; [check_accepts sz|].
  intros (B & H & W & ->). reflexivity.
Qed.

Lemma check_sizes_B6 (sz : list nat) (name : string) :
  check_sizes sz name "B6" = Ok tt <-> exists B, sz = [B; 6].
Proof.
  split; [check_accepts sz|].
  intros (B & ->). reflexivity.
Qed.

Lemma check_sizes_B33 (sz : list nat) (name : string) :
  check_sizes sz name "B33" = Ok tt <-> exists B, sz = [B; 3; 3].
Proof.
  split; [check_accepts sz|].
  intros (B & ->). reflexivity.
Qed.

(** The validation passes exactly on size vectors of the documented
    ranks and fixed dimensions, with intrinsics and intrinsics_inv of one
    size; every other input makes it raise. *)
Lemma validate_ok_iff (img depth pose K Kinv : list nat) :
  validate img depth pose K Kinv = Ok tt
  <-> (exists B H W, img = [B; 3; H; W])
      /\ (exists B H W, depth = [B; H; W])
      /\ (exists B, pose = [B; 6])
      /\ (exists B, K = [B; 3; 3] /\ Kinv = [B; 3; 3]).
Proof.
  unfold validate. split.
  - intros E.
    destruct (check_sizes img "img" "B3HW") as [[]|] eqn:E1; [|discriminate].
    destruct (check_sizes depth "depth" "BHW") as [[]|] eqn:E2; [|discriminate].
    destruct (check_sizes pose "pose" "B6") as [[]|] eqn:E3; [|discriminate].
    destruct (check_sizes K "intrinsics" "B33") as [[]|] eqn:E4; [|discriminate].
    destruct (check_sizes Kinv "intrinsics" "B33") as [[]|] eqn:E5; [|discriminate].
    cbn [rbind] in E.
    destruct (list_eqb Kinv K) eqn:E6; [|discriminate].
    apply list_eqb_eq in E6. subst Kinv.
    apply check_sizes_B3HW in E1. apply check_sizes_BHW in E2.
    apply check_sizes_B6 in E3. apply check_sizes_B33 in E4.
    destruct E4 as (B & ->). eauto 8.
  - intros ((B1 & H1 & W1 & ->) & (B2 & H2 & W2 & ->) & (B3 & ->)
            & (B4 & -> & ->)).
    cbn [rbind]. unfold list_eqb. cbn [forallb2]. rewrite Nat.eqb_refl.
    reflexivity.
Qed.

(** A failed validation is the outcome of the call, and the cache is as
    it was: nothing has been computed. *)
Lemma validation_failure_is_early
    (grid_sample : tensor R -> tensor fval -> result (tensor R))
    (img depth pose K Kinv : tensor R) (st : cache) (e : exn) :
  validate (size img) (size depth) (size pose) (size K) (size Kinv) = Raise e ->
  src_pixel_coords img depth pose K Kinv st = (Raise e, st)
  /\ inverse_warp grid_sample img depth pose K Kinv st = (Raise e, st).
Proof.
  intros E.
  assert (H : src_pixel_coords img depth pose K Kinv st = (Raise e, st))
    by (unfold src_pixel_coords, mbind at 1, lift at 1; rewrite E; reflexivity).
  split; [exact H|].
  unfold inverse_warp, mbind. rewrite H. reflexivity.
Qed.

(** C2 at its failing inputs.  (1) An intrinsics_inv of size [1,3,4], with
    every other argument well sized: the assertion names intrinsics, the
    argument that is well sized.  (2) A pose of rank 1: the failure is an
    IndexError raised by [input.size(1)], with no message.  (3) For
    comparison, an intrinsics of size [1,3,4] gets the same message as (1). *)
Theorem validation_error_reports :
  validate [1; 3; 4; 4] [1; 4; 4] [1; 6] [1; 3; 3] [1; 3; 4]
  = Raise (AssertionError "wrong size for intrinsics, expected Bx3x3, got  [1, 3, 4]")
  /\ validate [1; 3; 4; 4] [1; 4; 4] [6] [1; 3; 3] [1; 3; 3] = Raise IndexError
  /\ validate [1; 3; 4; 4] [1; 4; 4] [1; 6] [1; 3; 4] [1; 3; 3]
     = Raise (AssertionError "wrong size for intrinsics, expected Bx3x3, got  [1, 3, 4]").
Proof. repeat split; reflexivity. Qed.

(** For comparison with the failing inputs: on sizes of the documented
    forms, with a non-empty batch, H and W other than 1, and a cache that
    serves the request, the call reaches the sampler with coordinates of
    size [B,H,W,2] and returns what the sampler returns. *)
Lemma inverse_warp_conforming
    (grid_sample : tensor R -> tensor fval -> result (tensor R))
    (b h w : nat) (img depth pose K Kinv : tensor R) (st : cache) :
  0 < b -> h <> 1 -> w <> 1 ->
  size img = [b; 3; h; w] -> size depth = [b; h; w] -> size pose = [b; 6] ->
  size K = [b; 3; 3] -> size Kinv = [b; 3; 3] ->
  well_formed pose ->
  cache_adequate st h w ->
  (forall coords, size coords = [b; h; w; 2] ->
     exists o, grid_sample img coords = Ok o /\ size o = [b; 3; h; w]) ->
  exists o st',
    inverse_warp grid_sample img depth pose K Kinv st = (Ok o, st')
    /\ size o = [b; 3; h; w].
Proof.
  intros Hb Hh Hw Himg Hdepth Hpose HK HKinv Wpose Hst Hgs.
  destruct (@current_grid_adequate b h w depth st Hdepth Hst)
    as (r & st' & Eg & Sr & _).
  destruct (@pixel2cam_entries b h w depth Kinv Hb Hdepth HKinv st st' r Eg Sr)
    as (cam & Ecam & Scam & _).
  destruct (@pose_vec2mat_entries b pose Hpose Wpose) as (T & ET & ST & _).
  destruct (@bmm_entries K T b 3 3 4 HK ST) as (P & EP & SP & _).
  destruct (@cam2pixel_entries b h w cam P Hb Scam SP Hw Hh)
    as (pc & X & Y & Zc & Xn & Yn & out & _ & _ & _ & _ & _ & _ & Eout & Sout & _).
  destruct (Hgs out Sout) as (o & Eo & So).
  exists o, st'. split; [|exact So].
  unfold inverse_warp, mbind at 1.
  unfold src_pixel_coords, mbind at 1, lift at 1.
  rewrite Himg, Hdepth, Hpose, HK, HKinv, validate_conforming.
  unfold mbind at 1, lift at 1. cbn [unpack4].
  unfold mbind. rewrite Ecam. unfold lift.
  rewrite ET. cbn [rbind]. rewrite EP. cbn [rbind]. rewrite Eout.
  rewrite Eo. reflexivity.
Qed.

(** * Further properties of the code *)

(** ** check_sizes on an arbitrary pattern *)

(** The loop of check_sizes either meets a digit of the pattern at a
    position past the rank and raises IndexError, or returns the conditions
    it was given followed by one comparison per digit. *)
Lemma check_loop_outcome (sz : list nat) (expected : list ascii) :
  forall i condition,
    (check_loop sz i expected condition = Raise IndexError
     /\ exists k c, nth_error expected k = Some c /\ isdigit c = true
                    /\ length sz <= i + k)
    \/ (exists extra,
          check_loop sz i expected condition = Ok (condition ++ extra)
          /\ (forall k c, nth_error expected k = Some c -> isdigit c = true ->
                i + k < length sz)
          /\ (forallb (fun b => b) extra = true
              <-> forall k c, nth_error expected k = Some c -> isdigit c = true ->
                    nth_error sz (i + k) = Some (int_of_digit c))).
Proof.
  induction expected as [|ch rest IH]; intros i condition.
  - right. exists []. rewrite app_nil_r. split; [reflexivity|].
    split; [intros [|k] c E; discriminate|].
    split; [intros _ [|k] c E; discriminate|reflexivity].
  - cbn [check_loop]. destruct (isdigit ch) eqn:Edig.
    + unfold size_at. destruct (nth_error sz i) as [d|] eqn:Ed.
      * cbn [rbind].
        destruct (IH (S i) (condition ++ [d =? int_of_digit ch]))
          as [(E & k & c & Ek & Ec & Hle)|(extra & E & Hlt & Hall)].
        -- left. split; [exact E|]. exists (S k), c. cbn [nth_error].
           repeat split; try assumption. lia.
        -- right. exists ((d =? int_of_digit ch) :: extra).
           split; [rewrite E, <- app_assoc; reflexivity|]. split.
           ++ intros [|k] c Ek Ec.
              ** rewrite Nat.add_0_r. apply nth_error_Some. congruence.
              ** cbn [nth_error] in Ek. specialize (Hlt k c Ek Ec). lia.
           ++ cbn [forallb]. rewrite andb_true_iff, Hall, Nat.eqb_eq. split.
              ** intros [Hd Hrest] [|k] c Ek Ec.
                 --- cbn [nth_error] in Ek. injection Ek as <-.
                     rewrite Nat.add_0_r, Ed, Hd. reflexivity.
                 --- cbn [nth_error] in Ek.
                     replace (i + S k) with (S i + k) by lia. auto.
              ** intros H. split.
                 --- specialize (H 0 ch eq_refl Edig).
                     rewrite Nat.add_0_r, Ed in H. congruence.
                 --- intros k c Ek Ec.
                     replace (S i + k) with (i + S k) by lia.
                     apply H; assumption.
      * left. split; [reflexivity|]. exists 0, ch.
        repeat split; try assumption.
        apply nth_error_None in Ed. lia.
    + destruct (IH (S i) condition)
        as [(E & k & c & Ek & Ec & Hle)|(extra & E & Hlt & Hall)].
      * left. split; [exact E|]. exists (S k), c. cbn [nth_error].
        repeat split; try assumption. lia.
      * right. exists extra. split; [exact E|]. split.
        -- intros [|k] c Ek Ec.
           ++ cbn [nth_error] in Ek. congruence.
           ++ cbn [nth_error] in Ek. specialize (Hlt k c Ek Ec). lia.
        -- rewrite Hall. split.
           ++ intros H [|k] c Ek Ec.
              ** cbn [nth_error] in Ek. congruence.
              ** cbn [nth_error] in Ek.
                 replace (i + S k) with (S i + k) by lia. auto.
           ++ intros H k c Ek Ec.
              replace (S i + k) with (i + S k) by lia.
              apply H; assumption.
Qed.

(** X1: check_sizes passes exactly when the input has the rank of the
    pattern and, at every digit of the pattern, the dimension of that
    value; letters of the pattern put no condition on the dimension. *)
Theorem check_sizes_accepts_iff (sz : list nat) (input_name expected : string) :
  check_sizes sz input_name expected = Ok tt
  <-> length sz = length (list_ascii_of_string expected)
      /\ forall k c, nth_error (list_ascii_of_string expected) k = Some c ->
                     isdigit c = true ->
                     nth_error sz k = Some (int_of_digit c).
Proof.
  unfold check_sizes. set (pat := list_ascii_of_string expected).
  destruct (@check_loop_outcome sz pat 0 [length sz =? length pat])
    as [(E & k & c & Ek & Ec & Hle)|(extra & E & Hlt & Hall)];
    rewrite E; cbn [rbind Nat.add app forallb] in *.
  - split; [discriminate|].
    intros [_ H]. specialize (H k c Ek Ec).
    assert (k < length sz) by (apply nth_error_Some; congruence). lia.
  - destruct ((length sz =? length pat) && forallb (fun b => b) extra) eqn:Eb.
    + apply andb_true_iff in Eb as [E1 E2].
      split; [intros _|reflexivity].
      split; [apply Nat.eqb_eq; exact E1|apply Hall; exact E2].
    + split; [discriminate|].
      intros [H1 H2]. apply Nat.eqb_eq in H1. apply Hall in H2.
      rewrite H1, H2 in Eb. discriminate.
Qed.

(** X2: when check_sizes fails, it raises IndexError exactly when a digit
    of the pattern sits at a position past the rank of the input, and
    otherwise the assertion whose message holds the name it was given, the
    pattern joined by x and the size of the input; an input whose rank is
    not that of the pattern never passes. *)
Theorem check_sizes_failure_kind (sz : list nat) (input_name expected : string) :
  (check_sizes sz input_name expected = Raise IndexError
   <-> exists k c, nth_error (list_ascii_of_string expected) k = Some c
                   /\ isdigit c = true /\ length sz <= k)
  /\ (forall e, check_sizes sz input_name expected = Raise e ->
        e = IndexError
        \/ e = AssertionError
                 (wrong_size_msg input_name (list_ascii_of_string expected) sz))
  /\ (length sz <> length (list_ascii_of_string expected) ->
      check_sizes sz input_name expected <> Ok tt).
Proof.
  unfold check_sizes. set (pat := list_ascii_of_string expected).
  destruct (@check_loop_outcome sz pat 0 [length sz =? length pat])
    as [(E & k & c & Ek & Ec & Hle)|(extra & E & Hlt & Hall)];
    rewrite E; cbn [rbind Nat.add app forallb] in *.
  - split; [split; [intros _; eauto|reflexivity]|].
    split; [intros e He; left; congruence|discriminate].
  - split; [|split].
    + split.
      * destruct ((length sz =? length pat) && forallb (fun b => b) extra);
          discriminate.
      * intros (k & c & Ek & Ec & Hle). specialize (Hlt k c Ek Ec). lia.
    + intros e He.
      destruct ((length sz =? length pat) && forallb (fun b => b) extra);
        [discriminate|]. right. congruence.
    + intros Hne. apply Nat.eqb_neq in Hne. rewrite Hne. discriminate.
Qed.

Lemma check_sizes_failure_kind_witness :
  check_sizes [6] "pose" "B6" = Raise IndexError
  /\ check_sizes [2; 5; 7] "pose" "B6" <> Ok tt.
Proof.
  split.
  - apply (proj1 (@check_sizes_failure_kind [6] "pose" "B6")).
    exists 1, "6"%char. repeat split; cbn [length]; lia.
  - apply (proj2 (proj2 (@check_sizes_failure_kind [2; 5; 7] "pose" "B6"))).
    cbn [length list_ascii_of_string]. lia.
Defined.

(** ** The validation of inverse_warp and what it leaves unchecked *)

Lemma validate_all_sizes (B1 H1 W1 B2 H2 W2 B3 B4 : nat) :
  validate [B1; 3; H1; W1] [B2; H2; W2] [B3; 6] [B4; 3; 3] [B4; 3; 3] = Ok tt.
Proof.
  apply validate_ok_iff.
  split; [exists B1, H1, W1; reflexivity|].
  split; [exists B2, H2, W2; reflexivity|].
  split; [exists B3; reflexivity|].
  exists B4. split; reflexivity.
Qed.

(** X3: the validation of inverse_warp passes exactly on an img of size
    [_,3,_,_], a depth of rank 3, a pose of size [_,6] and intrinsics and
    intrinsics_inv of one size [_,3,3].  B, H and W are never compared
    between img, depth, pose and the intrinsics: sizes that disagree on them
    pass. *)
Theorem validation_accepts_exactly :
  (forall img depth pose K Kinv,
      validate img depth pose K Kinv = Ok tt
      <-> (exists B H W, img = [B; 3; H; W])
          /\ (exists B H W, depth = [B; H; W])
          /\ (exists B, pose = [B; 6])
          /\ (exists B, K = [B; 3; 3] /\ Kinv = [B; 3; 3]))
  /\ (forall B1 H1 W1 B2 H2 W2 B3 B4,
        validate [B1; 3; H1; W1] [B2; H2; W2] [B3; 6] [B4; 3; 3] [B4; 3; 3]
        = Ok tt)
  /\ (forall B H W B',
        B' <> B ->
        validate [B; 3; H; W] [B; H; W] [B; 6] [B; 3; 3] [B'; 3; 3]
        = Raise (AssertionError EmptyString)).
Proof.
  split; [exact validate_ok_iff|]. split.
  - exact validate_all_sizes.
  - intros B H W B' Hne. unfold validate.
    assert (E1 : check_sizes [B; 3; H; W] "img" "B3HW" = Ok tt)
      by (apply check_sizes_B3HW; eauto).
    assert (E2 : check_sizes [B; H; W] "depth" "BHW" = Ok tt)
      by (apply check_sizes_BHW; eauto).
    assert (E3 : check_sizes [B; 6] "pose" "B6" = Ok tt)
      by (apply check_sizes_B6; eauto).
    assert (E4 : forall b, check_sizes [b; 3; 3] "intrinsics" "B33" = Ok tt)
      by (intros b; apply check_sizes_B33; eauto).
    rewrite E1, E2, E3, !E4. cbn [rbind].
    unfold list_eqb. cbn [forallb2].
    apply Nat.eqb_neq in Hne. rewrite Hne. reflexivity.
Qed.

Lemma validation_accepts_exactly_witness :
  validate [2; 3; 4; 5] [2; 4; 5] [2; 6] [2; 3; 3] [7; 3; 3]
  = Raise (AssertionError EmptyString).
Proof.
  apply (proj2 (proj2 validation_accepts_exactly) 2 4 5 7). lia.
Defined.

(** X4: when the validation fails, inverse_warp raises that error, the
    cached grid is left as it was and the sampler is not consulted: the
    outcome is the same for every sampler. *)
Theorem failed_validation_stops_the_call
    (gs1 gs2 : tensor R -> tensor fval -> result (tensor R))
    (img depth pose K Kinv : tensor R) (st : cache) (e : exn) :
  validate (size img) (size depth) (size pose) (size K) (size Kinv) = Raise e ->
  inverse_warp gs1 img depth pose K Kinv st = (Raise e, st)
  /\ inverse_warp gs2 img depth pose K Kinv st = (Raise e, st).
Proof.
  intros E. split.
  - apply (@validation_failure_is_early gs1 img depth pose K Kinv st e E).
  - apply (@validation_failure_is_early gs2 img depth pose K Kinv st e E).
Qed.

Lemma failed_validation_stops_the_call_witness :
  inverse_warp (fun _ _ => Ok (tzeros [1])) (tzeros [1; 3; 2; 2])
    (tzeros [1; 2; 2]) (tzeros [6]) K_id K_id None
  = (Raise IndexError, None)
  /\ inverse_warp (fun _ _ => Raise RuntimeError) (tzeros [1; 3; 2; 2])
       (tzeros [1; 2; 2]) (tzeros [6]) K_id K_id None
     = (Raise IndexError, None).
Proof.
  apply (@failed_validation_stops_the_call
           (fun _ _ => Ok (tzeros [1])) (fun _ _ => Raise RuntimeError)
           (tzeros [1; 3; 2; 2]) (tzeros [1; 2; 2]) (tzeros [6]) K_id K_id
           None IndexError).
  reflexivity.
Defined.

(** X5: a depth map whose batch size differs from that of the intrinsics
    passes the validation; the call then fails in the batched product of
    pixel2cam with a RuntimeError, after the grid has been generated and
    stored: from an empty cache, the cache holds the grid of the depth map
    once the call has failed. *)
Theorem batch_mismatch_fails_after_caching (b bd h w : nat)
    (img depth pose K Kinv : tensor R) :
  0 < bd -> bd <> b ->
  size img = [b; 3; h; w] -> size depth = [bd; h; w] -> size pose = [b; 6] ->
  size K = [b; 3; 3] -> size Kinv = [b; 3; 3] ->
  validate (size img) (size depth) (size pose) (size K) (size Kinv) = Ok tt
  /\ exists g,
       src_pixel_coords img depth pose K Kinv None = (Raise RuntimeError, Some g)
       /\ is_pixel_grid 1 h w g.
Proof.
  intros Hbd Hne Himg Hdepth Hpose HK HKinv.
  assert (Ev : validate (size img) (size depth) (size pose) (size K) (size Kinv)
               = Ok tt).
  { rewrite Himg, Hdepth, Hpose, HK, HKinv.
    apply validate_all_sizes. }
  split; [exact Ev|].
  destruct (@current_grid_regenerated bd h w depth Hdepth None (or_introl eq_refl))
    as (g & r & Eg & Gg & [Sr _]).
  exists g. split; [|exact Gg].
  unfold src_pixel_coords, mbind at 1, lift at 1. rewrite Ev.
  unfold mbind at 1, lift at 1. rewrite Himg. cbn [unpack4].
  unfold mbind at 1.
  unfold pixel2cam, mbind at 1, lift at 1. rewrite Hdepth. cbn [unpack3].
  unfold mbind at 1. rewrite Eg. unfold lift.
  rewrite (@view_infer_ok _ r [bd; 3] (h * w))
    by (rewrite ?Sr; cbn [numel fold_right]; lia).
  cbn [rbind app]. unfold bmm. rewrite HKinv. cbn [size].
  apply not_eq_sym, Nat.eqb_neq in Hne. rewrite Hne. reflexivity.
Qed.

Lemma batch_mismatch_fails_after_caching_witness :
  validate [1; 3; 2; 2] [2; 2; 2] [1; 6] [1; 3; 3] [1; 3; 3] = Ok tt
  /\ exists g,
       src_pixel_coords (tzeros [1; 3; 2; 2]) (tzeros [2; 2; 2]) (tzeros [1; 6])
                        K_id K_id None = (Raise RuntimeError, Some g)
       /\ is_pixel_grid 1 2 2 g.
Proof.
  apply (@batch_mismatch_fails_after_caching 1 2 2 2
           (tzeros [1; 3; 2; 2]) (tzeros [2; 2; 2]) (tzeros [1; 6]) K_id K_id);
    try lia; reflexivity.
Defined.

(** ** The cached grid across calls of pixel2cam *)

(** pixel2cam changes the global only through lines 36-37. *)
Lemma pixel2cam_state (b h w : nat) (depth Kinv : tensor R) (st : cache) :
  size depth = [b; h; w] ->
  snd (pixel2cam depth Kinv st) = snd (current_grid depth st).
Proof.
  intros Hd. unfold pixel2cam, mbind at 1, lift at 1. rewrite Hd.
  cbn [unpack3]. unfold mbind.
  destruct (current_grid depth st) as [[r|e] st']; reflexivity.
Qed.

Lemma current_grid_keeps_high_cache (b h w hc wc : nat) (depth g0 : tensor R) :
  size depth = [b; h; w] -> size g0 = [1; 3; hc; wc] -> h <= hc ->
  snd (current_grid depth (Some g0)) = Some g0.
Proof.
  intros Hd S0 Hle.
  rewrite (@current_grid_unfold b h w depth Hd (Some g0) g0
             (@refresh_grid_keeps h depth g0 hc wc S0 Hle)).
  reflexivity.
Qed.

(** X6: whatever a call of pixel2cam returns or raises, it leaves in the
    cache a correct grid at least as high as its depth map.  A cached grid
    that is high enough is kept as it is, whatever its width; a lower one is
    replaced by a grid of exactly the size of the depth map, so that the
    cached height never decreases while the cached width can. *)
Theorem pixel2cam_keeps_cache_a_grid (b h w : nat) (depth Kinv : tensor R)
    (st : cache) :
  size depth = [b; h; w] ->
  (st = None \/ exists g hc wc, st = Some g /\ is_pixel_grid 1 hc wc g) ->
  exists g' hc' wc',
    snd (pixel2cam depth Kinv st) = Some g'
    /\ is_pixel_grid 1 hc' wc' g'
    /\ h <= hc'
    /\ (st = None -> hc' = h /\ wc' = w)
    /\ (forall g hc wc, st = Some g -> is_pixel_grid 1 hc wc g ->
          hc <= hc'
          /\ (h <= hc -> g' = g)
          /\ (hc < h -> hc' = h /\ wc' = w)).
Proof.
  intros Hd Hst. rewrite (@pixel2cam_state b h w depth Kinv st Hd).
  assert (Hsize : forall g hc wc hc2 wc2,
             is_pixel_grid 1 hc wc g -> is_pixel_grid 1 hc2 wc2 g ->
             hc2 = hc /\ wc2 = wc).
  { intros g hc wc hc2 wc2 [S1 _] [S2 _]. rewrite S1 in S2.
    injection S2 as -> ->. auto. }
  destruct Hst as [->|(g & hc & wc & -> & Gg)].
  - destruct (@current_grid_regenerated b h w depth Hd None (or_introl eq_refl))
      as (g' & r & E & Gg' & _).
    exists g', h, w. rewrite E. cbn [snd].
    split; [reflexivity|]. split; [exact Gg'|]. split; [lia|].
    split; [auto|]. intros; discriminate.
  - destruct (Nat.lt_ge_cases hc h) as [Hlt|Hge].
    + destruct (@current_grid_regenerated b h w depth Hd (Some g))
        as (g' & r & E & Gg' & _).
      { right. exists g, hc, wc. split; [reflexivity|]. split; [apply Gg|exact Hlt]. }
      exists g', h, w. rewrite E. cbn [snd].
      split; [reflexivity|]. split; [exact Gg'|]. split; [lia|].
      split; [intros; discriminate|].
      intros g2 hc2 wc2 Eg G2. injection Eg as <-.
      destruct (Hsize g hc wc hc2 wc2 Gg G2) as [-> ->].
      split; [lia|]. split; [lia|auto].
    + exists g, hc, wc.
      rewrite (@current_grid_keeps_high_cache b h w hc wc depth g Hd (proj1 Gg) Hge).
      split; [reflexivity|]. split; [exact Gg|]. split; [exact Hge|].
      split; [intros; discriminate|].
      intros g2 hc2 wc2 Eg G2. injection Eg as <-.
      destruct (Hsize g hc wc hc2 wc2 Gg G2) as [-> ->].
      split; [lia|]. split; [reflexivity|lia].
Qed.

Lemma pixel2cam_keeps_cache_a_grid_witness :
  exists g' hc' wc',
    snd (pixel2cam (ones [1; 2; 3]) K_id None) = Some g'
    /\ is_pixel_grid 1 hc' wc' g'
    /\ 2 <= hc'.
Proof.
  destruct (@pixel2cam_keeps_cache_a_grid 1 2 3 (ones [1; 2; 3]) K_id None eq_refl
              (or_introl eq_refl))
    as (g' & hc' & wc' & E & G & Hle & _).
  exists g', hc', wc'. auto.
Defined.

(** X7: on a non-empty batch and a cache that is empty or serves the
    request, pixel2cam returns for pixel (i,j) of batch element n the point
    depth[n,i,j] * K_inv[n] . (j, i, 1). *)
Theorem pixel2cam_unprojects (b h w : nat) (depth Kinv : tensor R) (st : cache) :
  0 < b -> size depth = [b; h; w] -> size Kinv = [b; 3; 3] ->
  cache_adequate st h w ->
  exists cam st',
    pixel2cam depth Kinv st = (Ok cam, st')
    /\ size cam = [b; 3; h; w]
    /\ forall n k i j, n < b -> k < 3 -> i < h -> j < w ->
         rget cam [n; k; i; j]
         = ((rget Kinv [n; k; 0%nat] * INR j + rget Kinv [n; k; 1%nat] * INR i
             + rget Kinv [n; k; 2%nat]) * rget depth [n; i; j])%R.
Proof.
  intros Hb Hd HK Hst.
  destruct (@current_grid_adequate b h w depth st Hd Hst) as (r & st' & Eg & Gr).
  destruct (@pixel2cam_on_pixel_grid b h w depth Kinv st st' r Hb Hd HK Eg Gr)
    as (cam & Ecam & Scam & Gcam).
  exists cam, st'. auto.
Qed.

Lemma pixel2cam_unprojects_witness :
  exists cam st',
    pixel2cam (ones [1; 2; 3]) K_id None = (Ok cam, st')
    /\ size cam = [1; 3; 2; 3]
    /\ forall n k i j, n < 1 -> k < 3 -> i < 2 -> j < 3 ->
         rget cam [n; k; i; j]
         = ((rget K_id [n; k; 0%nat] * INR j + rget K_id [n; k; 1%nat] * INR i
             + rget K_id [n; k; 2%nat]) * rget (ones [1%nat; 2%nat; 3%nat]) [n; i; j])%R.
Proof.
  apply (@pixel2cam_unprojects 1 2 3 (ones [1; 2; 3]) K_id None);
    try lia; try reflexivity.
  left. reflexivity.
Defined.

(** X8: when the cached grid is high enough but narrower than the depth
    map, with a width other than 1, pixel2cam raises RuntimeError and keeps
    the cache, so the same call fails again however often it is repeated. *)
Theorem narrow_cache_keeps_failing (b h w hc wc : nat) (depth Kinv g0 : tensor R) :
  size depth = [b; h; w] ->
  is_pixel_grid 1 hc wc g0 -> h <= hc -> wc < w -> wc <> 1 ->
  pixel2cam depth Kinv (Some g0) = (Raise RuntimeError, Some g0)
  /\ pixel2cam depth Kinv (snd (pixel2cam depth Kinv (Some g0)))
     = (Raise RuntimeError, Some g0).
Proof.
  intros Hd Hg Hle Hw Hwc.
  assert (E : pixel2cam depth Kinv (Some g0) = (Raise RuntimeError, Some g0)).
  { unfold pixel2cam, mbind at 1, lift at 1. rewrite Hd. cbn [unpack3].
    unfold mbind.
    rewrite (@current_grid_cached_narrow b h w depth Hd g0 hc wc Hg Hle Hw Hwc).
    reflexivity. }
  split; [exact E|]. rewrite E. cbn [snd]. exact E.
Qed.

Lemma narrow_cache_keeps_failing_witness :
  exists g0,
    id_grid 2 2 = Ok g0
    /\ pixel2cam (ones [1; 2; 3]) K_id (Some g0) = (Raise RuntimeError, Some g0).
Proof.
  destruct (id_grid_entries 2 2) as (g0 & E & _ & G).
  exists g0. split; [exact E|].
  apply (@narrow_cache_keeps_failing 1 2 3 2 2 (ones [1; 2; 3]) K_id g0);
    try lia; try reflexivity. exact G.
Defined.

(** ** cam2pixel: the range of the output and the channels of the input *)

Lemma mask_value_is_2_iff (v : R) :
  mask_value v = 2%R <-> (1 < v \/ v < -1)%R.
Proof.
  split; [|apply mask_value_outside].
  intros E. destruct (Rlt_dec 1 v) as [|H1]; [left; assumption|].
  destruct (Rlt_dec v (-1)) as [|H2]; [right; assumption|].
  rewrite mask_value_inside in E by lra. lra.
Qed.

Lemma mask_value_range (v : R) :
  mask_value v = 2%R \/ (-1 <= mask_value v <= 1)%R.
Proof.
  destruct (Rlt_dec 1 v) as [|H1];
    [left; apply mask_value_outside; left; assumption|].
  destruct (Rlt_dec v (-1)) as [|H2];
    [left; apply mask_value_outside; right; assumption|].
  right. rewrite mask_value_inside by lra. lra.
Qed.

(** X9: every coordinate cam2pixel returns is a finite number that lies
    in [-1, 1] or is the value 2, and it is 2 exactly when the normalised
    coordinate 2*(C/max(Z,1e-3))/(n-1) - 1 of that pixel is strictly outside
    [-1, 1]: the validity of a pixel can be read back from the output. *)
Theorem cam2pixel_output_range (b h w : nat) (cam P : tensor R) :
  0 < b -> size cam = [b; 3; h; w] -> size P = [b; 3; 4] ->
  w <> 1 -> h <> 1 ->
  exists out,
    cam2pixel cam P = Ok out
    /\ size out = [b; h; w; 2]
    /\ forall n i j, n < b -> i < h -> j < w ->
         let xn := norm_coord (proj_coord cam P n 0 i j) (proj_coord cam P n 2 i j) w in
         let yn := norm_coord (proj_coord cam P n 1 i j) (proj_coord cam P n 2 i j) h in
         (exists v, fget out [n; i; j; 0] = Fin v /\ (v = 2 \/ -1 <= v <= 1)%R)
         /\ (exists v, fget out [n; i; j; 1] = Fin v /\ (v = 2 \/ -1 <= v <= 1)%R)
         /\ (fget out [n; i; j; 0] = Fin 2 <-> (1 < xn \/ xn < -1)%R)
         /\ (fget out [n; i; j; 1] = Fin 2 <-> (1 < yn \/ yn < -1)%R).
Proof.
  intros Hb Hcam HP Hw Hh.
  destruct (@cam2pixel_entries b h w cam P Hb Hcam HP Hw Hh)
    as (pc & X & Y & Zc & Xn & Yn & out & _ & _ & _ & _ & _ & _ & Eout & Sout & G).
  exists out. split; [exact Eout|]. split; [exact Sout|].
  intros n i j Hn Hi Hj xn yn.
  destruct (G n i j Hn Hi Hj) as (_ & _ & _ & _ & _ & Go0 & Go1).
  rewrite Go0, Go1. fold xn yn.
  split; [eexists; split; [reflexivity|apply mask_value_range]|].
  split; [eexists; split; [reflexivity|apply mask_value_range]|].
  split; (split; [intros E; injection E as E; apply mask_value_is_2_iff, E
                 |intros H; f_equal; apply mask_value_is_2_iff, H]).
Qed.

Lemma cam2pixel_output_range_witness :
  exists out,
    cam2pixel cam_sample proj_id = Ok out
    /\ size out = [1; 2; 3; 2]
    /\ exists v, fget out [0; 0; 0; 0] = Fin v /\ (v = 2 \/ -1 <= v <= 1)%R.
Proof.
  destruct (@cam2pixel_output_range 1 2 3 cam_sample proj_id)
    as (out & E & S & G); [lia|reflexivity|reflexivity|lia|lia|].
  exists out. split; [exact E|]. split; [exact S|].
  destruct (G 0 0 0) as (H & _); try lia. exact H.
Defined.

(** X10: cam2pixel returns only on inputs of 3 channels.  Its docstring
    announces cam_coords of size [B, 4, H, W], but the body views them as
    [B, 3, H*W]: on a [B, C, H, W] input with C other than 3 that has pixels,
    and a [B, 3, 4] projection, the call raises. *)
Theorem cam2pixel_needs_three_channels (b c h w : nat) (cam P : tensor R) :
  0 < b -> 0 < h -> 0 < w -> c <> 3 ->
  size cam = [b; c; h; w] -> size P = [b; 3; 4] ->
  exists e, cam2pixel cam P = Raise e.
Proof.
  intros Hb Hh Hw Hc Hcam HP.
  unfold cam2pixel. rewrite Hcam. cbn [unpack4 rbind].
  unfold pcoords_of. rewrite Hcam. cbn [unpack4 rbind].
  unfold view_infer. rewrite Hcam.
  destruct ((0 <? numel [b; 3]) && (numel [b; c; h; w] mod numel [b; 3] =? 0))
    eqn:Ev; [|cbn [rbind]; eauto].
  apply andb_true_iff in Ev as [_ Emod]. apply Nat.eqb_eq in Emod.
  set (N := numel [b; c; h; w] / numel [b; 3]) in *.
  assert (HN : c * (h * w) = 3 * N).
  { pose proof (Nat.div_mod_eq (numel [b; c; h; w]) (numel [b; 3])) as Hdm.
    rewrite Emod in Hdm. fold N in Hdm.
    cbn [numel fold_right] in Hdm. nia. }
  assert (HNne : N <> h * w) by nia.
  cbn [rbind app].
  unfold slice at 1. rewrite HP.
  cbn [nth_error firstn skipn app Nat.min Nat.max Nat.sub rbind].
  set (p1 := tabulate [b; 3; 3] _).
  set (flat := mkT [b; 3; N] (data cam)).
  destruct (@bmm_entries p1 flat b 3 3 N eq_refl eq_refl)
    as (rot & Erot & Srot & Wrot & _).
  rewrite Erot. cbn [rbind].
  unfold slice. rewrite HP.
  cbn [nth_error firstn skipn app Nat.min Nat.max Nat.sub rbind].
  set (tr := tabulate [b; 3; 1] _).
  unfold tadd, binop. rewrite Srot.
  change (size tr) with [b; 3; 1].
  rewrite broadcast_shape_last1. cbn [rbind].
  set (pc := tabulate [b; 3; N] _).
  assert (Spc : size pc = [b; 3; N]) by reflexivity.
  destruct (@select_channel b Hb pc N 0 Spc) as (X & EX & SX & WX & _); [lia|].
  destruct (@select_channel b Hb pc N 1 Spc) as (Y & EY & SY & WY & _); [lia|].
  destruct (@select_channel b Hb pc N 2 Spc) as (Z0 & EZ0 & SZ0 & WZ0 & _); [lia|].
  rewrite EX. cbn [rbind]. rewrite EY. cbn [rbind].
  unfold clamped_Z. rewrite EZ0. cbn [rbind].
  set (Zc := clamp_min Z0 (1 / 1000)).
  assert (SZc : size Zc = [b; N]) by exact SZ0.
  destruct (@normalize_entries [b; N] X Zc w SX SZc)
    as (Xn & EXn & SXn & WXn & _).
  rewrite EXn. cbn [rbind].
  destruct (mask_out_entries WXn) as (Xm & EXm & SXm & _).
  rewrite EXm. cbn [rbind].
  destruct (@normalize_entries [b; N] Y Zc h SY SZc)
    as (Yn & EYn & SYn & WYn & _).
  rewrite EYn. cbn [rbind].
  destruct (mask_out_entries WYn) as (Ym & EYm & SYm & _).
  rewrite EYm. cbn [rbind].
  rewrite SXn in SXm. rewrite SYn in SYm.
  rewrite stack_ok;
    [|repeat constructor; rewrite SYm, SXm; reflexivity
     |rewrite SXm; cbn [length]; lia].
  cbn [rbind]. rewrite SXm. cbn [insert_at firstn skipn app length].
  unfold view. cbn [size tabulate].
  destruct (Nat.eqb_spec (numel [b; h; w; 2]) (numel [b; N; 2])) as [E|_];
    [|eauto].
  exfalso. cbn [numel fold_right] in E. nia.
Qed.

Lemma cam2pixel_needs_three_channels_witness :
  exists e, cam2pixel (tzeros [1; 4; 2; 3]) proj_id = Raise e.
Proof.
  apply (@cam2pixel_needs_three_channels 1 4 2 3 (tzeros [1; 4; 2; 3]) proj_id);
    try lia; reflexivity.
Defined.

(** ** euler2mat: proper rotations, single axes, mismatched lengths *)

Lemma batch_mat_of_entries (Rm : tensor R) (n : nat) (m : mat3) :
  (forall i j, i < 3 -> j < 3 -> rget Rm [n; i; j] = mat_entry m i j) ->
  batch_mat Rm n = mat_tabulate (mat_entry m).
Proof. intros H. unfold batch_mat. apply mat_tabulate_ext. exact H. Qed.

Section ProperRotation.

Import NsatzTactic RNsatz.

Lemma rotation_proper (tx ty tz : R) :
  let M := mat_mul (mat_mul (Rx tx) (Ry ty)) (Rz tz) in
  mat_mul (mat_transpose M) M = mat_identity /\ mat_det M = 1%R.
Proof.
  intros M. subst M.
  pose proof (sin2_cos2 tx) as Hx.
  pose proof (sin2_cos2 ty) as Hy.
  pose proof (sin2_cos2 tz) as Hz.
  unfold Rsqr in Hx, Hy, Hz.
  unfold mat_det, mat_mul, mat_transpose, mat_tabulate, mat_identity, Rx, Ry, Rz.
  cbn [map seq]. unfold mat_entry, sum_n. cbn [map seq nth fold_right].
  set (cx := cos tx) in *. set (sx := sin tx) in *.
  set (cy := cos ty) in *. set (sy := sin ty) in *.
  set (cz := cos tz) in *. set (sz := sin tz) in *.
  split; [repeat (f_equal; try nsatz)|nsatz].
Qed.

End ProperRotation.

(** X11: every matrix euler2mat returns is a proper rotation: its
    transpose is also its left inverse (R^T . R = I) and its determinant
    is 1, for all real angles. *)
Theorem euler2mat_proper_rotation (B : nat) (z y x : tensor R) :
  size z = [B] -> size y = [B] -> size x = [B] ->
  well_formed z -> well_formed y -> well_formed x ->
  exists Rm,
    euler2mat z y x = Ok Rm
    /\ forall n, n < B ->
         mat_mul (mat_transpose (batch_mat Rm n)) (batch_mat Rm n) = mat_identity
         /\ mat_det (batch_mat Rm n) = 1%R.
Proof.
  intros Hz Hy Hx Wz Wy Wx.
  destruct (euler2mat_entries Hz Hy Hx Wz Wy Wx) as (Rm & E & S & G).
  exists Rm. split; [exact E|].
  intros n Hn.
  assert (Hb : batch_mat Rm n
               = mat_mul (mat_mul (Rx (rget x [n])) (Ry (rget y [n])))
                         (Rz (rget z [n]))).
  { rewrite <- mat_mul_tabulate. apply batch_mat_of_entries.
    intros i j Hi Hj. apply G; assumption. }
  rewrite Hb. apply rotation_proper.
Qed.

Lemma euler2mat_proper_rotation_witness :
  exists Rm,
    euler2mat (mkT [1] [PI]) (mkT [1] [2%R]) (mkT [1] [1%R]) = Ok Rm
    /\ forall n, n < 1 ->
         mat_mul (mat_transpose (batch_mat Rm n)) (batch_mat Rm n) = mat_identity
         /\ mat_det (batch_mat Rm n) = 1%R.
Proof.
  apply (@euler2mat_proper_rotation 1 (mkT [1] [PI]) (mkT [1] [2%R]) (mkT [1] [1%R]));
    reflexivity.
Defined.

Lemma rotation_single_axis (t : R) :
  mat_mul (mat_mul (Rx 0) (Ry 0)) (Rz t) = Rz t
  /\ mat_mul (mat_mul (Rx 0) (Ry t)) (Rz 0) = Ry t
  /\ mat_mul (mat_mul (Rx t) (Ry 0)) (Rz 0) = Rx t.
Proof.
  unfold mat_mul, mat_tabulate, Rx, Ry, Rz.
  cbn [map seq]. unfold mat_entry, sum_n. cbn [map seq nth fold_right].
  rewrite cos_0, sin_0.
  repeat split; repeat (f_equal; try ring).
Qed.

(** X12: with the other two angles zero, euler2mat returns the elementary
    rotation of the remaining axis: Rz(z) for (z,0,0), Ry(y) for (0,y,0) and
    Rx(x) for (0,0,x). *)
Theorem euler2mat_single_axis (B : nat) (a : tensor R) :
  size a = [B] -> well_formed a ->
  exists Mz My Mx,
    euler2mat a (tzeros [B]) (tzeros [B]) = Ok Mz
    /\ euler2mat (tzeros [B]) a (tzeros [B]) = Ok My
    /\ euler2mat (tzeros [B]) (tzeros [B]) a = Ok Mx
    /\ forall n, n < B ->
         batch_mat Mz n = Rz (rget a [n])
         /\ batch_mat My n = Ry (rget a [n])
         /\ batch_mat Mx n = Rx (rget a [n]).
Proof.
  intros Ha Wa.
  assert (W0 : well_formed (tzeros [B])) by apply well_formed_tabulate.
  destruct (@euler2mat_entries B a (tzeros [B]) (tzeros [B])
              Ha eq_refl eq_refl Wa W0 W0) as (Mz & Ez & _ & Gz).
  destruct (@euler2mat_entries B (tzeros [B]) a (tzeros [B])
              eq_refl Ha eq_refl W0 Wa W0) as (My & Ey & _ & Gy).
  destruct (@euler2mat_entries B (tzeros [B]) (tzeros [B]) a
              eq_refl eq_refl Ha W0 W0 Wa) as (Mx & Ex & _ & Gx).
  exists Mz, My, Mx. split; [exact Ez|]. split; [exact Ey|]. split; [exact Ex|].
  intros n Hn.
  destruct (rotation_single_axis (rget a [n])) as (Az & Ay & Ax).
  assert (H0 : rget (tzeros [B]) [n] = 0%R) by (apply rget_tzeros; in_range_tac).
  split; [|split].
  - rewrite <- Az at 1. rewrite <- mat_mul_tabulate. apply batch_mat_of_entries.
    intros i j Hi Hj. rewrite Gz, H0 by assumption. reflexivity.
  - rewrite <- Ay at 1. rewrite <- mat_mul_tabulate. apply batch_mat_of_entries.
    intros i j Hi Hj. rewrite Gy, H0 by assumption. reflexivity.
  - rewrite <- Ax at 1. rewrite <- mat_mul_tabulate. apply batch_mat_of_entries.
    intros i j Hi Hj. rewrite Gx, H0 by assumption. reflexivity.
Qed.

Lemma euler2mat_single_axis_witness :
  exists Mz My Mx,
    euler2mat (mkT [1] [PI]) (tzeros [1]) (tzeros [1]) = Ok Mz
    /\ euler2mat (tzeros [1]) (mkT [1] [PI]) (tzeros [1]) = Ok My
    /\ euler2mat (tzeros [1]) (tzeros [1]) (mkT [1] [PI]) = Ok Mx
    /\ forall n, n < 1 ->
         batch_mat Mz n = Rz (rget (mkT [1] [PI]) [n])
         /\ batch_mat My n = Ry (rget (mkT [1] [PI]) [n])
         /\ batch_mat Mx n = Rx (rget (mkT [1] [PI]) [n]).
Proof.
  apply (@euler2mat_single_axis 1 (mkT [1] [PI])); reflexivity.
Defined.

Lemma tadd_vectors (B : nat) (u v : tensor R) :
  size u = [B] -> size v = [B] ->
  exists s,
    tadd u v = Ok s /\ size s = [B] /\ well_formed s
    /\ forall n, n < B -> rget s [n] = (rget u [n] + rget v [n])%R.
Proof.
  intros Hu Hv. unfold tadd, binop. rewrite Hu, Hv, broadcast_shape_same.
  eexists. split; [reflexivity|]. split; [reflexivity|].
  split; [apply well_formed_tabulate|].
  intros n Hn. unfold rget at 1.
  rewrite tget_tabulate by in_range_tac.
  rewrite bidx_same by in_range_tac. reflexivity.
Qed.

(** X13: rotations about the z axis compose by adding their angles: the
    matrix euler2mat returns for (z1 + z2, 0, 0) is the batched product of
    the matrices it returns for (z1, 0, 0) and (z2, 0, 0). *)
Theorem euler2mat_z_angles_add (B : nat) (z1 z2 : tensor R) :
  size z1 = [B] -> size z2 = [B] -> well_formed z1 -> well_formed z2 ->
  exists z12 R1 R2 R12 Rp,
    tadd z1 z2 = Ok z12
    /\ euler2mat z1 (tzeros [B]) (tzeros [B]) = Ok R1
    /\ euler2mat z2 (tzeros [B]) (tzeros [B]) = Ok R2
    /\ euler2mat z12 (tzeros [B]) (tzeros [B]) = Ok R12
    /\ bmm R1 R2 = Ok Rp
    /\ size R12 = size Rp
    /\ forall n i j, n < B -> i < 3 -> j < 3 ->
         rget R12 [n; i; j] = rget Rp [n; i; j].
Proof.
  intros H1 H2 W1 W2.
  assert (W0 : well_formed (tzeros [B])) by apply well_formed_tabulate.
  destruct (@tadd_vectors B z1 z2 H1 H2) as (z12 & E12 & S12 & W12 & G12).
  destruct (@euler2mat_entries B z1 (tzeros [B]) (tzeros [B])
              H1 eq_refl eq_refl W1 W0 W0) as (R1 & ER1 & SR1 & GR1).
  destruct (@euler2mat_entries B z2 (tzeros [B]) (tzeros [B])
              H2 eq_refl eq_refl W2 W0 W0) as (R2 & ER2 & SR2 & GR2).
  destruct (@euler2mat_entries B z12 (tzeros [B]) (tzeros [B])
              S12 eq_refl eq_refl W12 W0 W0) as (R12 & ER12 & SR12 & GR12).
  destruct (@bmm_entries R1 R2 B 3 3 3 SR1 SR2) as (Rp & ERp & SRp & _ & GRp).
  exists z12, R1, R2, R12, Rp.
  split; [exact E12|]. split; [exact ER1|]. split; [exact ER2|].
  split; [exact ER12|]. split; [exact ERp|].
  split; [rewrite SR12, SRp; reflexivity|].
  intros n i j Hn Hi Hj.
  assert (H0 : rget (tzeros [B]) [n] = 0%R) by (apply rget_tzeros; in_range_tac).
  rewrite GRp, sum_n_3 by assumption.
  rewrite GR12, !GR1, !GR2 by lia.
  rewrite !H0, G12 by assumption.
  destruct (rotation_single_axis (rget z1 [n])) as (A1 & _).
  destruct (rotation_single_axis (rget z2 [n])) as (A2 & _).
  destruct (rotation_single_axis (rget z1 [n] + rget z2 [n])) as (A12 & _).
  rewrite A1, A2, A12.
  destruct (lt3_cases Hi) as [ -> | [ -> | -> ] ];
    destruct (lt3_cases Hj) as [ -> | [ -> | -> ] ];
    unfold mat_entry, Rz; cbn [nth];
    rewrite ?cos_plus, ?sin_plus; ring.
Qed.

Lemma euler2mat_z_angles_add_witness :
  exists z12 R1 R2 R12 Rp,
    tadd (mkT [1] [PI]) (mkT [1] [1%R]) = Ok z12
    /\ euler2mat (mkT [1] [PI]) (tzeros [1]) (tzeros [1]) = Ok R1
    /\ euler2mat (mkT [1] [1%R]) (tzeros [1]) (tzeros [1]) = Ok R2
    /\ euler2mat z12 (tzeros [1]) (tzeros [1]) = Ok R12
    /\ bmm R1 R2 = Ok Rp
    /\ size R12 = size Rp
    /\ forall n i j, n < 1 -> i < 3 -> j < 3 ->
         rget R12 [n; i; j] = rget Rp [n; i; j].
Proof.
  apply (@euler2mat_z_angles_add 1 (mkT [1] [PI]) (mkT [1] [1%R])); reflexivity.
Defined.

Lemma stack_mismatch {A} (d : A) (t0 t : tensor A) (ts : list (tensor A))
    (dim : nat) :
  In t ts -> size t <> size t0 -> stack d (t0 :: ts) dim = Raise RuntimeError.
Proof.
  intros Hin Hne. unfold stack.
  destruct (forallb (fun u => list_eqb (size u) (size t0)) (t0 :: ts)) eqn:E;
    [|reflexivity].
  exfalso. apply Hne. apply list_eqb_eq.
  rewrite forallb_forall in E. apply E. right. exact Hin.
Qed.

(** X14: euler2mat takes its batch size from z alone and never compares
    the lengths of its arguments itself: when y, or x, has another size than
    z, the call fails with the RuntimeError of torch.stack. *)
Theorem euler2mat_mismatched_lengths (B : nat) (z y x : tensor R) :
  size z = [B] ->
  (size y <> [B] -> euler2mat z y x = Raise RuntimeError)
  /\ (size y = [B] -> size x <> [B] -> euler2mat z y x = Raise RuntimeError).
Proof.
  intros Hz.
  destruct (@stack9_view B (tcos z)
              [tneg (tsin z); mul_scalar 0 z; tsin z; tcos z; mul_scalar 0 z;
               mul_scalar 0 z; mul_scalar 0 z; add_scalar (mul_scalar 0 z) 1])
    as (zs & zmat & Ezs & Ez & _);
    [reflexivity|exact Hz|repeat constructor; exact Hz|].
  split.
  - intros Hy. unfold euler2mat. rewrite Hz. cbn [size_at nth_error rbind].
    rewrite Ezs. cbn [rbind]. rewrite Ez. cbn [rbind].
    rewrite (@stack_mismatch _ 0%R (tcos y) (mul_scalar 0 z));
      [reflexivity|cbn [In]; auto|].
    cbn [size tcos tmap mul_scalar]. rewrite Hz. congruence.
  - intros Hy Hx. unfold euler2mat. rewrite Hz. cbn [size_at nth_error rbind].
    rewrite Ezs. cbn [rbind]. rewrite Ez. cbn [rbind].
    destruct (@stack9_view B (tcos y)
                [mul_scalar 0 z; tsin y; mul_scalar 0 z;
                 add_scalar (mul_scalar 0 z) 1; mul_scalar 0 z; tneg (tsin y);
                 mul_scalar 0 z; tcos y])
      as (ys & ymat & Eys & Ey & _);
      [reflexivity|exact Hy|repeat constructor; assumption|].
    rewrite Eys. cbn [rbind]. rewrite Ey. cbn [rbind].
    rewrite (@stack_mismatch _ 0%R (add_scalar (mul_scalar 0 z) 1) (tcos x));
      [reflexivity|cbn [In]; auto 10|].
    cbn [size tcos tmap mul_scalar add_scalar]. rewrite Hz. exact Hx.
Qed.

Lemma euler2mat_mismatched_lengths_witness :
  euler2mat (tzeros [2]) (tzeros [3]) (tzeros [2]) = Raise RuntimeError
  /\ euler2mat (tzeros [2]) (tzeros [2]) (tzeros [3]) = Raise RuntimeError.
Proof.
  split.
  - apply (proj1 (@euler2mat_mismatched_lengths 2 (tzeros [2]) (tzeros [3])
                    (tzeros [2]) eq_refl)).
    cbn [size tzeros tabulate]. congruence.
  - apply (proj2 (@euler2mat_mismatched_lengths 2 (tzeros [2]) (tzeros [2])
                    (tzeros [3]) eq_refl)); [reflexivity|].
    cbn [size tzeros tabulate]. congruence.
Defined.

(** ** pose_vec2mat: translations and short pose vectors *)

(** X15: for a pose whose three angles are zero, pose_vec2mat returns
    [I | t]: the identity in columns 0..2 and the translation of the pose in
    column 3. *)
Theorem pose_vec2mat_translation_only (B : nat) (vec : tensor R) :
  size vec = [B; 6] -> well_formed vec ->
  (forall n, n < B ->
     rget vec [n; 3] = 0%R /\ rget vec [n; 4] = 0%R /\ rget vec [n; 5] = 0%R) ->
  exists T,
    pose_vec2mat vec = Ok T
    /\ size T = [B; 3; 4]
    /\ forall n i, n < B -> i < 3 ->
         (forall j, j < 3 -> rget T [n; i; j] = mat_entry mat_identity i j)
         /\ rget T [n; i; 3] = rget vec [n; i].
Proof.
  intros Hvec Wvec H0.
  destruct (@pose_vec2mat_entries B vec Hvec Wvec) as (T & ET & ST & GT).
  exists T. split; [exact ET|]. split; [exact ST|].
  intros n i Hn Hi. destruct (GT n i Hn Hi) as [G1 G2].
  destruct (H0 n Hn) as (E3 & E4 & E5).
  split; [|exact G2].
  intros j Hj. rewrite G1 by exact Hj.
  rewrite E3, E4, E5, rotation_zero. reflexivity.
Qed.

Lemma pose_vec2mat_translation_only_witness :
  exists T,
    pose_vec2mat (mkT [1; 6] [1; 2; 3; 0; 0; 0]%R) = Ok T
    /\ size T = [1; 3; 4]
    /\ forall n i, n < 1 -> i < 3 ->
         (forall j, j < 3 -> rget T [n; i; j] = mat_entry mat_identity i j)
         /\ rget T [n; i; 3] = rget (mkT [1; 6] [1; 2; 3; 0; 0; 0]%R) [n; i].
Proof.
  apply (@pose_vec2mat_translation_only 1 (mkT [1; 6] [1; 2; 3; 0; 0; 0]%R));
    try reflexivity.
  intros n Hn. assert (n = 0) by lia. subst n. repeat split; reflexivity.
Defined.

(** X16: pose_vec2mat on a pose of fewer than 6 columns raises
    IndexError: the slice [vec[:, :3]] accepts any width, and the first
    missing angle column among 3, 4, 5 is the one that fails. *)
Theorem pose_vec2mat_short_pose (B k : nat) (vec : tensor R) :
  size vec = [B; k] -> k < 6 -> pose_vec2mat vec = Raise IndexError.
Proof.
  intros Hvec Hk. destruct vec as [s d]. cbn [size] in Hvec. subst s.
  do 6 (destruct k as [|k]; [reflexivity|]). lia.
Qed.

Lemma pose_vec2mat_short_pose_witness :
  pose_vec2mat (tzeros [2; 5]) = Raise IndexError.
Proof.
  apply (@pose_vec2mat_short_pose 2 5 (tzeros [2; 5])); [reflexivity|lia].
Defined.

(** ** The whole pipeline *)

(** Every stage of lines 149-158 on conforming sizes, entry by entry. *)
Lemma pipeline_entries (b h w : nat) (img depth pose K Kinv : tensor R)
    (st : cache) :
  0 < b -> h <> 1 -> w <> 1 ->
  size img = [b; 3; h; w] -> size depth = [b; h; w] -> size pose = [b; 6] ->
  size K = [b; 3; 3] -> size Kinv = [b; 3; 3] ->
  well_formed pose ->
  cache_adequate st h w ->
  exists cam T P pc X Y Zc Xn Yn out st',
    (pixel2cam depth Kinv st = (Ok cam, st')
     /\ pose_vec2mat pose = Ok T
     /\ bmm K T = Ok P
     /\ pcoords_of cam P = Ok pc
     /\ select 0%R pc 1 0 = Ok X
     /\ select 0%R pc 1 1 = Ok Y
     /\ clamped_Z pc = Ok Zc
     /\ normalize X Zc w = Ok Xn
     /\ normalize Y Zc h = Ok Yn
     /\ src_pixel_coords img depth pose K Kinv st = (Ok out, st'))
    /\ size out = [b; h; w; 2]
    /\ (forall n k i j, n < b -> k < 3 -> i < h -> j < w ->
          rget cam [n; k; i; j]
          = ((rget Kinv [n; k; 0%nat] * INR j + rget Kinv [n; k; 1%nat] * INR i
              + rget Kinv [n; k; 2%nat]) * rget depth [n; i; j])%R)
    /\ (forall n c, n < b -> c < 3 ->
          (forall k, k < 3 ->
             rget P [n; c; k]
             = sum_n 3 (fun m =>
                 rget K [n; c; m]
                 * mat_entry (mat_mul (mat_mul (Rx (rget pose [n; 3%nat]))
                                               (Ry (rget pose [n; 4%nat])))
                                      (Rz (rget pose [n; 5%nat]))) m k)%R)
          /\ rget P [n; c; 3]
             = sum_n 3 (fun m => rget K [n; c; m] * rget pose [n; m])%R)
    /\ (forall n i j, n < b -> i < h -> j < w ->
          fget Xn [n; i * w + j]
          = Fin (norm_coord (proj_coord cam P n 0 i j) (proj_coord cam P n 2 i j) w)
          /\ fget Yn [n; i * w + j]
             = Fin (norm_coord (proj_coord cam P n 1 i j) (proj_coord cam P n 2 i j) h)
          /\ fget out [n; i; j; 0]
             = Fin (mask_value (norm_coord (proj_coord cam P n 0 i j)
                                           (proj_coord cam P n 2 i j) w))
          /\ fget out [n; i; j; 1]
             = Fin (mask_value (norm_coord (proj_coord cam P n 1 i j)
                                           (proj_coord cam P n 2 i j) h))).
Proof.
  intros Hb Hh Hw Himg Hdepth Hpose HK HKinv Wpose Hst.
  destruct (@current_grid_adequate b h w depth st Hdepth Hst)
    as (r & st' & Eg & Gr).
  destruct (@pixel2cam_on_pixel_grid b h w depth Kinv st st' r Hb Hdepth HKinv Eg Gr)
    as (cam & Ecam & Scam & Gcam).
  destruct (@pose_vec2mat_entries b pose Hpose Wpose) as (T & ET & ST & GT).
  destruct (@bmm_entries K T b 3 3 4 HK ST) as (P & EP & SP & _ & GP).
  destruct (@cam2pixel_entries b h w cam P Hb Scam SP Hw Hh)
    as (pc & X & Y & Zc & Xn & Yn & out & Epc & EX & EY & EZc & EXn & EYn
        & Eout & Sout & G).
  exists cam, T, P, pc, X, Y, Zc, Xn, Yn, out, st'.
  split.
  { repeat (split; [assumption|]).
    unfold src_pixel_coords, mbind at 1, lift at 1.
    rewrite Himg, Hdepth, Hpose, HK, HKinv, validate_conforming.
    unfold mbind at 1, lift at 1. cbn [unpack4].
    unfold mbind. rewrite Ecam. unfold lift.
    rewrite ET. cbn [rbind]. rewrite EP. cbn [rbind]. rewrite Eout.
    reflexivity. }
  split; [exact Sout|]. split; [exact Gcam|]. split.
  - intros n c Hn Hc. split.
    + intros k Hk. rewrite GP by lia.
      unfold sum_n. cbn [seq map fold_right].
      destruct (GT n 0) as [T0 _]; [lia|lia|].
      destruct (GT n 1) as [T1 _]; [lia|lia|].
      destruct (GT n 2) as [T2 _]; [lia|lia|].
      rewrite T0, T1, T2 by exact Hk. reflexivity.
    + rewrite GP by lia.
      unfold sum_n. cbn [seq map fold_right].
      destruct (GT n 0) as [_ T0]; [lia|lia|].
      destruct (GT n 1) as [_ T1]; [lia|lia|].
      destruct (GT n 2) as [_ T2]; [lia|lia|].
      rewrite T0, T1, T2. reflexivity.
  - intros n i j Hn Hi Hj.
    destruct (G n i j Hn Hi Hj) as (_ & _ & _ & GXn & GYn & Go0 & Go1).
    auto.
Qed.

(** X17: on sizes of the documented forms, with a non-empty batch, H and
    W other than 1, and a cache that is empty or serves the request,
    inverse_warp computes sampling coordinates of size [B, H, W, 2] and
    returns exactly what grid_sample returns, or raises, on the source image
    and these coordinates, whatever the sampler is. *)
Theorem inverse_warp_hands_coords_to_sampler
    (grid_sample : tensor R -> tensor fval -> result (tensor R))
    (b h w : nat) (img depth pose K Kinv : tensor R) (st : cache) :
  0 < b -> h <> 1 -> w <> 1 ->
  size img = [b; 3; h; w] -> size depth = [b; h; w] -> size pose = [b; 6] ->
  size K = [b; 3; 3] -> size Kinv = [b; 3; 3] ->
  well_formed pose ->
  cache_adequate st h w ->
  exists coords st',
    src_pixel_coords img depth pose K Kinv st = (Ok coords, st')
    /\ size coords = [b; h; w; 2]
    /\ inverse_warp grid_sample img depth pose K Kinv st
       = (grid_sample img coords, st').
Proof.
  intros Hb Hh Hw Himg Hdepth Hpose HK HKinv Wpose Hst.
  destruct (@pipeline_entries b h w img depth pose K Kinv st)
    as (cam & T & P & pc & X & Y & Zc & Xn & Yn & out & st'
        & (_ & _ & _ & _ & _ & _ & _ & _ & _ & E) & S & _); try assumption.
  exists out, st'. split; [exact E|]. split; [exact S|].
  unfold inverse_warp, mbind. rewrite E. reflexivity.
Qed.

Lemma inverse_warp_hands_coords_to_sampler_witness :
  exists coords st',
    src_pixel_coords (tzeros [1; 3; 2; 3]) (ones [1; 2; 3]) (tzeros [1; 6])
                     K_id K_id None = (Ok coords, st')
    /\ size coords = [1; 2; 3; 2]
    /\ inverse_warp (fun _ _ => Raise RuntimeError)
         (tzeros [1; 3; 2; 3]) (ones [1; 2; 3]) (tzeros [1; 6]) K_id K_id None
       = (Raise RuntimeError, st').
Proof.
  apply (@inverse_warp_hands_coords_to_sampler (fun _ _ => Raise RuntimeError)
           1 2 3 (tzeros [1; 3; 2; 3]) (ones [1; 2; 3]) (tzeros [1; 6])
           K_id K_id None); try lia; try reflexivity.
  left. reflexivity.
Defined.

Lemma norm_coord_scale (s C Z : R) (m : nat) :
  (1 / 1000 <= Z)%R -> (1 / 1000 <= s * Z)%R ->
  norm_coord (s * C) (s * Z) m = norm_coord C Z m.
Proof.
  intros HZ HsZ. unfold norm_coord.
  rewrite (Rmax_left (s * Z)) by exact HsZ.
  rewrite (Rmax_left Z) by exact HZ.
  assert (Hs : s <> 0%R) by (intros ->; lra).
  replace (s * C / (s * Z))%R with (C / Z)%R by (field; split; lra).
  reflexivity.
Qed.

(** X18: the normalised coordinates do not see the scale of the scene.
    On sizes of the documented forms, with a non-empty batch, H and W other
    than 1 and caches that serve the request: when the depth map and the
    translation of the pose are both multiplied by a factor s (the angles
    unchanged), every pixel whose depth along the projection ray is at least
    1e-3 before and after the scaling gets the same normalised coordinates
    from lines 58 and 61, before the mask.  The equality is one of the
    values of the source's expressions over the reals (the factor cancels in
    (s*X) / (s*Z)); the program agrees with it up to rounding, and nothing
    is stated about the masked output, whose comparison with 1 and -1 can
    turn on that rounding. *)
Theorem warp_scale_ambiguity (s : R) (b h w : nat)
    (img depth depth' pose pose' K Kinv : tensor R) (st st2 : cache) :
  0 < b -> h <> 1 -> w <> 1 ->
  size img = [b; 3; h; w] ->
  size depth = [b; h; w] -> size depth' = [b; h; w] ->
  size pose = [b; 6] -> size pose' = [b; 6] ->
  size K = [b; 3; 3] -> size Kinv = [b; 3; 3] ->
  well_formed pose -> well_formed pose' ->
  cache_adequate st h w -> cache_adequate st2 h w ->
  (forall n i j, n < b -> i < h -> j < w ->
     rget depth' [n; i; j] = (s * rget depth [n; i; j])%R) ->
  (forall n k, n < b -> k < 3 -> rget pose' [n; k] = (s * rget pose [n; k])%R) ->
  (forall n k, n < b -> 3 <= k < 6 -> rget pose' [n; k] = rget pose [n; k]) ->
  exists cam T P pc X Y Zc Xn Yn out st1,
  exists cam' T' P' pc' X' Y' Zc' Xn' Yn' out' st1',
    (pixel2cam depth Kinv st = (Ok cam, st1)
     /\ pose_vec2mat pose = Ok T
     /\ bmm K T = Ok P
     /\ pcoords_of cam P = Ok pc
     /\ select 0%R pc 1 0 = Ok X
     /\ select 0%R pc 1 1 = Ok Y
     /\ clamped_Z pc = Ok Zc
     /\ normalize X Zc w = Ok Xn
     /\ normalize Y Zc h = Ok Yn
     /\ src_pixel_coords img depth pose K Kinv st = (Ok out, st1))
    /\ (pixel2cam depth' Kinv st2 = (Ok cam', st1')
        /\ pose_vec2mat pose' = Ok T'
        /\ bmm K T' = Ok P'
        /\ pcoords_of cam' P' = Ok pc'
        /\ select 0%R pc' 1 0 = Ok X'
        /\ select 0%R pc' 1 1 = Ok Y'
        /\ clamped_Z pc' = Ok Zc'
        /\ normalize X' Zc' w = Ok Xn'
        /\ normalize Y' Zc' h = Ok Yn'
        /\ src_pixel_coords img depth' pose' K Kinv st2 = (Ok out', st1'))
    /\ forall n i j, n < b -> i < h -> j < w ->
         (1 / 1000 <= proj_coord cam P n 2 i j)%R ->
         (1 / 1000 <= s * proj_coord cam P n 2 i j)%R ->
         (forall c, c < 3 ->
            proj_coord cam' P' n c i j = (s * proj_coord cam P n c i j)%R)
         /\ fget Xn' [n; i * w + j] = fget Xn [n; i * w + j]
         /\ fget Yn' [n; i * w + j] = fget Yn [n; i * w + j].
Proof.
  intros Hb Hh Hw Himg Hd Hd' Hp Hp' HK HKinv Wp Wp' Hst Hst2 Hdepth Htr Hang.
  destruct (@pipeline_entries b h w img depth pose K Kinv st)
    as (cam & T & P & pc & X & Y & Zc & Xn & Yn & out & st1
        & E1 & _ & Gcam & GP & G); try assumption.
  destruct (@pipeline_entries b h w img depth' pose' K Kinv st2)
    as (cam' & T' & P' & pc' & X' & Y' & Zc' & Xn' & Yn' & out' & st1'
        & E2 & _ & Gcam' & GP' & G'); try assumption.
  exists cam, T, P, pc, X, Y, Zc, Xn, Yn, out, st1.
  exists cam', T', P', pc', X', Y', Zc', Xn', Yn', out', st1'.
  split; [exact E1|]. split; [exact E2|].
  intros n i j Hn Hi Hj HZ HsZ.
  assert (Hproj : forall c, c < 3 ->
             proj_coord cam' P' n c i j = (s * proj_coord cam P n c i j)%R).
  { intros c Hc. unfold proj_coord. rewrite !sum_n_3.
    destruct (GP n c Hn Hc) as [GPk GP3].
    destruct (GP' n c Hn Hc) as [GPk' GP3'].
    rewrite !GPk', GP3' by lia.
    rewrite !(Hang n) by lia.
    rewrite <- !GPk by lia.
    rewrite GP3, !sum_n_3.
    rewrite !Gcam', !Gcam by lia.
    rewrite Hdepth by assumption.
    rewrite !(Htr n) by lia.
    ring. }
  split; [exact Hproj|].
  destruct (G n i j Hn Hi Hj) as (GXn & GYn & _).
  destruct (G' n i j Hn Hi Hj) as (GXn' & GYn' & _).
  rewrite GXn, GYn, GXn', GYn', !Hproj by lia.
  rewrite !norm_coord_scale by assumption.
  split; reflexivity.
Qed.

Lemma warp_scale_ambiguity_witness :
  exists cam T P pc X Y Zc Xn Yn out st1,
  exists cam' T' P' pc' X' Y' Zc' Xn' Yn' out' st1',
    (pixel2cam (ones [1; 2; 3]) K_id None = (Ok cam, st1)
     /\ pose_vec2mat (mkT [1; 6] [1; 2; 3; 0; 0; 0]%R) = Ok T
     /\ bmm K_id T = Ok P
     /\ pcoords_of cam P = Ok pc
     /\ select 0%R pc 1 0 = Ok X
     /\ select 0%R pc 1 1 = Ok Y
     /\ clamped_Z pc = Ok Zc
     /\ normalize X Zc 3 = Ok Xn
     /\ normalize Y Zc 2 = Ok Yn
     /\ src_pixel_coords (tzeros [1; 3; 2; 3]) (ones [1; 2; 3])
          (mkT [1; 6] [1; 2; 3; 0; 0; 0]%R) K_id K_id None = (Ok out, st1))
    /\ (pixel2cam (tabulate [1; 2; 3] (fun _ => 2%R)) K_id None = (Ok cam', st1')
        /\ pose_vec2mat (mkT [1; 6] [2; 4; 6; 0; 0; 0]%R) = Ok T'
        /\ bmm K_id T' = Ok P'
        /\ pcoords_of cam' P' = Ok pc'
        /\ select 0%R pc' 1 0 = Ok X'
        /\ select 0%R pc' 1 1 = Ok Y'
        /\ clamped_Z pc' = Ok Zc'
        /\ normalize X' Zc' 3 = Ok Xn'
        /\ normalize Y' Zc' 2 = Ok Yn'
        /\ src_pixel_coords (tzeros [1; 3; 2; 3]) (tabulate [1; 2; 3] (fun _ => 2%R))
             (mkT [1; 6] [2; 4; 6; 0; 0; 0]%R) K_id K_id None = (Ok out', st1'))
    /\ forall n i j, n < 1 -> i < 2 -> j < 3 ->
         (1 / 1000 <= proj_coord cam P n 2 i j)%R ->
         (1 / 1000 <= 2 * proj_coord cam P n 2 i j)%R ->
         (forall c, c < 3 ->
            proj_coord cam' P' n c i j = (2 * proj_coord cam P n c i j)%R)
         /\ fget Xn' [n; i * 3 + j] = fget Xn [n; i * 3 + j]
         /\ fget Yn' [n; i * 3 + j] = fget Yn [n; i * 3 + j].
Proof.
  apply (@warp_scale_ambiguity 2 1 2 3 (tzeros [1; 3; 2; 3])
           (ones [1; 2; 3]) (tabulate [1; 2; 3] (fun _ => 2%R))
           (mkT [1; 6] [1; 2; 3; 0; 0; 0]%R) (mkT [1; 6] [2; 4; 6; 0; 0; 0]%R)
           K_id K_id None None); try lia; try reflexivity.
  - left. reflexivity.
  - left. reflexivity.
  - intros n i j Hn Hi Hj. unfold rget, ones.
    rewrite !tget_tabulate by in_range_tac. lra.
  - intros n k Hn Hk. assert (n = 0) by lia. subst n.
    destruct (lt3_cases Hk) as [ -> | [ -> | -> ] ];
      unfold rget, tget; cbn [size data ravel numel fold_right nth Nat.mul Nat.add];
      lra.
  - intros n k Hn Hk. assert (n = 0) by lia. subst n.
    assert (Hc : k = 3 \/ k = 4 \/ k = 5) by lia.
    destruct Hc as [ -> | [ -> | -> ] ]; reflexivity.
Defined.

(** X19: a depth map that is zero everywhere is not rejected.  On sizes
    of the documented forms, with a non-empty batch, H and W other than 1
    and a cache that is empty or serves the request, every pixel of a batch
    element gets the same sampling location, that of the translation column
    of the projection, and with a zero translation this location is
    (-1, -1), a coordinate inside the valid range. *)
Theorem zero_depth_collapses (b h w : nat) (img depth pose K Kinv : tensor R)
    (st : cache) :
  0 < b -> h <> 1 -> w <> 1 ->
  size img = [b; 3; h; w] -> size depth = [b; h; w] -> size pose = [b; 6] ->
  size K = [b; 3; 3] -> size Kinv = [b; 3; 3] ->
  well_formed pose ->
  cache_adequate st h w ->
  (forall n i j, n < b -> i < h -> j < w -> rget depth [n; i; j] = 0%R) ->
  exists T P out st',
    pose_vec2mat pose = Ok T
    /\ bmm K T = Ok P
    /\ src_pixel_coords img depth pose K Kinv st = (Ok out, st')
    /\ (forall n i j, n < b -> i < h -> j < w ->
          fget out [n; i; j; 0]
          = Fin (mask_value (norm_coord (rget P [n; 0; 3]) (rget P [n; 2; 3]) w))
          /\ fget out [n; i; j; 1]
             = Fin (mask_value (norm_coord (rget P [n; 1; 3]) (rget P [n; 2; 3]) h)))
    /\ ((forall n k, n < b -> k < 3 -> rget pose [n; k] = 0%R) ->
        forall n i j, n < b -> i < h -> j < w ->
          fget out [n; i; j; 0] = Fin (-1) /\ fget out [n; i; j; 1] = Fin (-1)).
Proof.
  intros Hb Hh Hw Himg Hd Hp HK HKinv Wp Hst Hzero.
  destruct (@pipeline_entries b h w img depth pose K Kinv st)
    as (cam & T & P & pc & X & Y & Zc & Xn & Yn & out & st'
        & (_ & ET & EP & _ & _ & _ & _ & _ & _ & E) & _ & Gcam & GP & G);
    try assumption.
  exists T, P, out, st'.
  split; [exact ET|]. split; [exact EP|]. split; [exact E|].
  assert (Hproj : forall n c i j, n < b -> c < 3 -> i < h -> j < w ->
             proj_coord cam P n c i j = rget P [n; c; 3]).
  { intros n c i j Hn Hc Hi Hj. unfold proj_coord. rewrite sum_n_3.
    rewrite !Gcam, Hzero by lia. ring. }
  assert (Hout : forall n i j, n < b -> i < h -> j < w ->
            fget out [n; i; j; 0]
            = Fin (mask_value (norm_coord (rget P [n; 0; 3]) (rget P [n; 2; 3]) w))
            /\ fget out [n; i; j; 1]
               = Fin (mask_value (norm_coord (rget P [n; 1; 3]) (rget P [n; 2; 3]) h))).
  { intros n i j Hn Hi Hj. destruct (G n i j Hn Hi Hj) as (_ & _ & G0 & G1).
    rewrite G0, G1, !Hproj by lia. split; reflexivity. }
  split; [exact Hout|].
  intros Ht n i j Hn Hi Hj.
  destruct (Hout n i j Hn Hi Hj) as [G0 G1].
  assert (HP3 : forall c, c < 3 -> rget P [n; c; 3] = 0%R).
  { intros c Hc. destruct (GP n c Hn Hc) as [_ GP3].
    rewrite GP3, sum_n_3, !Ht by lia. ring. }
  assert (En : forall m, norm_coord 0 0 m = (-1)%R).
  { intros m. unfold norm_coord. unfold Rdiv. rewrite !Rmult_0_l, Rmult_0_r,
      Rmult_0_l. lra. }
  rewrite G0, G1, !HP3, !En by lia.
  rewrite mask_value_inside by lra. split; reflexivity.
Qed.

Lemma zero_depth_collapses_witness :
  exists T P out st',
    pose_vec2mat (tzeros [1; 6]) = Ok T
    /\ bmm K_id T = Ok P
    /\ src_pixel_coords (tzeros [1; 3; 2; 3]) (tzeros [1; 2; 3]) (tzeros [1; 6])
         K_id K_id None = (Ok out, st')
    /\ forall n i j, n < 1 -> i < 2 -> j < 3 ->
         fget out [n; i; j; 0] = Fin (-1) /\ fget out [n; i; j; 1] = Fin (-1).
Proof.
  destruct (@zero_depth_collapses 1 2 3 (tzeros [1; 3; 2; 3]) (tzeros [1; 2; 3])
              (tzeros [1; 6]) K_id K_id None)
    as (T & P & out & st' & ET & EP & E & _ & H);
    try lia; try reflexivity.
  - left. reflexivity.
  - intros n i j Hn Hi Hj. apply rget_tzeros. in_range_tac.
  - exists T, P, out, st'. split; [exact ET|]. split; [exact EP|].
    split; [exact E|]. apply H.
    intros n k Hn Hk. apply rget_tzeros. in_range_tac.
Defined.
